(** * pg_duckdb: value conversion, tuple decoding and filter evaluation

    A shallow embedding of [src/quack_types.cpp] and
    [src/pgduckdb_filter.cpp], and the properties of the conversion layer
    that sits between PostgreSQL heap tuples and DuckDB vectors.

    Layout of the development: machine integers and the error monad, the
    two type systems, the scalar converters, the decimal codec, the heap
    tuple reader, the filter evaluator; then the lemmas, in the same
    order. *)

From Stdlib Require Import ZArith List Bool Lia Znumtheory.
From Stdlib Require Import QArith Qpower Qround.
Import ListNotations.
Local Open Scope Z_scope.

Set Warnings "-register-all".

(* ================================================================== *)
(** * Machine integers *)
(* ================================================================== *)

(** C integers are modelled as [Z] with the wrap-around written out.  A
    [Datum] is PostgreSQL's [uintptr_t], 64 bits wide. *)
Module MachineInt.

(** Reduction of a mathematical integer to an unsigned [w]-bit one. *)
Definition wrap_unsigned (w z : Z) : Z := z mod 2 ^ w.

(** Reduction to a signed (two's complement) [w]-bit integer. *)
Definition wrap_signed (w z : Z) : Z :=
  (z + 2 ^ (w - 1)) mod 2 ^ w - 2 ^ (w - 1).

Definition in_signed (w z : Z) : Prop :=
  - 2 ^ (w - 1) <= z < 2 ^ (w - 1).

Definition in_unsigned (w z : Z) : Prop := 0 <= z < 2 ^ w.

Definition int8 := wrap_signed 8.
Definition int16 := wrap_signed 16.
Definition int32 := wrap_signed 32.
Definition int64 := wrap_signed 64.
Definition uint8 := wrap_unsigned 8.
Definition uint32 := wrap_unsigned 32.
Definition uint64 := wrap_unsigned 64.

End MachineInt.
Import MachineInt.

(** [Datum]: an unsigned 64-bit word.  A signed C integer stored in a
    [Datum] is sign-extended ([Int32GetDatum] and friends are casts). *)
Definition Datum := Z.
Definition to_Datum (z : Z) : Datum := uint64 z.

(* ================================================================== *)
(** * Errors *)
(* ================================================================== *)

(** [elog(ERROR, ...)] leaves the function by a non-local jump, a failed
    [D_ASSERT] or a thrown exception aborts it: all are the [Err] branch of
    an outcome. *)
Inductive error : Type :=
| UnsupportedPostgresType (oid : Z)
| UnsupportedDuckType
| DecimalTypeError
| UnsupportedFilterType (oid : Z)
| OutOfRange
| ConversionError
| AssertFailure
| UndefinedBehaviour.

Inductive outcome (A : Type) : Type :=
| Ok (a : A)
| Err (e : error).
Arguments Ok {A} a.
Arguments Err {A} e.

Definition bind {A B : Type} (r : outcome A) (k : A -> outcome B) : outcome B :=
  match r with
  | Ok a => k a
  | Err e => Err e
  end.

Declare Scope result_scope.
Delimit Scope result_scope with result.
Notation "x <- c ;; k" := (bind c (fun x => k))
  (at level 61, c at next level, right associativity) : result_scope.
Local Open Scope result_scope.

(* ================================================================== *)
(** * The two type systems *)
(* ================================================================== *)

(** Row-store type identifiers ([catalog/pg_type.h]). *)
Module Oid.
Definition BOOLOID : Z := 16.
Definition CHAROID : Z := 18.
Definition INT8OID : Z := 20.
Definition INT2OID : Z := 21.
Definition INT4OID : Z := 23.
Definition TEXTOID : Z := 25.
Definition FLOAT4OID : Z := 700.
Definition FLOAT8OID : Z := 701.
Definition BPCHAROID : Z := 1042.
Definition VARCHAROID : Z := 1043.
Definition DATEOID : Z := 1082.
Definition TIMESTAMPOID : Z := 1114.
Definition NUMERICOID : Z := 1700.
End Oid.
Import Oid.

(** Columnar logical types: the tags the converters switch on, and one
    constructor for every other tag of the engine. *)
Inductive LogicalTypeId : Type :=
| BOOLEAN | TINYINT | SMALLINT | INTEGER | BIGINT
| VARCHAR | DATE | TIMESTAMP | DOUBLE | DECIMAL
| OtherLogicalType (tag : Z).

(** Extra type information attached to a logical type.  [NumericAsDouble]
    is the marker of [quack/types/decimal.hpp]; a DECIMAL carries its
    width and scale. *)
Inductive ExtraTypeInfo : Type :=
| NumericAsDouble
| DecimalTypeInfo (width scale : Z)
| OtherTypeInfo.

Record LogicalType : Type := mkLogicalType {
  type_id : LogicalTypeId;
  aux_info : option ExtraTypeInfo
}.

Definition plain (t : LogicalTypeId) : LogicalType := mkLogicalType t None.

(** [VARHDRSZ] is [sizeof(int32)]. *)
Definition VARHDRSZ : Z := 4.

(** [((typmod - VARHDRSZ) >> 16) & 0xffff] on [int32]. *)
Definition numeric_typmod_precision (typmod : Z) : Z :=
  Z.land (Z.shiftr (int32 (typmod - VARHDRSZ)) 16) 65535.

(** [(((typmod - VARHDRSZ) & 0x7ff) ^ 1024) - 1024] on [int32]. *)
Definition numeric_typmod_scale (typmod : Z) : Z :=
  Z.lxor (Z.land (int32 (typmod - VARHDRSZ)) 2047) 1024 - 1024.

Definition ConvertPostgresToDuckColumnType (type typmod : Z)
  : outcome LogicalType :=
  if type =? BOOLOID then Ok (plain BOOLEAN)
  else if type =? CHAROID then Ok (plain TINYINT)
  else if type =? INT2OID then Ok (plain SMALLINT)
  else if type =? INT4OID then Ok (plain INTEGER)
  else if type =? INT8OID then Ok (plain BIGINT)
  else if (type =? BPCHAROID) || (type =? TEXTOID) || (type =? VARCHAROID)
  then Ok (plain VARCHAR)
  else if type =? DATEOID then Ok (plain DATE)
  else if type =? TIMESTAMPOID then Ok (plain TIMESTAMP)
  else if type =? FLOAT8OID then Ok (plain DOUBLE)
  else if type =? NUMERICOID then
    let precision := numeric_typmod_precision typmod in
    let scale := numeric_typmod_scale typmod in
    if (typmod =? -1) || (precision <? 0) || (scale <? 0) || (precision >? 38)
    then Ok (mkLogicalType DOUBLE (Some NumericAsDouble))
    else Ok (mkLogicalType DECIMAL (Some (DecimalTypeInfo precision scale)))
  else Err (UnsupportedPostgresType type).

(** The bit layout the type modifier is documented to have: the field of
    [n] bits that starts at bit [lo], and the signed reading of an [n]-bit
    field. *)
Definition bit_field (x lo n : Z) : Z := (x / 2 ^ lo) mod 2 ^ n.

Definition sign_extend (n f : Z) : Z :=
  if f <? 2 ^ (n - 1) then f else f - 2 ^ n.

(* ================================================================== *)
(** * Host objects: attributes, slots, heap, values and vectors *)
(* ================================================================== *)

(** [Form_pg_attribute]: the fields this code reads or writes.
    [attalign] is the alignment character code ('c', 's', 'i', 'd'). *)
Record Form_pg_attribute : Type := mkAttr {
  atttypid : Z;
  attlen : Z;
  attbyval : bool;
  attalign : Z;
  attcacheoff : Z
}.

(** Update of one array element.  Writing past the end of a C array is
    not a defined operation: callers check the index first. *)
Fixpoint list_set {A : Type} (l : list A) (i : nat) (x : A) : list A :=
  match l, i with
  | [], _ => []
  | _ :: t, O => x :: t
  | h :: t, S j => h :: list_set t j x
  end.

Definition array_get {A : Type} (l : list A) (i : Z) : outcome A :=
  if i <? 0 then Err UndefinedBehaviour
  else match nth_error l (Z.to_nat i) with
       | Some x => Ok x
       | None => Err UndefinedBehaviour
       end.

Definition array_set {A : Type} (l : list A) (i : Z) (x : A)
  : outcome (list A) :=
  if (0 <=? i) && (i <? Z.of_nat (length l))
  then Ok (list_set l (Z.to_nat i) x)
  else Err UndefinedBehaviour.

(** A numeric value unpacked into sign, weight, display scale and base
    10000 digit groups ([NumericVar]). *)
Record NumericVar : Type := mkNumericVar {
  ndigits : Z;
  weight : Z;
  sign : Z;
  dscale : Z;
  digits : list Z
}.

(** Objects behind pointer datums: a varlena payload (its bytes without
    the length header) or a stored numeric, already unpacked by
    [FromNumeric]. *)
Inductive HeapObject : Type :=
| TextObject (payload : list Z)
| NumericObject (n : NumericVar).

(** The memory the converters allocate in and read from: objects keyed by
    address.  [palloc0] returns an address not used before. *)
Definition Heap := list (Z * HeapObject).

Fixpoint heap_find (h : Heap) (addr : Z) : option HeapObject :=
  match h with
  | [] => None
  | (a, o) :: t => if a =? addr then Some o else heap_find t addr
  end.

Definition heap_fresh (h : Heap) : Z :=
  8 * (1 + fold_right (fun e m => Z.max (fst e) m) 0 h).

Definition palloc (h : Heap) (o : HeapObject) : Z * Heap :=
  let a := heap_fresh h in (a, (a, o) :: h).

(** [TupleTableSlot]: the descriptor's attributes and the value array. *)
Record TupleTableSlot : Type := mkSlot {
  tts_attrs : list Form_pg_attribute;
  tts_values : list Datum
}.

(** A value of the columnar engine.  Doubles are carried as their 64-bit
    patterns: the converters only copy them. *)
Inductive DuckValue : Type :=
| VBoolean (b : bool)
| VTinyInt (z : Z)
| VSmallInt (z : Z)
| VInteger (z : Z)
| VBigInt (z : Z)
| VVarchar (s : list Z)
| VDate (days : Z)
| VTimestamp (micros : Z)
| VDouble (bits : Z).

(** [Value::GetValue<T>] for the reads the converter makes.  A value of
    an integer kind is read at any integer width that holds it; a read
    across kinds is a cast of the engine and is not modelled: it is the
    [Err] branch.  The one cast the converter relies on, a timestamp
    read at the time-of-day type, is [GetValue_dtime] below. *)
Definition GetValue_bool (v : DuckValue) : outcome bool :=
  match v with
  | VBoolean b => Ok b
  | VTinyInt z | VSmallInt z | VInteger z | VBigInt z => Ok (negb (z =? 0))
  | _ => Err ConversionError
  end.

Definition GetValue_int (w : Z) (v : DuckValue) : outcome Z :=
  match v with
  | VBoolean b => Ok (if b then 1 else 0)
  | VTinyInt z | VSmallInt z | VInteger z | VBigInt z =>
      if (- 2 ^ (w - 1) <=? z) && (z <? 2 ^ (w - 1)) then Ok z
      else Err OutOfRange
  | _ => Err ConversionError
  end.

Definition GetValue_string (v : DuckValue) : outcome (list Z) :=
  match v with
  | VVarchar s => Ok s
  | _ => Err ConversionError
  end.

(** [GetValue<date_t>]: the day count of a DATE value. *)
Definition GetValue_date (v : DuckValue) : outcome Z :=
  match v with
  | VDate days => Ok days
  | _ => Err ConversionError
  end.

(** [GetValue<dtime_t>].  [dtime_t] is the engine's time-of-day type,
    and the converter reads a TIMESTAMP value at it: a read across
    kinds, which is a cast of the engine.  The engine is not among the
    sources, so the read is taken as given: the converter is defined
    over any [Engine]; the result is the [micros] field of the
    [dtime_t] the engine hands back. *)
Class Engine : Type := mkEngine {
  GetValue_dtime : DuckValue -> outcome Z
}.

(** The cast as the engine makes it: a timestamp is cut down to its
    time of day, the microseconds since midnight
    ([Timestamp::GetTime]); the two infinite timestamps have no time
    of day and the cast fails on them. *)
Definition MICROS_PER_DAY : Z := 86400000000.

Definition timestamp_time_of_day (v : DuckValue) : outcome Z :=
  match v with
  | VTimestamp micros =>
      if (micros =? 2 ^ 63 - 1) || (micros =? - (2 ^ 63 - 1))
      then Err ConversionError
      else Ok (micros mod MICROS_PER_DAY)
  | _ => Err ConversionError
  end.

#[global] Instance duckdb_engine : Engine :=
  {| GetValue_dtime := timestamp_time_of_day |}.

Definition GetValue_double (v : DuckValue) : outcome Z :=
  match v with
  | VDouble bits => Ok bits
  | _ => Err ConversionError
  end.

(** One element of a flat vector's data array. *)
Inductive Cell : Type :=
| CellEmpty
| CellBool (b : bool)
| CellInt8 (z : Z)
| CellInt16 (z : Z)
| CellInt32 (z : Z)
| CellInt64 (z : Z)
| CellString (s : list Z)
| CellDate (days : Z)
| CellTime (micros : Z)
| CellDouble (bits : Z).

(** A flat vector: logical type, data array, validity mask. *)
Record Vector : Type := mkVector {
  vec_type : LogicalType;
  vec_data : list Cell;
  vec_validity : list bool
}.

(** [Append<T>]: [data[offset] = value]. *)
Definition Append (vec : Vector) (c : Cell) (offset : Z) : outcome Vector :=
  d <- array_set (vec_data vec) offset c ;;
  Ok (mkVector (vec_type vec) d (vec_validity vec)).

(** [Validity(result).SetInvalid(offset)]. *)
Definition SetInvalid (vec : Vector) (offset : Z) : outcome Vector :=
  m <- array_set (vec_validity vec) offset false ;;
  Ok (mkVector (vec_type vec) (vec_data vec) m).

(** [AppendString]: the varlena behind the datum is copied into the
    vector's own string storage. *)
Definition AppendString (h : Heap) (vec : Vector) (value : Datum)
  (offset : Z) : outcome Vector :=
  match heap_find h value with
  | Some (TextObject s) => Append vec (CellString s) offset
  | _ => Err UndefinedBehaviour
  end.

(** [FromNumeric(DatumGetNumeric(value))]. *)
Definition FromNumeric (h : Heap) (value : Datum) : outcome NumericVar :=
  match heap_find h value with
  | Some (NumericObject n) => Ok n
  | _ => Err UndefinedBehaviour
  end.

(* ================================================================== *)
(** * Decimal codec *)
(* ================================================================== *)

(** The constants of the host's numeric format: the base of a digit
    group, the decimal digits a group holds, and the two sign codes
    (0x0000 and 0x4000). *)
Definition NBASE : Z := 10000.
Definition DEC_DIGITS : Z := 4.
Definition NUMERIC_POS : Z := 0.
Definition NUMERIC_NEG : Z := 16384.

Definition NumericIsNegative (numeric : NumericVar) : bool :=
  sign numeric =? NUMERIC_NEG.

(** The arithmetic of the destination type [T] of [ConvertDecimal]: the
    conversion from a C [int], [+], [*], [/] and unary minus. *)
Record Arith (T : Type) : Type := mkArith {
  of_int : Z -> T;
  t_add : T -> T -> T;
  t_mul : T -> T -> T;
  t_div : T -> T -> outcome T;
  t_neg : T -> T
}.
Arguments of_int {T} _ _.
Arguments t_add {T} _ _ _.
Arguments t_mul {T} _ _ _.
Arguments t_div {T} _ _ _.
Arguments t_neg {T} _ _.

(** The conversion policy [OP]: its power-of-ten helper, which takes an
    [idx_t], and its finalization, both delivered at type [T]. *)
Record DecimalConversion (T : Type) : Type := mkDecimalConversion {
  GetPowerOfTen : Z -> outcome T;
  Finalize : NumericVar -> T -> outcome T
}.
Arguments GetPowerOfTen {T} _ _.
Arguments Finalize {T} _ _ _.

(** A signed integer of [w] bits as destination type. *)
Definition IntArith (w : Z) : Arith Z := {|
  of_int := fun z => wrap_signed w z;
  t_add := fun a b => wrap_signed w (a + b);
  t_mul := fun a b => wrap_signed w (a * b);
  t_div := fun a b =>
    if b =? 0 then Err UndefinedBehaviour else Ok (wrap_signed w (Z.quot a b));
  t_neg := fun a => wrap_signed w (- a)
|}.

(** Modelled from the spec: the fixed-width integer policy
    [DecimalConversionInteger] is declared in [quack/types/decimal.hpp],
    which is not among the sources.  Its power-of-ten helper yields
    [10^index] and refuses an index of 19 decimal digits or more; its
    finalization hands the sum on unchanged. *)
Definition DecimalConversionInteger (w : Z) : DecimalConversion Z := {|
  GetPowerOfTen := fun index =>
    if index >=? 19 then Err OutOfRange else Ok (wrap_signed w (10 ^ index));
  Finalize := fun _ r => Ok r
|}.

Section ConvertDecimal.

Context {T : Type} (A : Arith T) (OP : DecimalConversion T).
Variable numeric : NumericVar.

(** The loop [for (; digit_index <= weight; digit_index++)], with [n]
    iterations left. *)
Fixpoint integral_loop (n : nat) (digit_index : Z) (integral_part : T)
  : outcome T :=
  match n with
  | O => Ok integral_part
  | S n' =>
      let integral_part := t_mul A integral_part (of_int A NBASE) in
      integral_part <-
        (if digit_index <? uint64 (ndigits numeric)
         then d <- array_get (digits numeric) digit_index ;;
              Ok (t_add A integral_part (of_int A d))
         else Ok integral_part) ;;
      integral_loop n' (digit_index + 1) integral_part
  end.

(** The body of the last iteration of the fractional loop. *)
Definition compensate (fractional_power_correction : Z)
  (fractional_part : T) (digit : Z) : outcome T :=
  let final_base := of_int A NBASE in
  let final_digit := of_int A digit in
  if fractional_power_correction >=? 0 then
    compensation <- GetPowerOfTen OP (uint64 fractional_power_correction) ;;
    final_base <- t_div A final_base compensation ;;
    final_digit <- t_div A final_digit compensation ;;
    Ok (t_add A (t_mul A fractional_part final_base) final_digit)
  else
    compensation <-
      GetPowerOfTen OP (uint64 (int32 (- fractional_power_correction))) ;;
    let final_base := t_mul A final_base compensation in
    let final_digit := t_mul A final_digit compensation in
    Ok (t_add A (t_mul A fractional_part final_base) final_digit).

(** The loop [for (i = max(0, weight + 1); i < ndigits; i++)], with [n]
    iterations left. *)
Fixpoint fractional_loop (fractional_power_correction : Z) (n : nat)
  (i : Z) (fractional_part : T) : outcome T :=
  match n with
  | O => Ok fractional_part
  | S n' =>
      d <- array_get (digits numeric) i ;;
      fractional_part <-
        (if int32 (i + 1) <? ndigits numeric
         then Ok (t_add A (t_mul A fractional_part (of_int A NBASE))
                        (of_int A d))
         else compensate fractional_power_correction fractional_part d) ;;
      fractional_loop fractional_power_correction n' (i + 1)
                      fractional_part
  end.

Definition ConvertDecimal : outcome T :=
  scale_POWER <- GetPowerOfTen OP (uint64 (dscale numeric)) ;;
  if ndigits numeric =? 0 then Ok (of_int A 0)
  else
    integral_part <-
      (if weight numeric >=? 0 then
         d0 <- array_get (digits numeric) 0 ;;
         integral_part <-
           integral_loop (Z.to_nat (weight numeric)) 1 (of_int A d0) ;;
         Ok (t_mul A integral_part scale_POWER)
       else Ok (of_int A 0)) ;;
    fractional_part <-
      (if ndigits numeric >? int32 (weight numeric + 1) then
         let fractional_power :=
           int32 (int32 (int32 (ndigits numeric - weight numeric) - 1)
                  * DEC_DIGITS) in
         let fractional_power_correction :=
           int32 (fractional_power - dscale numeric) in
         if fractional_power_correction <? 20 then
           let start := Z.max 0 (int32 (weight numeric + 1)) in
           fractional_loop fractional_power_correction
             (Z.to_nat (ndigits numeric - start)) start (of_int A 0)
         else Err AssertFailure
       else Ok (of_int A 0)) ;;
    base_res <- Finalize OP numeric (t_add A integral_part fractional_part) ;;
    Ok (if NumericIsNegative numeric then t_neg A base_res else base_res).

End ConvertDecimal.

(* ================================================================== *)
(** * Scalar value converter *)
(* ================================================================== *)

(** DuckDB dates start at 1970-01-01, PostgreSQL's at 2000-01-01. *)
Definition QUACK_DUCK_DATE_OFFSET : Z := 10957.
Definition USECS_PER_DAY : Z := 86400000000.
Definition QUACK_DUCK_TIMESTAMP_OFFSET : Z := 10957 * USECS_PER_DAY.

(** The floating-point side of the decimal codec: the arithmetic of
    [double] (on 64-bit patterns) and the policy
    [DecimalConversionDouble] of [quack/types/decimal.hpp].  Both are
    taken as given. *)
Record DoubleHost : Type := mkDoubleHost {
  double_arith : Arith Z;
  DecimalConversionDouble : DecimalConversion Z
}.

Definition set_attr_float8 (a : Form_pg_attribute) : Form_pg_attribute :=
  mkAttr FLOAT8OID (attlen a) true (attalign a) (attcacheoff a).

Definition store_value (slot : TupleTableSlot) (col : Z) (d : Datum)
  : outcome TupleTableSlot :=
  vs <- array_set (tts_values slot) col d ;;
  Ok (mkSlot (tts_attrs slot) vs).

(** Column to row.  The heap is threaded through: text is copied into
    freshly allocated storage. *)
Definition ConvertDuckToPostgresValue {E : Engine} (h : Heap)
  (slot : TupleTableSlot) (value : DuckValue) (col : Z)
  : outcome (Heap * TupleTableSlot) :=
  att <- array_get (tts_attrs slot) col ;;
  let oid := atttypid att in
  if oid =? BOOLOID then
    b <- GetValue_bool value ;;
    s <- store_value slot col (if b then 1 else 0) ;; Ok (h, s)
  else if oid =? CHAROID then
    z <- GetValue_int 8 value ;;
    s <- store_value slot col (to_Datum z) ;; Ok (h, s)
  else if oid =? INT2OID then
    z <- GetValue_int 16 value ;;
    s <- store_value slot col (to_Datum z) ;; Ok (h, s)
  else if oid =? INT4OID then
    z <- GetValue_int 32 value ;;
    s <- store_value slot col (to_Datum z) ;; Ok (h, s)
  else if oid =? INT8OID then
    z <- GetValue_int 64 value ;;
    s <- store_value slot col (to_Datum z) ;; Ok (h, s)
  else if (oid =? BPCHAROID) || (oid =? TEXTOID) || (oid =? VARCHAROID) then
    str <- GetValue_string value ;;
    let (result, h') := palloc h (TextObject str) in
    s <- store_value slot col (to_Datum result) ;; Ok (h', s)
  else if oid =? DATEOID then
    days <- GetValue_date value ;;
    s <- store_value slot col (to_Datum (int32 (days - QUACK_DUCK_DATE_OFFSET))) ;;
    Ok (h, s)
  else if oid =? TIMESTAMPOID then
    micros <- GetValue_dtime value ;;
    s <- store_value slot col
           (to_Datum (int64 (micros - QUACK_DUCK_TIMESTAMP_OFFSET))) ;;
    Ok (h, s)
  else if oid =? FLOAT8OID then
    result_double <- GetValue_double value ;;
    attrs <- array_set (tts_attrs slot) col (set_attr_float8 att) ;;
    s <- store_value (mkSlot attrs (tts_values slot)) col
           (to_Datum result_double) ;;
    Ok (h, s)
  else if oid =? NUMERICOID then Err (UnsupportedPostgresType oid)
  else Err (UnsupportedPostgresType oid).

(** Row to column. *)
Definition ConvertPostgresToDuckValue (fp : DoubleHost) (h : Heap)
  (value : Datum) (result : Vector) (offset : Z) : outcome Vector :=
  let type := vec_type result in
  match type_id type with
  | BOOLEAN => Append result (CellBool (negb (value =? 0))) offset
  | TINYINT => Append result (CellInt8 (int8 value)) offset
  | SMALLINT => Append result (CellInt16 (int16 value)) offset
  | INTEGER => Append result (CellInt32 (int32 value)) offset
  | BIGINT => Append result (CellInt64 (int64 value)) offset
  | VARCHAR => AppendString h result value offset
  | DATE =>
      Append result
        (CellDate (int32 (uint64 (value + QUACK_DUCK_DATE_OFFSET)))) offset
  | TIMESTAMP =>
      Append result
        (CellTime (int64 (uint64 (value + QUACK_DUCK_TIMESTAMP_OFFSET))))
        offset
  | DOUBLE =>
      match aux_info type with
      | Some NumericAsDouble =>
          numeric_var <- FromNumeric h value ;;
          double_val <-
            ConvertDecimal (double_arith fp) (DecimalConversionDouble fp)
                           numeric_var ;;
          Append result (CellDouble double_val) offset
      | _ => Append result (CellDouble value) offset
      end
  | DECIMAL => Err DecimalTypeError
  | OtherLogicalType _ => Err UnsupportedDuckType
  end.

(** The value of the engine that a cell of a vector is read back as. *)
Definition cell_value (c : Cell) : option DuckValue :=
  match c with
  | CellEmpty => None
  | CellBool b => Some (VBoolean b)
  | CellInt8 z => Some (VTinyInt z)
  | CellInt16 z => Some (VSmallInt z)
  | CellInt32 z => Some (VInteger z)
  | CellInt64 z => Some (VBigInt z)
  | CellString s => Some (VVarchar s)
  | CellDate days => Some (VDate days)
  | CellTime micros => Some (VTimestamp micros)
  | CellDouble bits => Some (VDouble bits)
  end.

(** The cell of a vector at a row, and the datum of a slot at a column. *)
Definition cell_at (vec : Vector) (offset : Z) : option Cell :=
  nth_error (vec_data vec) (Z.to_nat offset).

Definition datum_at (slot : TupleTableSlot) (col : Z) : option Datum :=
  nth_error (tts_values slot) (Z.to_nat col).

(* ================================================================== *)
(** * Offset-cache tuple reader *)
(* ================================================================== *)

(** A pointer into the tuple: its address and the bytes readable from
    there on. *)
Definition Pointer : Type := (Z * list Z)%type.

(** The tuple-layout macros of the host ([access/tupmacs.h]) that the
    reader calls.  They are taken as given; [pg_tupmacs] below is the
    little-endian 64-bit instance. *)
Record TupleMacros : Type := mkTupleMacros {
  att_align_nominal : Z -> Z -> Z;
  att_align_pointer : Z -> Z -> Z -> Pointer -> outcome Z;
  fetchatt : Form_pg_attribute -> Pointer -> outcome Datum;
  att_addlength_pointer : Z -> Z -> Pointer -> outcome Z
}.

Record HeapTupleHeaderData : Type := mkHeapTupleHeader {
  t_infomask2 : Z;
  t_infomask : Z;
  t_hoff : Z;
  t_bits : list Z
}.

(** [HeapTupleData]: the header, the address of the tuple and the bytes
    that follow the header (from [tup + t_hoff] on). *)
Record HeapTupleData : Type := mkHeapTuple {
  t_data : HeapTupleHeaderData;
  t_addr : Z;
  t_payload : list Z
}.

Record TupleDesc : Type := mkTupleDesc {
  natts : Z;
  attrs : list Form_pg_attribute
}.

(** The descriptor with its attribute array replaced (the loop writes
    the cached offsets in place). *)
Definition with_attrs (d : TupleDesc) (ats : list Form_pg_attribute)
  : TupleDesc :=
  mkTupleDesc (natts d) ats.

Definition HEAP_HASNULL : Z := 1.
Definition HEAP_NATTS_MASK : Z := 2047.

Definition HeapTupleHasNulls (tuple : HeapTupleData) : bool :=
  negb (Z.land (t_infomask (t_data tuple)) HEAP_HASNULL =? 0).

Definition HeapTupleHeaderGetNatts (tup : HeapTupleHeaderData) : Z :=
  Z.land (t_infomask2 tup) HEAP_NATTS_MASK.

(** [att_isnull(ATT, BITS)]: the bit of the attribute is clear. *)
Definition att_isnull (ATT : Z) (BITS : list Z) : outcome bool :=
  b <- array_get BITS (Z.shiftr ATT 3) ;;
  Ok (Z.land b (Z.shiftl 1 (Z.land ATT 7)) =? 0).

Definition set_attcacheoff (a : Form_pg_attribute) (off : Z)
  : Form_pg_attribute :=
  mkAttr (atttypid a) (attlen a) (attbyval a) (attalign a) off.

Record HeapTuplePageReadState : Type := mkReadState {
  m_slow : bool;
  m_nvalid : Z;
  m_offset : Z
}.

(** The variables the attribute loop updates. *)
Record FetchLoopState : Type := mkLoop {
  l_off : Z;
  l_slow : bool;
  l_value : Datum;
  l_isNull : bool;
  l_attrs : list Form_pg_attribute
}.

Section TupleReader.

Variable M : TupleMacros.
Variable tuple : HeapTupleData.

Definition tp_at (off : Z) : Pointer :=
  (t_addr tuple + t_hoff (t_data tuple) + off,
   skipn (Z.to_nat off) (t_payload tuple)).

(** One iteration of the attribute loop. *)
Definition fetch_attribute (attnum : Z) (s : FetchLoopState)
  : outcome FetchLoopState :=
  thisatt <- array_get (l_attrs s) attnum ;;
  null <- (if HeapTupleHasNulls tuple
           then att_isnull attnum (t_bits (t_data tuple))
           else Ok false) ;;
  if null then
    Ok (mkLoop (l_off s) true 0 true (l_attrs s))
  else
    let off := l_off s in
    let slow := l_slow s in
    located <-
      (if negb slow && (attcacheoff thisatt >=? 0) then
         Ok (uint32 (attcacheoff thisatt), slow, l_attrs s)
       else if attlen thisatt =? -1 then
         if negb slow
            && (off =? att_align_nominal M off (attalign thisatt))
         then
           ats <- array_set (l_attrs s) attnum
                    (set_attcacheoff thisatt (int32 off)) ;;
           Ok (off, slow, ats)
         else
           o <- att_align_pointer M off (attalign thisatt) (-1)
                  (tp_at off) ;;
           Ok (uint32 o, true, l_attrs s)
       else
         let off := uint32 (att_align_nominal M off (attalign thisatt)) in
         if negb slow then
           ats <- array_set (l_attrs s) attnum
                    (set_attcacheoff thisatt (int32 off)) ;;
           Ok (off, slow, ats)
         else Ok (off, slow, l_attrs s)) ;;
    let '(off, slow, ats) := located in
    value <- fetchatt M thisatt (tp_at off) ;;
    o <- att_addlength_pointer M off (attlen thisatt) (tp_at off) ;;
    let off := uint32 o in
    let slow := if attlen thisatt <=? 0 then true else slow in
    Ok (mkLoop off slow value false ats).

(** The loop [for (; attnum < natts; attnum++)], with [n] iterations
    left. *)
Fixpoint fetch_loop (n : nat) (attnum : Z) (s : FetchLoopState)
  : outcome FetchLoopState :=
  match n with
  | O => Ok s
  | S n' =>
      s' <- fetch_attribute attnum s ;;
      fetch_loop n' (attnum + 1) s'
  end.

(** [isNull] is the caller's flag on entry; the datum, the flag, the
    read state and the descriptor (whose offset cache the loop writes)
    are returned. *)
Definition HeapTupleFetchNextDatumValue (tupleDesc : TupleDesc)
  (heapTupleReadState : HeapTuplePageReadState) (natts : Z)
  (isNull : bool)
  : outcome (Datum * bool * HeapTuplePageReadState * TupleDesc) :=
  let natts := Z.min (HeapTupleHeaderGetNatts (t_data tuple)) natts in
  let attnum := m_nvalid heapTupleReadState in
  let '(off, slow) :=
    if attnum =? 0 then (0, false)
    else (m_offset heapTupleReadState, m_slow heapTupleReadState) in
  s <- fetch_loop (Z.to_nat (natts - attnum)) attnum
         (mkLoop off slow 0 isNull (attrs tupleDesc)) ;;
  let attnum := Z.max attnum natts in
  Ok (l_value s, l_isNull s,
      mkReadState (l_slow s) attnum (l_off s),
      with_attrs tupleDesc (l_attrs s)).

End TupleReader.

(** A data chunk: one vector per column. *)
Definition DataChunk := list Vector.

Section InsertTuple.

Variable M : TupleMacros.
Variable fp : DoubleHost.
Variable h : Heap.
Variable slot : HeapTupleData.
Variable offset : Z.

(** The body of the column loop of [InsertTupleIntoChunk]. *)
Definition insert_column (i : Z)
  (acc : DataChunk * TupleDesc * HeapTuplePageReadState)
  : outcome (DataChunk * TupleDesc * HeapTuplePageReadState) :=
  let '(output, tupleDesc, heapTupleReadState) := acc in
  result <- array_get output i ;;
  let isNull := false in
  fetched <- HeapTupleFetchNextDatumValue M slot tupleDesc
               heapTupleReadState (i + 1) isNull ;;
  let '(value, isNull, heapTupleReadState, tupleDesc) := fetched in
  result <- (if isNull then SetInvalid result offset
             else ConvertPostgresToDuckValue fp h value result offset) ;;
  output <- array_set output i result ;;
  Ok (output, tupleDesc, heapTupleReadState).

Fixpoint insert_loop (n : nat) (i : Z)
  (acc : DataChunk * TupleDesc * HeapTuplePageReadState)
  : outcome (DataChunk * TupleDesc * HeapTuplePageReadState) :=
  match n with
  | O => Ok acc
  | S n' =>
      acc' <- insert_column i acc ;;
      insert_loop n' (i + 1) acc'
  end.

Definition InsertTupleIntoChunk (output : DataChunk) (tupleDesc : TupleDesc)
  : outcome (DataChunk * TupleDesc) :=
  r <- insert_loop (Z.to_nat (natts tupleDesc)) 0
         (output, tupleDesc, mkReadState false 0 0) ;;
  Ok (fst (fst r), snd (fst r)).

End InsertTuple.

(** ** The host's layout macros, little-endian, 64-bit *)

Module Tupmacs.

Definition TYPALIGN_CHAR : Z := 99.
Definition TYPALIGN_DOUBLE : Z := 100.
Definition TYPALIGN_INT : Z := 105.
Definition TYPALIGN_SHORT : Z := 115.

(** [TYPEALIGN(ALIGNVAL, LEN)] on [uintptr_t]. *)
Definition TYPEALIGN (ALIGNVAL LEN : Z) : Z :=
  Z.land (uint64 (LEN + (ALIGNVAL - 1)))
         (uint64 (Z.lnot (ALIGNVAL - 1))).

Definition att_align_nominal (cur_offset attalign : Z) : Z :=
  if attalign =? TYPALIGN_INT then TYPEALIGN 4 cur_offset
  else if attalign =? TYPALIGN_CHAR then cur_offset
  else if attalign =? TYPALIGN_DOUBLE then TYPEALIGN 8 cur_offset
  else TYPEALIGN 2 cur_offset.

Definition byte_at (p : Pointer) (i : Z) : outcome Z :=
  array_get (snd p) i.

(** A little-endian unsigned integer of [n] bytes at the pointer. *)
Fixpoint read_le (p : Pointer) (n : nat) (i : Z) : outcome Z :=
  match n with
  | O => Ok 0
  | S n' =>
      b <- byte_at p i ;;
      r <- read_le p n' (i + 1) ;;
      Ok (b + 256 * r)
  end.

Definition att_align_pointer (cur_offset attalign attlen : Z)
  (attptr : Pointer) : outcome Z :=
  if attlen =? -1 then
    b <- byte_at attptr 0 ;;
    if negb (b =? 0) then Ok cur_offset
    else Ok (att_align_nominal cur_offset attalign)
  else Ok (att_align_nominal cur_offset attalign).

Definition fetchatt (A : Form_pg_attribute) (T : Pointer) : outcome Datum :=
  if attbyval A then
    if attlen A =? 8 then read_le T 8 0
    else if attlen A =? 4 then
      v <- read_le T 4 0 ;; Ok (to_Datum (int32 v))
    else if attlen A =? 2 then
      v <- read_le T 2 0 ;; Ok (to_Datum (int16 v))
    else
      v <- read_le T 1 0 ;; Ok (to_Datum (int8 v))
  else Ok (to_Datum (fst T)).

(** [VARSIZE_ANY]: external TOAST pointer, short header or 4-byte
    header. *)
Definition VARSIZE_ANY (PTR : Pointer) : outcome Z :=
  b <- byte_at PTR 0 ;;
  if b =? 1 then
    tag <- byte_at PTR 1 ;;
    Ok (2 + (if tag =? 18 then 16 else 8))
  else if Z.land b 1 =? 1 then Ok (Z.land (Z.shiftr b 1) 127)
  else
    hdr <- read_le PTR 4 0 ;;
    Ok (Z.land (Z.shiftr hdr 2) 1073741823).

(** [strlen]: the bytes before the first zero byte. *)
Fixpoint strlen (bytes : list Z) : outcome Z :=
  match bytes with
  | [] => Err UndefinedBehaviour
  | b :: t => if b =? 0 then Ok 0 else n <- strlen t ;; Ok (n + 1)
  end.

Definition att_addlength_pointer (cur_offset attlen : Z)
  (attptr : Pointer) : outcome Z :=
  if attlen >? 0 then Ok (cur_offset + attlen)
  else if attlen =? -1 then
    n <- VARSIZE_ANY attptr ;; Ok (cur_offset + n)
  else n <- strlen (snd attptr) ;; Ok (cur_offset + (n + 1)).

Definition pg_tupmacs : TupleMacros :=
  mkTupleMacros att_align_nominal att_align_pointer fetchatt
                att_addlength_pointer.

End Tupmacs.

(* ================================================================== *)
(** * Filter evaluator *)
(* ================================================================== *)

(** Modelled from the spec: the two epoch offsets of
    [pgduckdb/pgduckdb_types.hpp], which is not among the sources: 10957
    days, and 10957 x 86,400,000,000 microseconds. *)
Definition PGDUCKDB_DUCK_DATE_OFFSET : Z := 10957.
Definition PGDUCKDB_DUCK_TIMESTAMP_OFFSET : Z := 10957 * 86400000000.

(** The comparison operators [OP] the evaluator is instantiated with. *)
Inductive ComparisonOp : Type :=
| Equals | LessThan | LessThanEquals | GreaterThan | GreaterThanEquals.

(** [OP::Operation] on integers (and on [bool], read as 0 or 1). *)
Definition int_operation (OP : ComparisonOp) (left right : Z) : bool :=
  match OP with
  | Equals => left =? right
  | LessThan => left <? right
  | LessThanEquals => left <=? right
  | GreaterThan => left >? right
  | GreaterThanEquals => left >=? right
  end.

(** The physical types [T] of [TemplatedFilterOperation]. *)
Inductive PhysicalType : Type :=
| T_bool | T_uint8 | T_int16 | T_int32 | T_int64 | T_float | T_double.

(** The floating-point side of the evaluator, taken as given: the
    conversion of an unsigned 64-bit integer to [float] and [double]
    (as bit patterns) and [OP::Operation] at both types. *)
Record FloatCompare : Type := mkFloatCompare {
  uint64_to_float : Z -> Z;
  uint64_to_double : Z -> Z;
  float_operation : ComparisonOp -> Z -> Z -> bool;
  double_operation : ComparisonOp -> Z -> Z -> bool
}.

(** The bytes of the union inside a [duckdb::Value], as a little-endian
    64-bit word; [GetValueUnsafe<T>] reads its member of type [T]. *)
Definition value_union (v : DuckValue) : Z :=
  match v with
  | VBoolean b => if b then 1 else 0
  | VTinyInt z => wrap_unsigned 8 z
  | VSmallInt z => wrap_unsigned 16 z
  | VInteger z => wrap_unsigned 32 z
  | VBigInt z => wrap_unsigned 64 z
  | VVarchar _ => 0
  | VDate days => wrap_unsigned 32 days
  | VTimestamp micros => wrap_unsigned 64 micros
  | VDouble bits => wrap_unsigned 64 bits
  end.

(** [(T) value] for a datum (an unsigned 64-bit integer). *)
Definition cast_datum (F : FloatCompare) (T : PhysicalType) (value : Datum)
  : Z :=
  match T with
  | T_bool => if value =? 0 then 0 else 1
  | T_uint8 => wrap_unsigned 8 value
  | T_int16 => wrap_signed 16 value
  | T_int32 => wrap_signed 32 value
  | T_int64 => wrap_signed 64 value
  | T_float => uint64_to_float F value
  | T_double => uint64_to_double F value
  end.

Definition GetValueUnsafe (T : PhysicalType) (constant : DuckValue) : Z :=
  let u := value_union constant in
  match T with
  | T_bool => if wrap_unsigned 8 u =? 0 then 0 else 1
  | T_uint8 => wrap_unsigned 8 u
  | T_int16 => wrap_signed 16 u
  | T_int32 => wrap_signed 32 u
  | T_int64 => wrap_signed 64 u
  | T_float => wrap_unsigned 32 u
  | T_double => wrap_unsigned 64 u
  end.

Definition operation (F : FloatCompare) (T : PhysicalType)
  (OP : ComparisonOp) (left right : Z) : bool :=
  match T with
  | T_float => float_operation F OP left right
  | T_double => double_operation F OP left right
  | _ => int_operation OP left right
  end.

Definition TemplatedFilterOperation (F : FloatCompare) (T : PhysicalType)
  (OP : ComparisonOp) (value : Datum) (constant : DuckValue) : bool :=
  operation F T OP (cast_datum F T value) (GetValueUnsafe T constant).

Definition FilterOperationSwitch (F : FloatCompare) (OP : ComparisonOp)
  (value : Datum) (constant : DuckValue) (type_oid : Z) : outcome bool :=
  if type_oid =? BOOLOID then
    Ok (TemplatedFilterOperation F T_bool OP value constant)
  else if type_oid =? CHAROID then
    Ok (TemplatedFilterOperation F T_uint8 OP value constant)
  else if type_oid =? INT2OID then
    Ok (TemplatedFilterOperation F T_int16 OP value constant)
  else if type_oid =? INT4OID then
    Ok (TemplatedFilterOperation F T_int32 OP value constant)
  else if type_oid =? INT8OID then
    Ok (TemplatedFilterOperation F T_int64 OP value constant)
  else if type_oid =? FLOAT4OID then
    Ok (TemplatedFilterOperation F T_float OP value constant)
  else if type_oid =? FLOAT8OID then
    Ok (TemplatedFilterOperation F T_double OP value constant)
  else if type_oid =? DATEOID then
    let date_datum :=
      to_Datum (int32 (uint64 (value + PGDUCKDB_DUCK_DATE_OFFSET))) in
    Ok (TemplatedFilterOperation F T_int32 OP date_datum constant)
  else if type_oid =? TIMESTAMPOID then
    let timestamp_datum :=
      to_Datum (int64 (uint64 (value + PGDUCKDB_DUCK_TIMESTAMP_OFFSET))) in
    Ok (TemplatedFilterOperation F T_int64 OP timestamp_datum constant)
  else Err (UnsupportedFilterType type_oid).

Inductive ExpressionType : Type :=
| COMPARE_EQUAL
| COMPARE_LESSTHAN
| COMPARE_LESSTHANOREQUALTO
| COMPARE_GREATERTHAN
| COMPARE_GREATERTHANOREQUALTO
| OtherExpressionType (tag : Z).

(** A filter node; [OtherFilter] stands for the filter types this
    evaluator has no case for. *)
Inductive TableFilter : Type :=
| ConjunctionAndFilter (child_filters : list TableFilter)
| ConstantFilter (comparison_type : ExpressionType) (constant : DuckValue)
| IsNotNullFilter
| IsNullFilter
| OtherFilter (tag : Z).

(** One round of the loop over the children of a conjunction:
    [value_filter_result &= ApplyValueFilter(child)]. *)
Definition and_step (eval : TableFilter -> outcome bool)
  (acc : outcome bool) (child_filter : TableFilter) : outcome bool :=
  value_filter_result <- acc ;;
  r <- eval child_filter ;;
  Ok (value_filter_result && r).

Fixpoint ApplyValueFilter (F : FloatCompare) (filter : TableFilter)
  (value : Datum) (is_null : bool) (type_oid : Z) {struct filter}
  : outcome bool :=
  match filter with
  | ConjunctionAndFilter child_filters =>
      fold_left
        (and_step (fun c => ApplyValueFilter F c value is_null type_oid))
        child_filters (Ok true)
  | ConstantFilter comparison_type constant =>
      match comparison_type with
      | COMPARE_EQUAL =>
          FilterOperationSwitch F Equals value constant type_oid
      | COMPARE_LESSTHAN =>
          FilterOperationSwitch F LessThan value constant type_oid
      | COMPARE_LESSTHANOREQUALTO =>
          FilterOperationSwitch F LessThanEquals value constant type_oid
      | COMPARE_GREATERTHAN =>
          FilterOperationSwitch F GreaterThan value constant type_oid
      | COMPARE_GREATERTHANOREQUALTO =>
          FilterOperationSwitch F GreaterThanEquals value constant type_oid
      | OtherExpressionType _ => Err AssertFailure
      end
  | IsNotNullFilter => Ok (eqb is_null false)
  | IsNullFilter => Ok (eqb is_null true)
  | OtherFilter _ => Err AssertFailure
  end.

(* ================================================================== *)
(** * Sample objects *)
(* ================================================================== *)

(** Concrete hosts, vectors, slots and tuples on which the definitions
    are run. *)
Module Sample.

(** A stand-in host whose doubles are 64-bit integers: it serves the
    runs in which floating-point arithmetic is not at stake. *)
Definition host : DoubleHost :=
  mkDoubleHost (IntArith 64) (DecimalConversionInteger 64).

Definition compare : FloatCompare :=
  mkFloatCompare (fun z => z) (fun z => z) int_operation int_operation.

Definition vector (t : LogicalType) : Vector :=
  mkVector t [CellEmpty] [true].

Definition attribute (oid len : Z) (byval : bool) : Form_pg_attribute :=
  mkAttr oid len byval Tupmacs.TYPALIGN_INT (-1).

Definition slot1 (oid len : Z) (byval : bool) : TupleTableSlot :=
  mkSlot [attribute oid len byval] [0].

(** The row [int32 = 7, null, text = "ab"]: a null bitmap with bits 0
    and 2 set, four bytes of integer, a short varlena of two
    characters. *)
Definition desc3 : TupleDesc :=
  mkTupleDesc 3 [attribute INT4OID 4 true; attribute INT4OID 4 true;
                 attribute TEXTOID (-1) false].

Definition tuple3 : HeapTupleData :=
  mkHeapTuple (mkHeapTupleHeader 3 1 24 [5]) 1000 [7; 0; 0; 0; 7; 97; 98].

Definition heap3 : Heap := [(1028, TextObject [97; 98])].

Definition chunk3 : DataChunk :=
  [vector (plain INTEGER); vector (plain INTEGER); vector (plain VARCHAR)].

(** A tuple of three integers, 7, 8 and 9, under a descriptor of five
    integer columns. *)
Definition desc5 : TupleDesc :=
  mkTupleDesc 5 (repeat (attribute INT4OID 4 true) 5).

Definition tuple5 : HeapTupleData :=
  mkHeapTuple (mkHeapTupleHeader 3 0 24 []) 1000
              [7; 0; 0; 0; 8; 0; 0; 0; 9; 0; 0; 0].

Definition chunk5 : DataChunk := repeat (vector (plain INTEGER)) 5.

(** The same descriptor with the offsets of the first three columns
    cached, as a row without nulls leaves it. *)
Definition cached5 : TupleDesc :=
  mkTupleDesc 5
    [set_attcacheoff (attribute INT4OID 4 true) 0;
     set_attcacheoff (attribute INT4OID 4 true) 4;
     set_attcacheoff (attribute INT4OID 4 true) 8;
     attribute INT4OID 4 true; attribute INT4OID 4 true].

(** Numerics: 0.00, -12345678, 0.01, 120000.000 (its trailing zero
    group is not stored) and -0.500000 (its trailing zeros are not
    stored). *)
Definition zero : NumericVar := mkNumericVar 0 0 NUMERIC_POS 2 [].
Definition integer : NumericVar :=
  mkNumericVar 2 1 NUMERIC_NEG 0 [1234; 5678].
Definition fraction : NumericVar := mkNumericVar 1 (-1) NUMERIC_POS 2 [100].
Definition suppressed : NumericVar := mkNumericVar 1 1 NUMERIC_POS 3 [12].
Definition half : NumericVar := mkNumericVar 1 (-1) NUMERIC_NEG 6 [5000].

End Sample.

(* ================================================================== *)
(** * What breaks the predictability of offsets *)
(* ================================================================== *)

(** The fields of an attribute that the reader never writes. *)
Definition att_shape (a : Form_pg_attribute) : Z * Z * bool * Z :=
  (atttypid a, attlen a, attbyval a, attalign a).

(** Attribute [j] of the tuple is null. *)
Definition tuple_att_null (tuple : HeapTupleData) (j : Z) : Prop :=
  HeapTupleHasNulls tuple = true
  /\ att_isnull j (t_bits (t_data tuple)) = Ok true.

(** Attribute [j] of the descriptor is of variable length ([-1]) or of
    another non-positive length. *)
Definition att_not_fixed (ats : list Form_pg_attribute) (j : Z) : Prop :=
  exists a, array_get ats j = Ok a /\ attlen a <= 0.

Definition breaks_offsets (tuple : HeapTupleData)
  (ats : list Form_pg_attribute) (j : Z) : Prop :=
  tuple_att_null tuple j \/ att_not_fixed ats j.

(* ================================================================== *)
(** * What the decimal codec is to compute *)
(* ================================================================== *)

(** The number a digit-group decomposition stands for: the group at
    index [i] has positional weight [NBASE ^ (weight - i)]. *)
Fixpoint digits_value (ds : list Z) (wt : Z) : Q :=
  match ds with
  | [] => 0%Q
  | d :: t =>
      (inject_Z d * Qpower (inject_Z NBASE) wt + digits_value t (wt - 1))%Q
  end.

Definition numeric_value (n : NumericVar) : Q :=
  ((if NumericIsNegative n then inject_Z (-1) else inject_Z 1)
   * digits_value (digits n) (weight n))%Q.

(** Rounding to the nearest integer, halves away from zero. *)
Definition Qround (q : Q) : Z :=
  if Qle_bool 0 q then Qfloor (q + (1 # 2)) else Qceiling (q - (1 # 2)).

(** [round(value x 10^dscale)]. *)
Definition scaled_value (n : NumericVar) : Z :=
  Qround (numeric_value n * Qpower (inject_Z 10) (dscale n)).

(** The invariants of a [NumericVar] of the host: [ndigits] counts the
    digit groups, each group is a base-[NBASE] digit, weight and count
    are within the range of the stored format, and the display scale
    covers the stored fractional digits: what the last group holds beyond
    [dscale] decimal places is zeros. *)
Record numeric_wf (n : NumericVar) : Prop := mk_numeric_wf {
  wf_ndigits : ndigits n = Z.of_nat (length (digits n));
  wf_digits : Forall (fun d => 0 <= d < NBASE) (digits n);
  wf_count : ndigits n < 2 ^ 15;
  wf_weight : - 2 ^ 15 <= weight n < 2 ^ 15;
  wf_dscale : 0 <= dscale n;
  wf_covered :
    let c := DEC_DIGITS * (ndigits n - weight n - 1) - dscale n in
    ndigits n > weight n + 1 -> 0 < c ->
    c <= DEC_DIGITS /\ last (digits n) 0 mod 10 ^ c = 0
}.

Definition with_sign (n : NumericVar) (s : Z) : NumericVar :=
  mkNumericVar (ndigits n) (weight n) s (dscale n) (digits n).

(** The value of a run of digit groups read as one base-[NBASE]
    numeral, most significant group first. *)
Fixpoint be_value (ds : list Z) : Z :=
  match ds with
  | [] => 0
  | d :: t => d * NBASE ^ Z.of_nat (length t) + be_value t
  end.

(** The value of the first [i] digit positions of a numeral; a position
    at or past the end of the digit array counts as a zero group. *)
Definition prefix_value (ds : list Z) (i : Z) : Z :=
  be_value (firstn (Z.to_nat i) ds)
  * NBASE ^ (i - Z.min i (Z.of_nat (length ds))).

(** The decimal exponent that separates the digit array, read as one
    integer, from the value scaled by [10^dscale]: the number of stored
    fractional decimal digits less the display scale. *)
Definition scale_gap (n : NumericVar) : Z :=
  DEC_DIGITS * (ndigits n - weight n - 1) - dscale n.

(** [|value| x 10^dscale] as an integer, for a well-formed numeric. *)
Definition scaled_magnitude (n : NumericVar) : Z :=
  if scale_gap n <=? 0
  then be_value (digits n) * 10 ^ (- scale_gap n)
  else be_value (digits n) / 10 ^ scale_gap n.

(** The fractional groups of a well-formed numeric, scaled by
    [10^dscale]: all fractional groups but the last, shifted, and the
    last group with its surplus digits cut or its missing digits
    appended. *)
Definition fraction_scaled (n : NumericVar) : Z :=
  if ndigits n >? weight n + 1 then
    let start := Z.max 0 (weight n + 1) in
    let c := scale_gap n in
    be_value (removelast (skipn (Z.to_nat start) (digits n))) * 10 ^ (4 - c)
    + (if c >=? 0 then last (digits n) 0 / 10 ^ c
       else last (digits n) 0 * 10 ^ (- c))
  else 0.

(** The width in bits at which an integer column type holds its value. *)
Definition int_width (oid : Z) : Z :=
  if oid =? CHAROID then 8
  else if oid =? INT2OID then 16
  else if oid =? INT4OID then 32
  else 64.

(** The cell an integer column of a given type holds. *)
Definition int_cell (oid z : Z) : Cell :=
  if oid =? CHAROID then CellInt8 z
  else if oid =? INT2OID then CellInt16 z
  else if oid =? INT4OID then CellInt32 z
  else CellInt64 z.

(** What a successful column-to-row conversion may have changed: the
    datum of its column; the by-value flag of its attribute, in the
    float8 case; the heap, by one new text object, in the text case. *)
Definition column_to_row_frame (h : Heap) (slot : TupleTableSlot)
  (value : DuckValue) (col : Z) (h' : Heap) (slot' : TupleTableSlot)
  : Prop :=
  length (tts_values slot') = length (tts_values slot)
  /\ (forall c, c <> Z.to_nat col ->
                nth_error (tts_values slot') c
                = nth_error (tts_values slot) c)
  /\ (tts_attrs slot' = tts_attrs slot
      \/ exists att,
           array_get (tts_attrs slot) col = Ok att
           /\ atttypid att = FLOAT8OID
           /\ tts_attrs slot'
              = list_set (tts_attrs slot) (Z.to_nat col)
                         (set_attr_float8 att))
  /\ (h' = h
      \/ exists s, value = VVarchar s
                   /\ h' = (heap_fresh h, TextObject s) :: h).

(* ================================================================== *)
(** * The offset cache, read off the shape of a descriptor *)
(* ================================================================== *)

(** Where an attribute starts when the offset before it is [off] and
    nothing before it was null or of variable length. *)
Definition att_start (M : TupleMacros) (off : Z) (a : Form_pg_attribute)
  : Z :=
  uint32 (att_align_nominal M off (attalign a)).

(** The offset before attribute [i] of a tuple without nulls, as long as
    all attributes before it are of fixed length; [None] from the first
    attribute of another length on. *)
Fixpoint run_off (M : TupleMacros) (ats : list Form_pg_attribute)
  (i : nat) : option Z :=
  match i with
  | O => Some 0
  | S j =>
      match run_off M ats j, nth_error ats j with
      | Some o, Some a =>
          if attlen a <=? 0 then None
          else Some (uint32 (att_start M o a + attlen a))
      | _, _ => None
      end
  end.

(** A descriptor's cache is sound when every cached offset (a
    non-negative [attcacheoff]) is the start of its attribute as the
    shape of the descriptor predicts it, and, for a variable-length
    attribute, that start needs no padding. *)
Definition cache_ok (M : TupleMacros) (ats : list Form_pg_attribute)
  : Prop :=
  forall i a,
    nth_error ats i = Some a -> 0 <= attcacheoff a ->
    attcacheoff a < 2 ^ 31
    /\ exists o,
         run_off M ats i = Some o
         /\ attcacheoff a = att_start M o a
         /\ (attlen a = -1 -> o = att_align_nominal M o (attalign a)).

(** The host's [att_addlength_pointer] adds the length of a fixed-length
    attribute without looking at the data. *)
Definition fixed_lengths_add (M : TupleMacros) : Prop :=
  forall off len p,
    0 < len -> att_addlength_pointer M off len p = Ok (off + len).

(** The placement of a non-null attribute without recourse to the
    cache: the offset it is read at and the slow flag after placing
    it. *)
Definition place (M : TupleMacros) (tuple : HeapTupleData)
  (a : Form_pg_attribute) (off : Z) (slow : bool) : outcome (Z * bool) :=
  if attlen a =? -1 then
    if negb slow && (off =? att_align_nominal M off (attalign a))
    then Ok (off, slow)
    else
      o <- att_align_pointer M off (attalign a) (-1) (tp_at tuple off) ;;
      Ok (uint32 o, true)
  else Ok (att_start M off a, slow).

(** The host's [fetchatt] reads the by-value flag and the length of the
    attribute, not its cached offset. *)
Definition fetchatt_reads_shape (M : TupleMacros) : Prop :=
  forall a b p, att_shape a = att_shape b -> fetchatt M a p = fetchatt M b p.

(** Two states of the attribute loop that differ in the descriptor's
    cache at most. *)
Definition same_reading (s1 s2 : FetchLoopState) : Prop :=
  l_off s1 = l_off s2 /\ l_slow s1 = l_slow s2
  /\ l_value s1 = l_value s2 /\ l_isNull s1 = l_isNull s2
  /\ map att_shape (l_attrs s1) = map att_shape (l_attrs s2).

(** What the attribute loop keeps before attribute [attnum]: the cache
    is sound, and outside slow mode the offset is the predicted one. *)
Definition reader_inv (M : TupleMacros) (attnum : Z) (s : FetchLoopState)
  : Prop :=
  cache_ok M (l_attrs s)
  /\ (l_slow s = false ->
      run_off M (l_attrs s) (Z.to_nat attnum) = Some (l_off s)).

(** The same between two calls of the reader. *)
Definition read_state_inv (M : TupleMacros) (tupleDesc : TupleDesc)
  (st : HeapTuplePageReadState) : Prop :=
  0 <= m_nvalid st
  /\ cache_ok M (attrs tupleDesc)
  /\ (m_nvalid st <> 0 -> m_slow st = false ->
      run_off M (attrs tupleDesc) (Z.to_nat (m_nvalid st))
      = Some (m_offset st)).

(** The descriptor with every cached offset forgotten. *)
Definition clear_cache (ats : list Form_pg_attribute)
  : list Form_pg_attribute :=
  map (fun a => set_attcacheoff a (-1)) ats.

(** Two vectors that agree in type, in the lengths of their data and
    validity arrays, and in every row but [offset]. *)
Definition same_but_row (offset : Z) (v v' : Vector) : Prop :=
  vec_type v' = vec_type v
  /\ length (vec_data v') = length (vec_data v)
  /\ length (vec_validity v') = length (vec_validity v)
  /\ forall row, row <> Z.to_nat offset ->
       nth_error (vec_data v') row = nth_error (vec_data v) row
       /\ nth_error (vec_validity v') row = nth_error (vec_validity v) row.

(** The integer a value of the engine holds, for the kinds that the
    filter evaluator compares as integers (a boolean as 0 or 1). *)
Definition value_integer (v : DuckValue) : option Z :=
  match v with
  | VBoolean b => Some (if b then 1 else 0)
  | VTinyInt z | VSmallInt z | VInteger z | VBigInt z => Some z
  | VDate days => Some days
  | VTimestamp micros => Some micros
  | _ => None
  end.

(** A value of the engine is of the kind of a column type and within
    its range. *)
Definition value_fits (t : LogicalTypeId) (v : DuckValue) : Prop :=
  match t, v with
  | BOOLEAN, VBoolean _ => True
  | SMALLINT, VSmallInt z => in_signed 16 z
  | INTEGER, VInteger z => in_signed 32 z
  | BIGINT, VBigInt z => in_signed 64 z
  | DATE, VDate days => in_signed 32 days
  | TIMESTAMP, VTimestamp micros => in_signed 64 micros
  | _, _ => False
  end.

(** A filter tree holds a null test somewhere. *)
Fixpoint has_null_test (filter : TableFilter) : bool :=
  match filter with
  | ConjunctionAndFilter child_filters => existsb has_null_test child_filters
  | IsNotNullFilter | IsNullFilter => true
  | ConstantFilter _ _ | OtherFilter _ => false
  end.

(** Induction over filter trees, with the hypothesis for every child of
    a conjunction. *)
Fixpoint TableFilter_nested_ind (P : TableFilter -> Prop)
  (Hand : forall cs, Forall P cs -> P (ConjunctionAndFilter cs))
  (Hconst : forall ct k, P (ConstantFilter ct k))
  (Hnotnull : P IsNotNullFilter)
  (Hnull : P IsNullFilter)
  (Hother : forall tag, P (OtherFilter tag))
  (filter : TableFilter) {struct filter} : P filter :=
  match filter with
  | ConjunctionAndFilter cs =>
      Hand cs
        ((fix children (l : list TableFilter) : Forall P l :=
            match l with
            | [] => Forall_nil P
            | c :: t =>
                Forall_cons c
                  (TableFilter_nested_ind P Hand Hconst Hnotnull Hnull
                     Hother c)
                  (children t)
            end) cs)
  | ConstantFilter ct k => Hconst ct k
  | IsNotNullFilter => Hnotnull
  | IsNullFilter => Hnull
  | OtherFilter tag => Hother tag
  end.

(** The invariants of a concrete numeric, by computation. *)
Ltac numeric_wf_by_computation :=
  apply mk_numeric_wf;
  [ reflexivity
  | simpl; repeat constructor; unfold NBASE; lia
  | simpl; lia
  | simpl; lia
  | simpl; lia
  | cbv zeta; intros Hgt Hgap;
    first [ vm_compute in Hgt; discriminate Hgt
          | vm_compute in Hgap; discriminate Hgap
          | split; [vm_compute; discriminate | reflexivity] ] ].

(* ================================================================== *)
(** * Properties: machine integers *)
(* ================================================================== *)

Lemma pow2_pos : forall w, 0 <= w -> 0 < 2 ^ w.
Proof. intros w Hw. apply Z.pow_pos_nonneg; lia. Qed.

Lemma pow2_double : forall w, 1 <= w -> 2 ^ w = 2 * 2 ^ (w - 1).
Proof.
  intros w Hw. replace w with (Z.succ (w - 1)) at 1 by lia.
  rewrite Z.pow_succ_r by lia. reflexivity.
Qed.

Lemma wrap_signed_small : forall w z,
  1 <= w -> in_signed w z -> wrap_signed w z = z.
Proof.
  intros w z Hw [Hlo Hhi]. unfold wrap_signed.
  pose proof (pow2_double w Hw) as Hd.
  rewrite Z.mod_small by lia. lia.
Qed.

(** A signed wrap is congruent to its argument. *)
Lemma wrap_signed_mod : forall w z,
  1 <= w -> wrap_signed w z mod 2 ^ w = z mod 2 ^ w.
Proof.
  intros w z Hw. unfold wrap_signed.
  pose proof (pow2_pos w ltac:(lia)) as Hp.
  rewrite Zminus_mod, Z.mod_mod by lia.
  rewrite <- Zminus_mod. f_equal. lia.
Qed.

(** Two integers congruent modulo [2^w] wrap to the same value. *)
Lemma wrap_signed_congr : forall w a b,
  a mod 2 ^ w = b mod 2 ^ w -> wrap_signed w a = wrap_signed w b.
Proof.
  intros w a b H. unfold wrap_signed.
  rewrite (Zplus_mod a), (Zplus_mod b), H. reflexivity.
Qed.

Lemma wrap_signed_add : forall w a b,
  1 <= w ->
  wrap_signed w (wrap_signed w a + wrap_signed w b) = wrap_signed w (a + b).
Proof.
  intros w a b Hw. apply wrap_signed_congr.
  rewrite Zplus_mod, !wrap_signed_mod by lia. rewrite <- Zplus_mod.
  reflexivity.
Qed.

Lemma wrap_signed_mul : forall w a b,
  1 <= w ->
  wrap_signed w (wrap_signed w a * wrap_signed w b) = wrap_signed w (a * b).
Proof.
  intros w a b Hw. apply wrap_signed_congr.
  rewrite Zmult_mod, !wrap_signed_mod by lia. rewrite <- Zmult_mod.
  reflexivity.
Qed.

Lemma wrap_signed_neg : forall w a,
  1 <= w -> wrap_signed w (- wrap_signed w a) = wrap_signed w (- a).
Proof.
  intros w a Hw. apply wrap_signed_congr.
  rewrite <- (Z.sub_0_l (wrap_signed w a)), <- (Z.sub_0_l a).
  rewrite Zminus_mod, wrap_signed_mod by lia. rewrite <- Zminus_mod.
  reflexivity.
Qed.

Lemma wrap_signed_idem : forall w a,
  1 <= w -> wrap_signed w (wrap_signed w a) = wrap_signed w a.
Proof.
  intros w a Hw. apply wrap_signed_congr, wrap_signed_mod. exact Hw.
Qed.

(** Reading the low [w] bits of a sign-extended datum gives the signed
    integer back. *)
Lemma wrap_signed_uint64 : forall w z,
  1 <= w <= 64 -> wrap_signed w (uint64 z) = wrap_signed w z.
Proof.
  intros w z Hw. apply wrap_signed_congr.
  unfold uint64, wrap_unsigned.
  replace (2 ^ 64) with (2 ^ w * 2 ^ (64 - w))
    by (rewrite <- Z.pow_add_r by lia; f_equal; lia).
  pose proof (pow2_pos w ltac:(lia)). pose proof (pow2_pos (64 - w) ltac:(lia)).
  rewrite Z.rem_mul_r by lia.
  rewrite (Z.mul_comm (2 ^ w)), Z.mod_add by lia.
  apply Z.mod_mod. lia.
Qed.

Lemma uint64_small : forall z, 0 <= z < 2 ^ 64 -> uint64 z = z.
Proof. intros z H. apply Z.mod_small. exact H. Qed.

(* ================================================================== *)
(** * Properties: type mapping table *)
(* ================================================================== *)

Lemma int32_mod : forall z, int32 z mod 2 ^ 32 = z mod 2 ^ 32.
Proof. intros z. apply wrap_signed_mod. lia. Qed.

(** A bit field of a 32-bit integer does not see the wrap-around. *)
Lemma bit_field_int32 : forall z lo n,
  0 <= lo -> 0 <= n -> lo + n <= 32 ->
  bit_field (int32 z) lo n = bit_field z lo n.
Proof.
  intros z lo n Hlo Hn Hle. unfold bit_field.
  assert (Hk : forall a, (a / 2 ^ lo) mod 2 ^ n
                         = (a mod 2 ^ 32) / 2 ^ lo mod 2 ^ n).
  { intros a.
    pose proof (pow2_pos lo Hlo). pose proof (pow2_pos n Hn).
    pose proof (pow2_pos (32 - lo - n) ltac:(lia)).
    replace (2 ^ 32) with (2 ^ lo * (2 ^ n * 2 ^ (32 - lo - n)))
      by (rewrite <- !Z.pow_add_r by lia; f_equal; lia).
    rewrite (Z.rem_mul_r a) by lia.
    rewrite (Z.mul_comm (2 ^ lo)), Z.div_add by lia.
    rewrite Z.mod_div by lia. rewrite Z.add_0_l.
    rewrite Z.rem_mul_r by lia.
    rewrite (Z.mul_comm (2 ^ n)), Z.mod_add by lia.
    rewrite Z.mod_mod by lia. reflexivity. }
  rewrite (Hk (int32 z)), (Hk z), int32_mod. reflexivity.
Qed.

(** Toggling bit 10 and subtracting 1024 reads an 11-bit field as a
    signed number. *)
Lemma xor_sign_extend_11 : forall f,
  0 <= f < 2048 -> Z.lxor f 1024 - 1024 = sign_extend 11 f.
Proof.
  intros f Hf.
  assert (Hall : forallb (fun k => Z.lxor k 1024 - 1024 =? sign_extend 11 k)
                         (map Z.of_nat (seq 0 2048)) = true)
    by (vm_compute; reflexivity).
  rewrite forallb_forall in Hall.
  apply Z.eqb_eq, Hall.
  apply in_map_iff. exists (Z.to_nat f). split; [lia |].
  apply in_seq. lia.
Qed.

(** C7.  For every 32-bit type modifier, the decoded precision is the
    field of bits 16-31 of (modifier - header size), and the decoded
    scale is the field of bits 0-10 of the same, read as an 11-bit
    two's complement number; a scale field with bit 10 set is negative. *)
Theorem numeric_typmod_bit_layout : forall typmod,
  numeric_typmod_precision typmod = bit_field (typmod - VARHDRSZ) 16 16
  /\ numeric_typmod_scale typmod
     = sign_extend 11 (bit_field (typmod - VARHDRSZ) 0 11)
  /\ (Z.testbit (typmod - VARHDRSZ) 10 = true
      -> numeric_typmod_scale typmod < 0).
Proof.
  intros typmod.
  assert (Hs : numeric_typmod_scale typmod
               = sign_extend 11 (bit_field (typmod - VARHDRSZ) 0 11)).
  { unfold numeric_typmod_scale.
    change 2047 with (Z.ones 11). rewrite Z.land_ones by lia.
    replace (int32 (typmod - VARHDRSZ) mod 2 ^ 11)
      with (bit_field (int32 (typmod - VARHDRSZ)) 0 11)
      by (unfold bit_field; rewrite Z.pow_0_r, Z.div_1_r; reflexivity).
    rewrite bit_field_int32 by lia.
    apply xor_sign_extend_11.
    unfold bit_field. apply Z.mod_pos_bound. lia. }
  split; [| split].
  - unfold numeric_typmod_precision.
    change 65535 with (Z.ones 16). rewrite Z.land_ones by lia.
    rewrite Z.shiftr_div_pow2 by lia.
    apply (bit_field_int32 (typmod - VARHDRSZ) 16 16); lia.
  - exact Hs.
  - intros Hbit. rewrite Hs. unfold sign_extend, bit_field.
    rewrite Z.pow_0_r, Z.div_1_r.
    set (x := typmod - VARHDRSZ) in *.
    pose proof (Z.mod_pos_bound x (2 ^ 11) ltac:(lia)) as Hb.
    destruct (x mod 2 ^ 11 <? 2 ^ (11 - 1)) eqn:E; [| lia].
    apply Z.ltb_lt in E. exfalso.
    assert (Ht : Z.testbit (x mod 2 ^ 11) 10 = true)
      by (rewrite Z.mod_pow2_bits_low by lia; exact Hbit).
    rewrite Z.testbit_true in Ht by lia.
    rewrite Z.div_small in Ht by (change (11 - 1) with 10 in E; lia).
    discriminate Ht.
Qed.

(* ================================================================== *)
(** * Properties: scalar value converter *)
(* ================================================================== *)

Lemma nth_error_list_set : forall (A : Type) (l : list A) i x,
  (i < length l)%nat -> nth_error (list_set l i x) i = Some x.
Proof.
  intros A l. induction l as [| a l IH]; intros i x Hi; simpl in *.
  - lia.
  - destruct i as [| j]; simpl; [reflexivity | apply IH; lia].
Qed.

Lemma array_set_ok : forall (A : Type) (l : list A) i x,
  0 <= i < Z.of_nat (length l) ->
  array_set l i x = Ok (list_set l (Z.to_nat i) x).
Proof.
  intros A l i x [H0 H1]. unfold array_set.
  apply Z.leb_le in H0. apply Z.ltb_lt in H1. rewrite H0, H1. reflexivity.
Qed.

Lemma Append_ok : forall vec c offset,
  0 <= offset < Z.of_nat (length (vec_data vec)) ->
  Append vec c offset
  = Ok (mkVector (vec_type vec) (list_set (vec_data vec) (Z.to_nat offset) c)
                 (vec_validity vec)).
Proof.
  intros vec c offset H. unfold Append. rewrite array_set_ok by exact H.
  reflexivity.
Qed.

Lemma store_value_ok : forall slot col d,
  0 <= col < Z.of_nat (length (tts_values slot)) ->
  store_value slot col d
  = Ok (mkSlot (tts_attrs slot) (list_set (tts_values slot) (Z.to_nat col) d)).
Proof.
  intros slot col d H. unfold store_value. rewrite array_set_ok by exact H.
  reflexivity.
Qed.

(** Adding a constant to a sign-extended datum and truncating to [w]
    bits is the signed addition at [w] bits. *)
Lemma datum_add_trunc : forall w d k,
  1 <= w <= 64 ->
  wrap_signed w (uint64 (to_Datum d + k)) = wrap_signed w (d + k).
Proof.
  intros w d k Hw. rewrite wrap_signed_uint64 by lia.
  apply wrap_signed_congr. unfold to_Datum.
  rewrite Zplus_mod.
  assert (Hm : uint64 d mod 2 ^ w = d mod 2 ^ w).
  { pose proof (wrap_signed_uint64 w d Hw) as H.
    rewrite <- (wrap_signed_mod w (uint64 d)), H, wrap_signed_mod by lia.
    reflexivity. }
  rewrite Hm, <- Zplus_mod. reflexivity.
Qed.

(** Subtracting the offset again, at the same width, undoes the
    addition. *)
Lemma offset_round_trip : forall w d k,
  1 <= w -> in_signed w d ->
  wrap_signed w (wrap_signed w (d + k) - k) = d.
Proof.
  intros w d k Hw Hd.
  rewrite <- (wrap_signed_small w d Hw Hd) at 2.
  apply wrap_signed_congr.
  rewrite Zminus_mod, wrap_signed_mod by lia. rewrite <- Zminus_mod.
  f_equal. lia.
Qed.

Lemma date_to_duck : forall fp h vec offset d,
  0 <= offset < Z.of_nat (length (vec_data vec)) ->
  type_id (vec_type vec) = DATE ->
  exists vec',
    ConvertPostgresToDuckValue fp h (to_Datum d) vec offset = Ok vec'
    /\ cell_at vec' offset
       = Some (CellDate (int32 (d + QUACK_DUCK_DATE_OFFSET))).
Proof.
  intros fp h vec offset d Hoff Ht. unfold ConvertPostgresToDuckValue.
  rewrite Ht. rewrite Append_ok by exact Hoff.
  eexists. split; [reflexivity |].
  unfold cell_at. simpl. rewrite nth_error_list_set by lia.
  unfold int32. rewrite datum_add_trunc by lia. reflexivity.
Qed.

Lemma date_to_postgres : forall (E : Engine) h slot col att days,
  0 <= col < Z.of_nat (length (tts_values slot)) ->
  array_get (tts_attrs slot) col = Ok att ->
  atttypid att = DATEOID ->
  exists slot',
    ConvertDuckToPostgresValue (E := E) h slot (VDate days) col
    = Ok (h, slot')
    /\ datum_at slot' col
       = Some (to_Datum (int32 (days - QUACK_DUCK_DATE_OFFSET))).
Proof.
  intros E h slot col att days Hcol Hatt Ht.
  unfold ConvertDuckToPostgresValue.
  rewrite Hatt. simpl. rewrite Ht. simpl.
  rewrite store_value_ok by exact Hcol. simpl.
  eexists. split; [reflexivity |].
  unfold datum_at. simpl. apply nth_error_list_set. lia.
Qed.

Lemma timestamp_to_duck : forall fp h vec offset t,
  0 <= offset < Z.of_nat (length (vec_data vec)) ->
  type_id (vec_type vec) = TIMESTAMP ->
  exists vec',
    ConvertPostgresToDuckValue fp h (to_Datum t) vec offset = Ok vec'
    /\ cell_at vec' offset
       = Some (CellTime (int64 (t + QUACK_DUCK_TIMESTAMP_OFFSET))).
Proof.
  intros fp h vec offset t Hoff Ht. unfold ConvertPostgresToDuckValue.
  rewrite Ht. rewrite Append_ok by exact Hoff.
  eexists. split; [reflexivity |].
  unfold cell_at. simpl. rewrite nth_error_list_set by lia.
  unfold int64. rewrite datum_add_trunc by lia. reflexivity.
Qed.

Lemma timestamp_to_postgres : forall (E : Engine) h slot col att v r,
  0 <= col < Z.of_nat (length (tts_values slot)) ->
  array_get (tts_attrs slot) col = Ok att ->
  atttypid att = TIMESTAMPOID ->
  GetValue_dtime (Engine := E) v = Ok r ->
  exists slot',
    ConvertDuckToPostgresValue (E := E) h slot v col = Ok (h, slot')
    /\ datum_at slot' col
       = Some (to_Datum (int64 (r - QUACK_DUCK_TIMESTAMP_OFFSET))).
Proof.
  intros E h slot col att v r Hcol Hatt Ht Hr.
  unfold ConvertDuckToPostgresValue.
  rewrite Hatt. simpl. rewrite Ht. simpl. rewrite Hr. simpl.
  rewrite store_value_ok by exact Hcol. simpl.
  eexists. split; [reflexivity |].
  unfold datum_at. simpl. apply nth_error_list_set. lia.
Qed.

(** Two 64-bit integers give the same datum exactly when they are
    congruent modulo [2^64]. *)
Lemma to_Datum_int64_eq : forall a b,
  to_Datum (int64 a) = to_Datum b <-> (a - b) mod 2 ^ 64 = 0.
Proof.
  intros a b. unfold to_Datum, uint64, wrap_unsigned, int64.
  rewrite wrap_signed_mod by lia. apply Z.cong_iff_0.
Qed.

Lemma diff_mod_int64 : forall r x,
  (r - int64 x) mod 2 ^ 64 = (r - x) mod 2 ^ 64.
Proof.
  intros r x. unfold int64.
  rewrite Zminus_mod, wrap_signed_mod by lia.
  rewrite <- Zminus_mod. reflexivity.
Qed.

Lemma time_of_day_range : forall micros,
  0 <= micros mod MICROS_PER_DAY < MICROS_PER_DAY.
Proof.
  intros micros. apply Z.mod_pos_bound. unfold MICROS_PER_DAY. lia.
Qed.

(** C2.  A row-store date [d] (a day count) survives the conversion to
    the columnar representation and back unchanged: row to column adds
    the epoch offset of 10957 days once, column to row subtracts it
    once.  A row-store timestamp [t] (a microsecond count) has the
    offset of 10957 x 86,400,000,000 microseconds added once on the way
    to the column.  On the way back the converter reads the columnar
    value at the engine's time-of-day type, subtracts the offset once
    from what the engine hands back and writes that: [t] comes back
    exactly when the engine hands back the stored microsecond count.
    Under the engine's cast, which keeps the time of day, the datum
    written is (time of day - offset), and [t] comes back only when it
    lies within the first day of the columnar epoch. *)
Theorem date_round_trip_timestamp_read_as_time :
  forall fp h vec offset slot col att,
    0 <= offset < Z.of_nat (length (vec_data vec)) ->
    0 <= col < Z.of_nat (length (tts_values slot)) ->
    array_get (tts_attrs slot) col = Ok att ->
    (forall (E : Engine) d,
        in_signed 32 d ->
        type_id (vec_type vec) = DATE -> atttypid att = DATEOID ->
        exists vec' days slot',
          ConvertPostgresToDuckValue fp h (to_Datum d) vec offset = Ok vec'
          /\ cell_at vec' offset = Some (CellDate days)
          /\ days = int32 (d + 10957)
          /\ (d + 10957 < 2 ^ 31 -> days = d + 10957)
          /\ ConvertDuckToPostgresValue (E := E) h slot (VDate days) col
             = Ok (h, slot')
          /\ datum_at slot' col = Some (to_Datum (int32 (days - 10957)))
          /\ datum_at slot' col = Some (to_Datum d))
    /\ (forall (E : Engine) t r,
        in_signed 64 t ->
        type_id (vec_type vec) = TIMESTAMP -> atttypid att = TIMESTAMPOID ->
        GetValue_dtime (Engine := E)
          (VTimestamp (int64 (t + 10957 * 86400000000)))
        = Ok r ->
        exists vec' micros slot',
          ConvertPostgresToDuckValue fp h (to_Datum t) vec offset = Ok vec'
          /\ cell_at vec' offset = Some (CellTime micros)
          /\ micros = int64 (t + 10957 * 86400000000)
          /\ (t + 10957 * 86400000000 < 2 ^ 63
              -> micros = t + 10957 * 86400000000)
          /\ ConvertDuckToPostgresValue (E := E) h slot (VTimestamp micros)
               col
             = Ok (h, slot')
          /\ datum_at slot' col
             = Some (to_Datum (int64 (r - 10957 * 86400000000)))
          /\ (datum_at slot' col = Some (to_Datum t)
              <-> (r - micros) mod 2 ^ 64 = 0))
    /\ (forall t,
        in_signed 64 t ->
        type_id (vec_type vec) = TIMESTAMP -> atttypid att = TIMESTAMPOID ->
        t + 10957 * 86400000000 < 2 ^ 63 - 1 ->
        exists vec' slot',
          ConvertPostgresToDuckValue fp h (to_Datum t) vec offset = Ok vec'
          /\ cell_at vec' offset
             = Some (CellTime (t + 10957 * 86400000000))
          /\ ConvertDuckToPostgresValue (E := duckdb_engine) h slot
               (VTimestamp (t + 10957 * 86400000000)) col
             = Ok (h, slot')
          /\ datum_at slot' col
             = Some (to_Datum ((t + 10957 * 86400000000) mod 86400000000
                               - 10957 * 86400000000))
          /\ (datum_at slot' col = Some (to_Datum t)
              <-> 0 <= t + 10957 * 86400000000 < 86400000000)).
Proof.
  intros fp h vec offset slot col att Hoff Hcol Hatt.
  split; [| split].
  - intros E d Hd Hvt Hat.
    destruct (date_to_duck fp h vec offset d Hoff Hvt) as [vec' [E1 E2]].
    destruct (date_to_postgres E h slot col att
                (int32 (d + QUACK_DUCK_DATE_OFFSET)) Hcol Hatt Hat)
      as [slot' [E3 E4]].
    exists vec', (int32 (d + 10957)), slot'.
    repeat split; try assumption.
    + intros Hlt. apply wrap_signed_small; [lia |].
      unfold in_signed in *. lia.
    + rewrite E4. unfold int32, QUACK_DUCK_DATE_OFFSET.
      rewrite offset_round_trip by (assumption || lia). reflexivity.
  - intros E t r Ht Hvt Hat Hr.
    destruct (timestamp_to_duck fp h vec offset t Hoff Hvt) as [vec' [E1 E2]].
    destruct (timestamp_to_postgres E h slot col att _ r Hcol Hatt Hat Hr)
      as [slot' [E3 E4]].
    exists vec', (int64 (t + 10957 * 86400000000)), slot'.
    split; [exact E1 |]. split; [exact E2 |]. split; [reflexivity |].
    split.
    { intros Hlt. apply wrap_signed_small; [lia |].
      unfold in_signed in *. lia. }
    split; [exact E3 |]. split; [exact E4 |].
    rewrite E4.
    change QUACK_DUCK_TIMESTAMP_OFFSET with (10957 * 86400000000).
    split.
    + intros H. injection H as H. apply to_Datum_int64_eq in H.
      rewrite diff_mod_int64.
      replace (r - (t + 10957 * 86400000000))
        with (r - 10957 * 86400000000 - t) by lia.
      exact H.
    + intros H. f_equal. apply to_Datum_int64_eq.
      rewrite diff_mod_int64 in H.
      replace (r - 10957 * 86400000000 - t)
        with (r - (t + 10957 * 86400000000)) by lia.
      exact H.
  - intros t Ht Hvt Hat Hfin.
    unfold in_signed in Ht.
    change (2 ^ (64 - 1)) with 9223372036854775808 in Ht.
    change (2 ^ 63) with 9223372036854775808 in Hfin.
    change (10957 * 86400000000) with 946684800000000 in *.
    assert (Hfit : int64 (t + 946684800000000) = t + 946684800000000).
    { apply wrap_signed_small; [lia |]. unfold in_signed.
      change (2 ^ (64 - 1)) with 9223372036854775808. lia. }
    destruct (timestamp_to_duck fp h vec offset t Hoff Hvt) as [vec' [E1 E2]].
    change QUACK_DUCK_TIMESTAMP_OFFSET with 946684800000000 in E2.
    rewrite Hfit in E2.
    pose proof (time_of_day_range (t + 946684800000000)) as Hday.
    unfold MICROS_PER_DAY in Hday.
    assert (Hr : GetValue_dtime (Engine := duckdb_engine)
                   (VTimestamp (t + 946684800000000))
                 = Ok ((t + 946684800000000) mod 86400000000)).
    { cbn [GetValue_dtime duckdb_engine timestamp_time_of_day].
      change (2 ^ 63) with 9223372036854775808.
      destruct (t + 946684800000000 =? 9223372036854775808 - 1) eqn:Ea;
        [apply Z.eqb_eq in Ea; lia |].
      destruct (t + 946684800000000 =? - (9223372036854775808 - 1))
        eqn:Eb; [apply Z.eqb_eq in Eb; lia |].
      reflexivity. }
    destruct (timestamp_to_postgres duckdb_engine h slot col att _ _
                Hcol Hatt Hat Hr) as [slot' [E3 E4]].
    change QUACK_DUCK_TIMESTAMP_OFFSET with 946684800000000 in E4.
    assert (Hback : int64 ((t + 946684800000000) mod 86400000000
                           - 946684800000000)
                    = (t + 946684800000000) mod 86400000000
                      - 946684800000000).
    { apply wrap_signed_small; [lia |]. unfold in_signed.
      change (2 ^ (64 - 1)) with 9223372036854775808. lia. }
    rewrite Hback in E4.
    exists vec', slot'.
    split; [exact E1 |]. split; [exact E2 |]. split; [exact E3 |].
    split; [exact E4 |].
    rewrite E4. split.
    + intros H.
      assert (Hd : to_Datum ((t + 946684800000000) mod 86400000000
                             - 946684800000000) = to_Datum t)
        by congruence.
      apply (f_equal (wrap_signed 64)) in Hd.
      unfold to_Datum in Hd. rewrite !wrap_signed_uint64 in Hd by lia.
      rewrite (wrap_signed_small 64 t) in Hd
        by (try lia; unfold in_signed;
            change (2 ^ (64 - 1)) with 9223372036854775808; lia).
      rewrite wrap_signed_small in Hd
        by (try lia; unfold in_signed;
            change (2 ^ (64 - 1)) with 9223372036854775808; lia).
      lia.
    + intros H. rewrite Z.mod_small by exact H.
      f_equal. f_equal. lia.
Qed.

Lemma date_round_trip_timestamp_read_as_time_witness :
  (exists vec' days slot',
      ConvertPostgresToDuckValue Sample.host [] (to_Datum 8766)
        (Sample.vector (plain DATE)) 0 = Ok vec'
      /\ cell_at vec' 0 = Some (CellDate days)
      /\ days = int32 (8766 + 10957)
      /\ (8766 + 10957 < 2 ^ 31 -> days = 8766 + 10957)
      /\ ConvertDuckToPostgresValue [] (Sample.slot1 DATEOID 4 true)
           (VDate days) 0 = Ok ([], slot')
      /\ datum_at slot' 0 = Some (to_Datum (int32 (days - 10957)))
      /\ datum_at slot' 0 = Some (to_Datum 8766))
  /\ (exists vec' slot',
      ConvertPostgresToDuckValue Sample.host [] (to_Datum 0)
        (Sample.vector (plain TIMESTAMP)) 0 = Ok vec'
      /\ cell_at vec' 0 = Some (CellTime 946684800000000)
      /\ ConvertDuckToPostgresValue [] (Sample.slot1 TIMESTAMPOID 8 true)
           (VTimestamp 946684800000000) 0 = Ok ([], slot')
      /\ datum_at slot' 0 = Some (to_Datum (- 946684800000000))
      /\ datum_at slot' 0 <> Some (to_Datum 0)).
Proof.
  split.
  - refine (proj1 (date_round_trip_timestamp_read_as_time Sample.host []
                     (Sample.vector (plain DATE)) 0
                     (Sample.slot1 DATEOID 4 true) 0
                     (Sample.attribute DATEOID 4 true) _ _ _)
              duckdb_engine 8766 _ _ _);
      try reflexivity; simpl; unfold in_signed; lia.
  - destruct (proj2 (proj2 (date_round_trip_timestamp_read_as_time
                              Sample.host []
                              (Sample.vector (plain TIMESTAMP)) 0
                              (Sample.slot1 TIMESTAMPOID 8 true) 0
                              (Sample.attribute TIMESTAMPOID 8 true)
                              ltac:(simpl; lia) ltac:(simpl; lia) eq_refl))
                0 ltac:(unfold in_signed; simpl; lia) eq_refl eq_refl
                ltac:(simpl; lia))
      as [vec' [slot' [H1 [H2 [H3 [H4 H5]]]]]].
    exists vec', slot'.
    split; [exact H1 |]. split; [exact H2 |]. split; [exact H3 |].
    split; [exact H4 |].
    intros Hc. apply H5 in Hc. simpl in Hc. lia.
Defined.

(** Column to row on a NUMERIC attribute raises the unsupported-type
    error, whatever the value. *)
Lemma numeric_to_postgres_unsupported : forall h slot value col att,
  array_get (tts_attrs slot) col = Ok att ->
  atttypid att = NUMERICOID ->
  ConvertDuckToPostgresValue h slot value col
  = Err (UnsupportedPostgresType NUMERICOID).
Proof.
  intros h slot value col att Hatt Ht. unfold ConvertDuckToPostgresValue.
  rewrite Hatt. simpl. rewrite Ht. reflexivity.
Qed.

(** Row to column on a DECIMAL vector raises an error, whatever the
    datum. *)
Lemma decimal_to_duck_error : forall fp h value vec offset,
  type_id (vec_type vec) = DECIMAL ->
  ConvertPostgresToDuckValue fp h value vec offset = Err DecimalTypeError.
Proof.
  intros fp h value vec offset Ht. unfold ConvertPostgresToDuckValue.
  rewrite Ht. reflexivity.
Qed.

(** Row to column on a DOUBLE vector that carries the numeric-as-double
    marker goes through the decimal codec with the double policy. *)
Lemma numeric_as_double_to_duck : forall fp h value vec offset,
  vec_type vec = mkLogicalType DOUBLE (Some NumericAsDouble) ->
  ConvertPostgresToDuckValue fp h value vec offset
  = (numeric_var <- FromNumeric h value ;;
     double_val <- ConvertDecimal (double_arith fp)
                     (DecimalConversionDouble fp) numeric_var ;;
     Append vec (CellDouble double_val) offset).
Proof.
  intros fp h value vec offset Ht. unfold ConvertPostgresToDuckValue.
  rewrite Ht. reflexivity.
Qed.

(** C4, as the code has it.  A numeric value is refused in both
    directions the specification lists as supported: column to row on a
    NUMERIC attribute raises the unsupported-type error, row to column on
    a DECIMAL vector raises an error.  A numeric value reaches the
    decimal codec only from row to column, on a DOUBLE vector marked
    numeric-as-double. *)
Theorem numeric_conversion_support :
  forall fp h value vec offset slot dvalue col att,
    array_get (tts_attrs slot) col = Ok att ->
    atttypid att = NUMERICOID ->
    ConvertDuckToPostgresValue h slot dvalue col
    = Err (UnsupportedPostgresType NUMERICOID)
    /\ (type_id (vec_type vec) = DECIMAL ->
        ConvertPostgresToDuckValue fp h value vec offset
        = Err DecimalTypeError)
    /\ (vec_type vec = mkLogicalType DOUBLE (Some NumericAsDouble) ->
        ConvertPostgresToDuckValue fp h value vec offset
        = (numeric_var <- FromNumeric h value ;;
           double_val <- ConvertDecimal (double_arith fp)
                           (DecimalConversionDouble fp) numeric_var ;;
           Append vec (CellDouble double_val) offset)).
Proof.
  intros fp h value vec offset slot dvalue col att Hatt Ht.
  split; [| split].
  - eapply numeric_to_postgres_unsupported; eassumption.
  - apply decimal_to_duck_error.
  - apply numeric_as_double_to_duck.
Qed.

Lemma numeric_conversion_support_witness :
  ConvertDuckToPostgresValue [] (Sample.slot1 NUMERICOID (-1) false)
    (VDouble 0) 0
  = Err (UnsupportedPostgresType NUMERICOID)
  /\ ConvertPostgresToDuckValue Sample.host [] 0
       (Sample.vector (mkLogicalType DECIMAL (Some (DecimalTypeInfo 10 2)))) 0
     = Err DecimalTypeError.
Proof.
  pose proof (numeric_conversion_support Sample.host [] 0
                (Sample.vector
                   (mkLogicalType DECIMAL (Some (DecimalTypeInfo 10 2)))) 0
                (Sample.slot1 NUMERICOID (-1) false) (VDouble 0) 0
                (Sample.attribute NUMERICOID (-1) false)
                eq_refl eq_refl) as [H1 [H2 _]].
  split; [exact H1 | exact (H2 eq_refl)].
Defined.

(** C4 as the specification states it does not hold: with a NUMERIC
    destination attribute the column-to-row converter does raise the
    unsupported-type error, and with a DECIMAL destination vector the
    row-to-column converter yields no vector at all. *)
Lemma numeric_conversion_counterexample :
  ~ (forall value,
        ConvertDuckToPostgresValue [] (Sample.slot1 NUMERICOID (-1) false)
          value 0
        <> Err (UnsupportedPostgresType NUMERICOID))
  /\ ~ (exists vec',
        ConvertPostgresToDuckValue Sample.host
          [(8, NumericObject (mkNumericVar 1 0 NUMERIC_POS 0 [7]))] 8
          (Sample.vector (mkLogicalType DECIMAL (Some (DecimalTypeInfo 10 0))))
          0 = Ok vec').
Proof.
  split.
  - intros H. apply (H (VBigInt 7)). reflexivity.
  - intros [vec' H]. discriminate H.
Qed.

(* ================================================================== *)
(** * Properties: numeric columns without an exact decimal type *)
(* ================================================================== *)

(** C6.  For a numeric column whose type modifier is absent (-1), or
    whose decoded precision exceeds 38, or whose decoded precision or
    scale is negative, the type mapping yields DOUBLE with the
    numeric-as-double marker attached; on a vector of that type the
    row-to-column converter decodes the value with the decimal codec
    under the double policy, whereas on an unmarked DOUBLE vector it
    stores the datum as a float64. *)
Theorem numeric_double_fallback : forall typmod,
  typmod = -1 \/ numeric_typmod_precision typmod > 38
  \/ numeric_typmod_precision typmod < 0 \/ numeric_typmod_scale typmod < 0 ->
  ConvertPostgresToDuckColumnType NUMERICOID typmod
  = Ok (mkLogicalType DOUBLE (Some NumericAsDouble))
  /\ (forall fp h value vec offset,
         Ok (vec_type vec) = ConvertPostgresToDuckColumnType NUMERICOID typmod ->
         ConvertPostgresToDuckValue fp h value vec offset
         = (numeric_var <- FromNumeric h value ;;
            double_val <- ConvertDecimal (double_arith fp)
                            (DecimalConversionDouble fp) numeric_var ;;
            Append vec (CellDouble double_val) offset))
  /\ (forall fp h value vec offset,
         vec_type vec = plain DOUBLE ->
         ConvertPostgresToDuckValue fp h value vec offset
         = Append vec (CellDouble value) offset).
Proof.
  intros typmod Hc.
  assert (Hmap : ConvertPostgresToDuckColumnType NUMERICOID typmod
                 = Ok (mkLogicalType DOUBLE (Some NumericAsDouble))).
  { unfold ConvertPostgresToDuckColumnType. simpl.
    assert (Hb : (typmod =? -1) || (numeric_typmod_precision typmod <? 0)
                 || (numeric_typmod_scale typmod <? 0)
                 || (numeric_typmod_precision typmod >? 38) = true).
    { destruct Hc as [H | [H | [H | H]]].
      - apply Z.eqb_eq in H. rewrite H. reflexivity.
      - apply Z.gt_lt, Z.gtb_lt in H. rewrite H.
        apply orb_true_r.
      - apply Z.ltb_lt in H. rewrite H.
        rewrite orb_true_r. reflexivity.
      - apply Z.ltb_lt in H. rewrite H.
        rewrite orb_true_r. reflexivity. }
    rewrite Hb. reflexivity. }
  split; [exact Hmap | split].
  - intros fp h value vec offset Hv. rewrite Hmap in Hv.
    injection Hv as Hv. apply numeric_as_double_to_duck. exact Hv.
  - intros fp h value vec offset Hv. unfold ConvertPostgresToDuckValue.
    rewrite Hv. reflexivity.
Qed.

Lemma numeric_double_fallback_witness :
  ConvertPostgresToDuckColumnType NUMERICOID (-1)
  = Ok (mkLogicalType DOUBLE (Some NumericAsDouble))
  /\ ConvertPostgresToDuckColumnType NUMERICOID (40 * 65536 + 2 + 4)
     = Ok (mkLogicalType DOUBLE (Some NumericAsDouble))
  /\ ConvertPostgresToDuckValue Sample.host
       [(8, NumericObject (mkNumericVar 1 0 NUMERIC_POS 0 [7]))] 8
       (Sample.vector (mkLogicalType DOUBLE (Some NumericAsDouble))) 0
     = Ok (mkVector (mkLogicalType DOUBLE (Some NumericAsDouble))
                    [CellDouble 7] [true]).
Proof.
  split; [| split].
  - apply (numeric_double_fallback (-1)). left. reflexivity.
  - apply (numeric_double_fallback (40 * 65536 + 2 + 4)).
    right. left. vm_compute. reflexivity.
  - rewrite (proj1 (proj2 (numeric_double_fallback (-1)
                             (or_introl eq_refl)))) by reflexivity.
    reflexivity.
Defined.

(* ================================================================== *)
(** * Properties: filter evaluator *)
(* ================================================================== *)

Section Conjunction.

Variable eval : TableFilter -> outcome bool.

Lemma and_fold_err : forall cs e,
  fold_left (and_step eval) cs (Err e) = Err e.
Proof.
  induction cs as [| c cs IH]; intros e; simpl; [reflexivity | apply IH].
Qed.

(** A conjunction that yields a value has had every child yield one. *)
Lemma and_fold_all_evaluated : forall cs a b,
  fold_left (and_step eval) cs (Ok a) = Ok b ->
  Forall (fun c => exists r, eval c = Ok r) cs.
Proof.
  induction cs as [| c cs IH]; intros a b H; simpl in H.
  - constructor.
  - destruct (eval c) as [r | e] eqn:E; simpl in H.
    + constructor; [exists r; exact E | eapply IH; exact H].
    + rewrite and_fold_err in H. discriminate H.
Qed.

Lemma and_fold_all_true : forall cs a,
  Forall (fun c => eval c = Ok true) cs ->
  fold_left (and_step eval) cs (Ok a) = Ok a.
Proof.
  induction cs as [| c cs IH]; intros a H; simpl.
  - reflexivity.
  - inversion H as [| ? ? Hc Hcs]; subst.
    rewrite Hc. simpl. rewrite andb_true_r. apply IH. exact Hcs.
Qed.

Lemma and_fold_true_inv : forall cs a,
  fold_left (and_step eval) cs (Ok a) = Ok true ->
  a = true /\ Forall (fun c => eval c = Ok true) cs.
Proof.
  induction cs as [| c cs IH]; intros a H; simpl in H.
  - injection H as H. split; [exact H | constructor].
  - destruct (eval c) as [r | e] eqn:E; simpl in H.
    + destruct (IH _ H) as [Hab Hcs].
      apply andb_true_iff in Hab. destruct Hab as [Ha Hr]. subst.
      split; [reflexivity | constructor; assumption].
    + rewrite and_fold_err in H. discriminate H.
Qed.

Lemma and_fold_false : forall cs,
  Forall (fun c => exists r, eval c = Ok r) cs ->
  fold_left (and_step eval) cs (Ok false) = Ok false.
Proof.
  induction cs as [| c cs IH]; intros H; simpl.
  - reflexivity.
  - inversion H as [| ? ? [r Hc] Hcs]; subst.
    rewrite Hc. simpl. apply IH. exact Hcs.
Qed.

Lemma and_fold_some_false : forall cs a,
  Forall (fun c => exists r, eval c = Ok r) cs ->
  Exists (fun c => eval c = Ok false) cs ->
  fold_left (and_step eval) cs (Ok a) = Ok false.
Proof.
  induction cs as [| c cs IH]; intros a Hall Hex.
  - inversion Hex.
  - inversion Hall as [| ? ? [r Hc] Hcs]; subst. simpl.
    rewrite Hc. simpl.
    inversion Hex as [? ? Hf | ? ? Hf]; subst.
    + rewrite Hc in Hf. injection Hf as Hf. subst r.
      rewrite andb_false_r. apply and_fold_false. exact Hcs.
    + apply IH; assumption.
Qed.

(** A child that fails makes the conjunction fail, wherever it stands
    among the children: no child is skipped. *)
Lemma and_fold_child_error : forall cs a c e,
  In c cs -> eval c = Err e ->
  exists e', fold_left (and_step eval) cs (Ok a) = Err e'.
Proof.
  intros cs a c e Hin Hc.
  destruct (fold_left (and_step eval) cs (Ok a)) as [b | e'] eqn:E.
  - apply and_fold_all_evaluated in E.
    rewrite Forall_forall in E. destruct (E c Hin) as [r Hr].
    rewrite Hc in Hr. discriminate Hr.
  - exists e'. reflexivity.
Qed.

End Conjunction.

Lemma ApplyValueFilter_and : forall F cs value is_null type_oid,
  ApplyValueFilter F (ConjunctionAndFilter cs) value is_null type_oid
  = fold_left
      (and_step (fun c => ApplyValueFilter F c value is_null type_oid))
      cs (Ok true).
Proof. reflexivity. Qed.

(** C8.  On every (value, isNull, typeId) triple, an AND-conjunction
    evaluates to true if and only if every child evaluates to true; the
    empty conjunction evaluates to true; and every child is evaluated: the
    conjunction yields a value only when every child does, it yields false
    when every child yields a value and one of them is false, and a child
    that raises an error makes the conjunction raise one. *)
Theorem and_conjunction_all_children :
  forall F cs value is_null type_oid,
    let eval := fun c => ApplyValueFilter F c value is_null type_oid in
    eval (ConjunctionAndFilter []) = Ok true
    /\ (eval (ConjunctionAndFilter cs) = Ok true
        <-> Forall (fun c => eval c = Ok true) cs)
    /\ (forall b, eval (ConjunctionAndFilter cs) = Ok b ->
                  Forall (fun c => exists r, eval c = Ok r) cs)
    /\ (Forall (fun c => exists r, eval c = Ok r) cs ->
        Exists (fun c => eval c = Ok false) cs ->
        eval (ConjunctionAndFilter cs) = Ok false)
    /\ (forall c e, In c cs -> eval c = Err e ->
                    exists e', eval (ConjunctionAndFilter cs) = Err e').
Proof.
  intros F cs value is_null type_oid eval. subst eval. cbv beta.
  rewrite !ApplyValueFilter_and.
  split; [reflexivity |].
  split; [split |].
  - intros H. apply and_fold_true_inv in H. apply H.
  - intros H. apply and_fold_all_true. exact H.
  - split; [| split].
    + intros b H. eapply and_fold_all_evaluated. exact H.
    + intros Hall Hex. apply and_fold_some_false; assumption.
    + intros c e Hin Hc. eapply and_fold_child_error; eassumption.
Qed.

Lemma and_conjunction_all_children_witness :
  ApplyValueFilter Sample.compare
    (ConjunctionAndFilter [ConstantFilter COMPARE_GREATERTHAN (VInteger 1);
                           ConstantFilter COMPARE_LESSTHAN (VInteger 10)])
    5 false INT4OID = Ok true
  /\ ApplyValueFilter Sample.compare
       (ConjunctionAndFilter [ConstantFilter COMPARE_GREATERTHAN (VInteger 1);
                              ConstantFilter COMPARE_LESSTHAN (VInteger 10)])
       15 false INT4OID = Ok false
  /\ (exists e,
       ApplyValueFilter Sample.compare
         (ConjunctionAndFilter [IsNullFilter; OtherFilter 0])
         5 false INT4OID = Err e).
Proof.
  split; [| split].
  - apply (proj1 (proj2 (and_conjunction_all_children Sample.compare
       [ConstantFilter COMPARE_GREATERTHAN (VInteger 1);
        ConstantFilter COMPARE_LESSTHAN (VInteger 10)] 5 false INT4OID))).
    repeat constructor.
  - apply (proj1 (proj2 (proj2 (proj2 (and_conjunction_all_children
       Sample.compare
       [ConstantFilter COMPARE_GREATERTHAN (VInteger 1);
        ConstantFilter COMPARE_LESSTHAN (VInteger 10)] 15 false INT4OID))))).
    + repeat constructor; eexists; reflexivity.
    + apply Exists_cons_tl, Exists_cons_hd. reflexivity.
  - apply (proj2 (proj2 (proj2 (proj2 (and_conjunction_all_children
       Sample.compare [IsNullFilter; OtherFilter 0] 5 false INT4OID))))
       (OtherFilter 0) AssertFailure).
    + right. left. reflexivity.
    + reflexivity.
Defined.

Lemma wrap_signed_unsigned : forall w z,
  1 <= w -> wrap_signed w (wrap_unsigned w z) = wrap_signed w z.
Proof.
  intros w z Hw. apply wrap_signed_congr. unfold wrap_unsigned.
  apply Z.mod_mod. pose proof (pow2_pos w ltac:(lia)). lia.
Qed.

Lemma wrap_unsigned_uint64 : forall w z,
  1 <= w <= 64 -> wrap_unsigned w (uint64 z) = wrap_unsigned w z.
Proof.
  intros w z Hw. unfold wrap_unsigned.
  rewrite <- (wrap_signed_mod w (uint64 z)) by lia.
  rewrite wrap_signed_uint64 by lia. apply wrap_signed_mod. lia.
Qed.

(** The datum the date case compares: the day count moved to the
    columnar epoch, at 32 bits. *)
Lemma date_datum_cast : forall F d,
  cast_datum F T_int32
    (to_Datum (int32 (uint64 (to_Datum d + PGDUCKDB_DUCK_DATE_OFFSET))))
  = int32 (d + PGDUCKDB_DUCK_DATE_OFFSET).
Proof.
  intros F d. unfold cast_datum, to_Datum, int32.
  rewrite wrap_signed_uint64 by lia.
  rewrite wrap_signed_idem by lia.
  apply (datum_add_trunc 32). lia.
Qed.

Lemma timestamp_datum_cast : forall F t,
  cast_datum F T_int64
    (to_Datum (int64 (uint64 (to_Datum t + PGDUCKDB_DUCK_TIMESTAMP_OFFSET))))
  = int64 (t + PGDUCKDB_DUCK_TIMESTAMP_OFFSET).
Proof.
  intros F t. unfold cast_datum, to_Datum, int64.
  rewrite wrap_signed_uint64 by lia.
  rewrite wrap_signed_idem by lia.
  apply (datum_add_trunc 64). lia.
Qed.

(** C9.  A constant comparison on a date (a timestamp) adds the epoch
    offset, 10957 days (10957 x 86,400,000,000 microseconds), to the raw
    row-store value, casts the sum to the 32-bit (64-bit) comparison type
    and compares it with the stored constant, which is a day
    (microsecond) count in the columnar epoch. *)
Theorem filter_date_timestamp_offset :
  forall F OP,
    (forall d constant,
        in_signed 32 d ->
        FilterOperationSwitch F OP (to_Datum d) constant DATEOID
        = Ok (int_operation OP (int32 (d + 10957))
                (GetValueUnsafe T_int32 constant)))
    /\ (forall d k,
        in_signed 32 d -> in_signed 32 k -> d + 10957 < 2 ^ 31 ->
        FilterOperationSwitch F OP (to_Datum d) (VDate k) DATEOID
        = Ok (int_operation OP (d + 10957) k))
    /\ (forall t constant,
        in_signed 64 t ->
        FilterOperationSwitch F OP (to_Datum t) constant TIMESTAMPOID
        = Ok (int_operation OP (int64 (t + 10957 * 86400000000))
                (GetValueUnsafe T_int64 constant)))
    /\ (forall t k,
        in_signed 64 t -> in_signed 64 k ->
        t + 10957 * 86400000000 < 2 ^ 63 ->
        FilterOperationSwitch F OP (to_Datum t) (VTimestamp k) TIMESTAMPOID
        = Ok (int_operation OP (t + 10957 * 86400000000) k)).
Proof.
  intros F OP.
  assert (Hd : forall d constant,
             FilterOperationSwitch F OP (to_Datum d) constant DATEOID
             = Ok (int_operation OP (int32 (d + 10957))
                     (GetValueUnsafe T_int32 constant))).
  { intros d constant.
    change (FilterOperationSwitch F OP (to_Datum d) constant DATEOID)
      with (Ok (int_operation OP
                  (cast_datum F T_int32
                     (to_Datum (int32 (uint64 (to_Datum d
                        + PGDUCKDB_DUCK_DATE_OFFSET)))))
                  (GetValueUnsafe T_int32 constant))).
    rewrite date_datum_cast. reflexivity. }
  assert (Ht : forall t constant,
             FilterOperationSwitch F OP (to_Datum t) constant TIMESTAMPOID
             = Ok (int_operation OP (int64 (t + 10957 * 86400000000))
                     (GetValueUnsafe T_int64 constant))).
  { intros t constant.
    change (FilterOperationSwitch F OP (to_Datum t) constant TIMESTAMPOID)
      with (Ok (int_operation OP
                  (cast_datum F T_int64
                     (to_Datum (int64 (uint64 (to_Datum t
                        + PGDUCKDB_DUCK_TIMESTAMP_OFFSET)))))
                  (GetValueUnsafe T_int64 constant))).
    rewrite timestamp_datum_cast. reflexivity. }
  split; [| split; [| split]].
  - intros d constant _. apply Hd.
  - intros d k Hdr Hk Hlt. rewrite Hd. do 2 f_equal.
    + apply wrap_signed_small; [lia |]. unfold in_signed in *. lia.
    + unfold GetValueUnsafe, value_union.
      rewrite wrap_signed_unsigned by lia.
      apply wrap_signed_small; [lia | exact Hk].
  - intros t constant _. apply Ht.
  - intros t k Htr Hk Hlt. rewrite Ht. do 2 f_equal.
    + apply wrap_signed_small; [lia |]. unfold in_signed in *. lia.
    + unfold GetValueUnsafe, value_union.
      rewrite wrap_signed_unsigned by lia.
      apply wrap_signed_small; [lia | exact Hk].
Qed.

Lemma filter_date_timestamp_offset_witness :
  FilterOperationSwitch Sample.compare Equals (to_Datum 8766) (VDate 19723)
    DATEOID = Ok true
  /\ FilterOperationSwitch Sample.compare LessThan (to_Datum (-1))
       (VTimestamp 946684800000000) TIMESTAMPOID = Ok true.
Proof.
  split.
  - rewrite (proj1 (proj2 (filter_date_timestamp_offset Sample.compare Equals))
               8766 19723) by (unfold in_signed; lia).
    reflexivity.
  - rewrite (proj2 (proj2 (proj2
               (filter_date_timestamp_offset Sample.compare LessThan)))
               (-1) 946684800000000) by (unfold in_signed; lia).
    reflexivity.
Defined.

(** C10.  For a CHAROID column the type mapping gives TINYINT and both
    converters read the value as a signed 8-bit integer, while the filter
    compares value and constant as unsigned 8-bit integers.  For a stored
    value with the high bit set (signed: negative) and a constant without
    it, the filter's less-than and greater-than are the unsigned ones and
    are the opposite of the signed comparison of the converted value. *)
Theorem char_filter_is_unsigned :
  forall F,
    (forall typmod,
        ConvertPostgresToDuckColumnType CHAROID typmod = Ok (plain TINYINT))
    /\ (forall fp h value vec offset,
        type_id (vec_type vec) = TINYINT ->
        ConvertPostgresToDuckValue fp h value vec offset
        = Append vec (CellInt8 (int8 value)) offset)
    /\ (forall h slot value col att,
        array_get (tts_attrs slot) col = Ok att ->
        atttypid att = CHAROID ->
        ConvertDuckToPostgresValue h slot value col
        = (z <- GetValue_int 8 value ;;
           s <- store_value slot col (to_Datum z) ;; Ok (h, s)))
    /\ (forall OP value constant,
        FilterOperationSwitch F OP value constant CHAROID
        = Ok (int_operation OP (uint8 value)
                (uint8 (value_union constant))))
    /\ (forall s c,
        -128 <= s < 0 -> 0 <= c < 128 ->
        int8 (to_Datum s) = s
        /\ uint8 (to_Datum s) = s + 256
        /\ FilterOperationSwitch F LessThan (to_Datum s) (VTinyInt c) CHAROID
           = Ok false
        /\ (int8 (to_Datum s) <? c) = true
        /\ FilterOperationSwitch F GreaterThan (to_Datum s) (VTinyInt c)
             CHAROID = Ok true
        /\ (int8 (to_Datum s) >? c) = false).
Proof.
  intros F.
  assert (Hf : forall OP value constant,
             FilterOperationSwitch F OP value constant CHAROID
             = Ok (int_operation OP (uint8 value)
                     (uint8 (value_union constant)))).
  { intros OP value constant. reflexivity. }
  split; [reflexivity |].
  split.
  { intros fp h value vec offset Ht. unfold ConvertPostgresToDuckValue.
    rewrite Ht. reflexivity. }
  split.
  { intros h slot value col att Hatt Ht. unfold ConvertDuckToPostgresValue.
    rewrite Hatt. simpl. rewrite Ht. reflexivity. }
  split; [exact Hf |].
  intros s c Hs Hc.
  assert (Hi : int8 (to_Datum s) = s).
  { unfold int8, to_Datum. rewrite wrap_signed_uint64 by lia.
    apply wrap_signed_small; [lia |]. unfold in_signed. lia. }
  assert (Hu : uint8 (to_Datum s) = s + 256).
  { unfold uint8, to_Datum. rewrite wrap_unsigned_uint64 by lia.
    unfold wrap_unsigned.
    replace s with ((s + 256) + (-1) * 2 ^ 8) at 1 by lia.
    rewrite Z.mod_add by lia. apply Z.mod_small. lia. }
  assert (Hk : uint8 (value_union (VTinyInt c)) = c).
  { simpl. unfold uint8, wrap_unsigned.
    rewrite Z.mod_mod by lia. apply Z.mod_small. lia. }
  rewrite !Hf, Hu, Hk, Hi. simpl.
  repeat split; try reflexivity.
  - f_equal. apply Z.ltb_ge. lia.
  - apply Z.ltb_lt. lia.
  - f_equal. apply Z.gtb_lt. lia.
  - rewrite Z.gtb_ltb. apply Z.ltb_ge. lia.
Qed.

Lemma char_filter_is_unsigned_witness :
  int8 (to_Datum (-1)) = -1
  /\ uint8 (to_Datum (-1)) = 255
  /\ FilterOperationSwitch Sample.compare LessThan (to_Datum (-1))
       (VTinyInt 1) CHAROID = Ok false
  /\ (int8 (to_Datum (-1)) <? 1) = true
  /\ ConvertDuckToPostgresValue [] (Sample.slot1 CHAROID 1 true)
       (VTinyInt (-1)) 0
     = Ok ([], mkSlot [Sample.attribute CHAROID 1 true] [to_Datum (-1)]).
Proof.
  pose proof (char_filter_is_unsigned Sample.compare)
    as [_ [_ [Hrow [_ Hcmp]]]].
  destruct (Hcmp (-1) 1 ltac:(lia) ltac:(lia)) as [H1 [H2 [H3 [H4 _]]]].
  split; [exact H1 |]. split; [exact H2 |]. split; [exact H3 |].
  split; [exact H4 |].
  rewrite (Hrow [] (Sample.slot1 CHAROID 1 true) (VTinyInt (-1)) 0
             (Sample.attribute CHAROID 1 true) eq_refl eq_refl).
  reflexivity.
Defined.

(* ================================================================== *)
(** * Properties: tuple reader *)
(* ================================================================== *)

Lemma bind_Ok : forall (A B : Type) (r : outcome A) (k : A -> outcome B) b,
  bind r k = Ok b -> exists a, r = Ok a /\ k a = Ok b.
Proof.
  intros A B r k b H. destruct r as [a | e]; simpl in H.
  - exists a. split; [reflexivity | exact H].
  - discriminate H.
Qed.

Lemma array_get_Ok : forall (A : Type) (l : list A) i x,
  array_get l i = Ok x -> 0 <= i /\ nth_error l (Z.to_nat i) = Some x.
Proof.
  intros A l i x H. unfold array_get in H.
  destruct (i <? 0) eqn:E; [discriminate H |].
  apply Z.ltb_ge in E.
  destruct (nth_error l (Z.to_nat i)) as [y |]; [| discriminate H].
  injection H as H. subst. split; [exact E | reflexivity].
Qed.

Lemma nth_error_list_set_other : forall (A : Type) (l : list A) i j x,
  i <> j -> nth_error (list_set l i x) j = nth_error l j.
Proof.
  intros A l. induction l as [| a l IH]; intros i j x Hij; simpl.
  - reflexivity.
  - destruct i as [| i']; destruct j as [| j']; simpl; try reflexivity.
    + congruence.
    + apply IH. congruence.
Qed.

Lemma array_set_get_other : forall (A : Type) (l l' : list A) i j x,
  array_set l i x = Ok l' -> i <> j -> array_get l' j = array_get l j.
Proof.
  intros A l l' i j x H Hij. unfold array_set in H.
  destruct ((0 <=? i) && (i <? Z.of_nat (length l))) eqn:E;
    [| discriminate H].
  injection H as H. subst l'.
  apply andb_true_iff in E. destruct E as [E0 _]. apply Z.leb_le in E0.
  unfold array_get. destruct (j <? 0) eqn:Ej; [reflexivity |].
  apply Z.ltb_ge in Ej.
  rewrite nth_error_list_set_other by lia. reflexivity.
Qed.

Lemma list_set_shape : forall l i a x,
  nth_error l i = Some a -> att_shape x = att_shape a ->
  map att_shape (list_set l i x) = map att_shape l.
Proof.
  induction l as [| b l IH]; intros i a x Hn Hs; simpl.
  - reflexivity.
  - destruct i as [| i']; simpl in *.
    + injection Hn as Hn. subst. rewrite Hs. reflexivity.
    + f_equal. eapply IH; eassumption.
Qed.

Lemma array_get_shape : forall l l' j,
  map att_shape l' = map att_shape l ->
  att_not_fixed l j -> att_not_fixed l' j.
Proof.
  intros l l' j Hm [a [Ha Hlen]].
  apply array_get_Ok in Ha. destruct Ha as [Hj Hn].
  assert (Hs : nth_error (map att_shape l') (Z.to_nat j)
               = Some (att_shape a))
    by (rewrite Hm; apply map_nth_error; exact Hn).
  rewrite nth_error_map in Hs.
  destruct (nth_error l' (Z.to_nat j)) as [a' |] eqn:E; [| discriminate Hs].
  injection Hs as Hs.
  exists a'. split.
  - unfold array_get. apply Z.ltb_ge in Hj. rewrite Hj, E. reflexivity.
  - unfold att_shape in Hs. inversion Hs. lia.
Qed.

Section ReaderFacts.

Variable M : TupleMacros.
Variable tuple : HeapTupleData.

(** Where the loop body leaves the offset, the slow flag and the
    descriptor before it fetches the value. *)
Lemma locate_facts : forall attnum s thisatt off slow ats,
  (if negb (l_slow s) && (attcacheoff thisatt >=? 0) then
     Ok (uint32 (attcacheoff thisatt), l_slow s, l_attrs s)
   else if attlen thisatt =? -1 then
     if negb (l_slow s)
        && (l_off s =? att_align_nominal M (l_off s) (attalign thisatt))
     then
       ats <- array_set (l_attrs s) attnum
                (set_attcacheoff thisatt (int32 (l_off s))) ;;
       Ok (l_off s, l_slow s, ats)
     else
       o <- att_align_pointer M (l_off s) (attalign thisatt) (-1)
              (tp_at tuple (l_off s)) ;;
       Ok (uint32 o, true, l_attrs s)
   else
     let off := uint32 (att_align_nominal M (l_off s) (attalign thisatt)) in
     if negb (l_slow s) then
       ats <- array_set (l_attrs s) attnum
                (set_attcacheoff thisatt (int32 off)) ;;
       Ok (off, l_slow s, ats)
     else Ok (off, l_slow s, l_attrs s)) = Ok (off, slow, ats) ->
  (ats = l_attrs s
   \/ (l_slow s = false
       /\ exists o, array_set (l_attrs s) attnum (set_attcacheoff thisatt o)
                    = Ok ats))
  /\ (l_slow s = true -> slow = true /\ ats = l_attrs s).
Proof.
  intros attnum s thisatt off slow ats H.
  destruct (l_slow s) eqn:Es; simpl in H.
  - (* slow mode: no branch writes the cache *)
    assert (Hr : slow = true /\ ats = l_attrs s).
    { destruct (attlen thisatt =? -1).
      - apply bind_Ok in H. destruct H as [o [_ H]].
        injection H as _ H1 H2. subst. split; reflexivity.
      - injection H as _ H1 H2. subst. split; reflexivity. }
    split; [left; apply Hr | intros _; exact Hr].
  - split; [| intros Hc; discriminate Hc].
    destruct (attcacheoff thisatt >=? 0).
    + injection H as _ _ H. left. symmetry. exact H.
    + destruct (attlen thisatt =? -1).
      * destruct (l_off s =? att_align_nominal M (l_off s)
                               (attalign thisatt)).
        -- apply bind_Ok in H. destruct H as [ats' [Hset H]].
           injection H as _ _ H. subst ats'.
           right. split; [reflexivity |]. eexists. exact Hset.
        -- apply bind_Ok in H. destruct H as [o [_ H]].
           injection H as _ _ H. left. symmetry. exact H.
      * apply bind_Ok in H. destruct H as [ats' [Hset H]].
        injection H as _ _ H. subst ats'.
        right. split; [reflexivity |]. eexists. exact Hset.
Qed.

(** What one iteration of the attribute loop does to the slow flag and
    to the descriptor. *)
Lemma fetch_attribute_facts : forall attnum s s',
  fetch_attribute M tuple attnum s = Ok s' ->
  exists thisatt,
    array_get (l_attrs s) attnum = Ok thisatt
    /\ (l_attrs s' = l_attrs s
        \/ (l_slow s = false
            /\ exists o,
                array_set (l_attrs s) attnum (set_attcacheoff thisatt o)
                = Ok (l_attrs s')))
    /\ (l_slow s = true -> l_slow s' = true /\ l_attrs s' = l_attrs s)
    /\ (tuple_att_null tuple attnum -> l_slow s' = true)
    /\ (attlen thisatt <= 0 -> l_slow s' = true).
Proof.
  intros attnum s s' H. unfold fetch_attribute in H.
  apply bind_Ok in H. destruct H as [thisatt [Ha H]].
  exists thisatt. split; [exact Ha |].
  apply bind_Ok in H. destruct H as [null [Hn H]].
  destruct null.
  - injection H as H. subst s'. simpl.
    repeat split; auto.
  - apply bind_Ok in H. destruct H as [[[off slow] ats] [Hl H]].
    apply bind_Ok in H. destruct H as [value [_ H]].
    apply bind_Ok in H. destruct H as [o [_ H]].
    injection H as H. subst s'. simpl.
    apply locate_facts in Hl. destruct Hl as [Hw Hs].
    split; [exact Hw |]. split; [| split].
    + intros Hslow. destruct (Hs Hslow) as [H1 H2]. subst.
      split; [destruct (attlen thisatt <=? 0) | ]; reflexivity.
    + intros [Hhas Hnull]. rewrite Hhas, Hnull in Hn. discriminate Hn.
    + intros Hlen. apply Z.leb_le in Hlen. rewrite Hlen. reflexivity.
Qed.

Lemma fetch_attribute_frame : forall attnum s s',
  fetch_attribute M tuple attnum s = Ok s' ->
  map att_shape (l_attrs s') = map att_shape (l_attrs s)
  /\ (forall i, i <> attnum ->
                array_get (l_attrs s') i = array_get (l_attrs s) i).
Proof.
  intros attnum s s' H.
  destruct (fetch_attribute_facts attnum s s' H)
    as [thisatt [Ha [[Hw | [_ [o Hw]]] _]]].
  - rewrite Hw. split; [reflexivity | intros; reflexivity].
  - split.
    + apply array_get_Ok in Ha. destruct Ha as [_ Hn].
      unfold array_set in Hw.
      destruct ((0 <=? attnum)
                && (attnum <? Z.of_nat (length (l_attrs s))));
        [| discriminate Hw].
      injection Hw as Hw. rewrite <- Hw.
      eapply list_set_shape; [exact Hn | reflexivity].
    + intros i Hi. eapply array_set_get_other; [exact Hw | congruence].
Qed.

Lemma fetch_attribute_breaks : forall attnum s s',
  fetch_attribute M tuple attnum s = Ok s' ->
  breaks_offsets tuple (l_attrs s) attnum -> l_slow s' = true.
Proof.
  intros attnum s s' H Hb.
  destruct (fetch_attribute_facts attnum s s' H)
    as [thisatt [Ha [_ [_ [Hnull Hlen]]]]].
  destruct Hb as [Hb | [a [Ha' Hl]]].
  - apply Hnull. exact Hb.
  - rewrite Ha in Ha'. injection Ha' as Ha'. subst a.
    apply Hlen. exact Hl.
Qed.

(** Once the loop is in slow mode it stays there and leaves the
    descriptor alone. *)
Lemma fetch_loop_slow : forall n attnum s s',
  fetch_loop M tuple n attnum s = Ok s' ->
  l_slow s = true -> l_slow s' = true /\ l_attrs s' = l_attrs s.
Proof.
  induction n as [| n IH]; intros attnum s s' H Hs; simpl in H.
  - injection H as H. subst. split; [exact Hs | reflexivity].
  - apply bind_Ok in H. destruct H as [s1 [H1 H]].
    destruct (fetch_attribute_facts attnum s s1 H1)
      as [_ [_ [_ [Hk _]]]].
    destruct (Hk Hs) as [Hs1 Ha1].
    destruct (IH _ _ _ H Hs1) as [Hs' Ha']. split; congruence.
Qed.

Lemma fetch_loop_frame : forall n attnum s s',
  fetch_loop M tuple n attnum s = Ok s' ->
  map att_shape (l_attrs s') = map att_shape (l_attrs s)
  /\ (forall i, i < attnum \/ attnum + Z.of_nat n <= i ->
                array_get (l_attrs s') i = array_get (l_attrs s) i).
Proof.
  induction n as [| n IH]; intros attnum s s' H; simpl in H.
  - injection H as H. subst. split; [reflexivity | intros; reflexivity].
  - apply bind_Ok in H. destruct H as [s1 [H1 H]].
    destruct (fetch_attribute_frame _ _ _ H1) as [Hm1 Hf1].
    destruct (IH _ _ _ H) as [Hm Hf]. split; [congruence |].
    intros i Hi. rewrite Hf by lia. apply Hf1. lia.
Qed.

(** An attribute that is null or not of fixed length puts the loop in
    slow mode, and no attribute after it has its cached offset
    written. *)
Lemma fetch_loop_breaks : forall n attnum s s' j,
  fetch_loop M tuple n attnum s = Ok s' ->
  attnum <= j < attnum + Z.of_nat n ->
  breaks_offsets tuple (l_attrs s) j ->
  l_slow s' = true
  /\ (forall i, j < i ->
                array_get (l_attrs s') i = array_get (l_attrs s) i).
Proof.
  induction n as [| n IH]; intros attnum s s' j H Hj Hb; simpl in H.
  - lia.
  - apply bind_Ok in H. destruct H as [s1 [H1 H]].
    destruct (fetch_attribute_frame _ _ _ H1) as [Hm1 Hf1].
    destruct (Z.eq_dec j attnum) as [-> | Hne].
    + pose proof (fetch_attribute_breaks _ _ _ H1 Hb) as Hs1.
      destruct (fetch_loop_slow _ _ _ _ H Hs1) as [Hs' Ha'].
      split; [exact Hs' |].
      intros i Hi. rewrite Ha'. apply Hf1. lia.
    + assert (Hb1 : breaks_offsets tuple (l_attrs s1) j).
      { destruct Hb as [Hb | Hb]; [left; exact Hb | right].
        eapply array_get_shape; eassumption. }
      destruct (IH (attnum + 1) s1 s' j H ltac:(lia) Hb1) as [Hs' Hf].
      split; [exact Hs' |].
      intros i Hi. rewrite Hf by exact Hi. apply Hf1. lia.
Qed.

(** One call of the reader. *)
Lemma fetch_call_facts :
  forall tupleDesc st natts isNull value isNull' st' tupleDesc',
    HeapTupleFetchNextDatumValue M tuple tupleDesc st natts isNull
    = Ok (value, isNull', st', tupleDesc') ->
    let k := Z.min (HeapTupleHeaderGetNatts (t_data tuple)) natts in
    m_nvalid st' = Z.max (m_nvalid st) k
    /\ map att_shape (attrs tupleDesc') = map att_shape (attrs tupleDesc)
    /\ (forall i, i < m_nvalid st \/ k <= i ->
          array_get (attrs tupleDesc') i = array_get (attrs tupleDesc) i)
    /\ (m_nvalid st <> 0 -> m_slow st = true ->
        m_slow st' = true /\ attrs tupleDesc' = attrs tupleDesc)
    /\ (forall j, m_nvalid st <= j < k ->
          breaks_offsets tuple (attrs tupleDesc) j ->
          m_slow st' = true
          /\ (forall i, j < i ->
                array_get (attrs tupleDesc') i
                = array_get (attrs tupleDesc) i)).
Proof.
  intros tupleDesc st natts isNull value isNull' st' tupleDesc' H k.
  unfold HeapTupleFetchNextDatumValue in H. fold k in H.
  destruct (m_nvalid st =? 0) eqn:E0.
  - apply bind_Ok in H. destruct H as [s [Hl H]].
    injection H as _ _ Hst Hd. subst st' tupleDesc'. simpl.
    apply Z.eqb_eq in E0.
    destruct (fetch_loop_frame _ _ _ _ Hl) as [Hm Hf]. simpl in Hm, Hf.
    split; [reflexivity |]. split; [exact Hm |].
    split; [intros i Hi; apply Hf; lia |].
    split; [intros Hn; contradiction |].
    intros j Hj Hb.
    apply (fetch_loop_breaks _ _ _ _ j Hl); [lia | exact Hb].
  - apply bind_Ok in H. destruct H as [s [Hl H]].
    injection H as _ _ Hst Hd. subst st' tupleDesc'. simpl.
    destruct (fetch_loop_frame _ _ _ _ Hl) as [Hm Hf]. simpl in Hm, Hf.
    split; [reflexivity |]. split; [exact Hm |].
    split; [intros i Hi; apply Hf; lia |].
    split.
    + intros _ Hs. apply (fetch_loop_slow _ _ _ _ Hl). exact Hs.
    + intros j Hj Hb.
      apply (fetch_loop_breaks _ _ _ _ j Hl); [lia | exact Hb].
Qed.

End ReaderFacts.

Section RowFacts.

Variable M : TupleMacros.
Variable fp : DoubleHost.
Variable h : Heap.
Variable slot : HeapTupleData.
Variable offset : Z.

Let k := HeapTupleHeaderGetNatts (t_data slot).

Lemma insert_column_fetch : forall i output tupleDesc st output' tupleDesc' st',
  insert_column M fp h slot offset i (output, tupleDesc, st)
  = Ok (output', tupleDesc', st') ->
  exists value isNull,
    HeapTupleFetchNextDatumValue M slot tupleDesc st (i + 1) false
    = Ok (value, isNull, st', tupleDesc').
Proof.
  intros i output tupleDesc st output' tupleDesc' st' H.
  unfold insert_column in H.
  apply bind_Ok in H. destruct H as [result [_ H]].
  apply bind_Ok in H. destruct H as [[[[value isNull] st1] desc1] [Hf H]].
  apply bind_Ok in H. destruct H as [result' [_ H]].
  apply bind_Ok in H. destruct H as [output1 [_ H]].
  injection H as _ Hd Hs. subst.
  exists value, isNull. exact Hf.
Qed.

(** Once a call has left the row in slow mode, the rest of the row
    leaves the descriptor alone. *)
Lemma insert_loop_slow : forall n i output tupleDesc st output' tupleDesc' st',
  insert_loop M fp h slot offset n i (output, tupleDesc, st)
  = Ok (output', tupleDesc', st') ->
  0 < m_nvalid st -> m_slow st = true ->
  attrs tupleDesc' = attrs tupleDesc.
Proof.
  induction n as [| n IH];
    intros i output tupleDesc st output' tupleDesc' st' H Hv Hs;
    simpl in H.
  - injection H as _ Hd _. subst. reflexivity.
  - apply bind_Ok in H. destruct H as [[[output1 desc1] st1] [H1 H]].
    apply insert_column_fetch in H1. destruct H1 as [value [isNull H1]].
    destruct (fetch_call_facts _ _ _ _ _ _ _ _ _ _ H1)
      as [Hn [_ [_ [Hk _]]]].
    destruct (Hk ltac:(lia) Hs) as [Hs1 Ha1].
    rewrite (IH _ _ _ _ _ _ _ H ltac:(lia) Hs1). exact Ha1.
Qed.

(** The column loop reads attribute [i] in its [i]-th round; an
    attribute that is null or not of fixed length keeps the cached
    offsets of all later attributes as they were. *)
Lemma insert_loop_breaks :
  forall n i output tupleDesc st output' tupleDesc' st' j,
    insert_loop M fp h slot offset n i (output, tupleDesc, st)
    = Ok (output', tupleDesc', st') ->
    0 <= i -> m_nvalid st = Z.min i k ->
    i <= j < i + Z.of_nat n -> j < k ->
    breaks_offsets slot (attrs tupleDesc) j ->
    forall x, j < x ->
      array_get (attrs tupleDesc') x = array_get (attrs tupleDesc) x.
Proof.
  induction n as [| n IH];
    intros i output tupleDesc st output' tupleDesc' st' j H Hi Hv Hj Hjk Hb
           x Hx;
    simpl in H.
  - lia.
  - apply bind_Ok in H. destruct H as [[[output1 desc1] st1] [H1 H]].
    apply insert_column_fetch in H1. destruct H1 as [value [isNull H1]].
    destruct (fetch_call_facts _ _ _ _ _ _ _ _ _ _ H1)
      as [Hn [Hm [Hf [_ Hbr]]]].
    fold k in Hn, Hf, Hbr.
    destruct (Z.eq_dec j i) as [-> | Hne].
    + destruct (Hbr i ltac:(lia) Hb) as [Hs1 Hx1].
      rewrite (insert_loop_slow _ _ _ _ _ _ _ _ H ltac:(lia) Hs1).
      apply Hx1. exact Hx.
    + assert (Hb1 : breaks_offsets slot (attrs desc1) j).
      { destruct Hb as [Hb | Hb]; [left; exact Hb | right].
        eapply array_get_shape; eassumption. }
      rewrite (IH (i + 1) output1 desc1 st1 output' tupleDesc' st' j H
                 ltac:(lia) ltac:(lia) ltac:(lia) Hjk Hb1 x Hx).
      apply Hf. lia.
Qed.

End RowFacts.

(** C5.  While a row is decoded: an attribute reached in slow mode
    leaves the loop in slow mode and writes no cached offset; a null
    attribute, and an attribute of variable or other non-positive length,
    leaves the loop in slow mode; a call that resumes a row in slow mode
    ends in slow mode with the descriptor untouched; and over the whole
    row, the cached offset of every attribute after a null or non-fixed
    one is never written. *)
Theorem slow_mode_guards_offset_cache :
  forall M tuple,
    (forall attnum s s',
        fetch_attribute M tuple attnum s = Ok s' ->
        (l_slow s = true -> l_slow s' = true /\ l_attrs s' = l_attrs s)
        /\ (breaks_offsets tuple (l_attrs s) attnum -> l_slow s' = true))
    /\ (forall tupleDesc st natts isNull value isNull' st' tupleDesc',
        HeapTupleFetchNextDatumValue M tuple tupleDesc st natts isNull
        = Ok (value, isNull', st', tupleDesc') ->
        (m_nvalid st <> 0 -> m_slow st = true ->
         m_slow st' = true /\ attrs tupleDesc' = attrs tupleDesc)
        /\ (forall j,
             m_nvalid st <= j
             < Z.min (HeapTupleHeaderGetNatts (t_data tuple)) natts ->
             breaks_offsets tuple (attrs tupleDesc) j ->
             m_slow st' = true
             /\ (forall i, j < i ->
                   array_get (attrs tupleDesc') i
                   = array_get (attrs tupleDesc) i)))
    /\ (forall fp h offset output tupleDesc output' tupleDesc',
        InsertTupleIntoChunk M fp h tuple offset output tupleDesc
        = Ok (output', tupleDesc') ->
        forall j,
          0 <= j < Z.min (natts tupleDesc)
                         (HeapTupleHeaderGetNatts (t_data tuple)) ->
          breaks_offsets tuple (attrs tupleDesc) j ->
          forall i, j < i ->
            array_get (attrs tupleDesc') i = array_get (attrs tupleDesc) i).
Proof.
  intros M tuple. split; [| split].
  - intros attnum s s' H. split.
    + destruct (fetch_attribute_facts M tuple attnum s s' H)
        as [_ [_ [_ [Hk _]]]]. exact Hk.
    + apply fetch_attribute_breaks with (M := M). exact H.
  - intros tupleDesc st natts isNull value isNull' st' tupleDesc' H.
    destruct (fetch_call_facts _ _ _ _ _ _ _ _ _ _ H)
      as [_ [_ [_ [Hk Hb]]]].
    split; assumption.
  - intros fp h offset output tupleDesc output' tupleDesc' H j Hj Hb i Hi.
    unfold InsertTupleIntoChunk in H.
    apply bind_Ok in H. destruct H as [[[output1 desc1] st1] [H1 H]].
    injection H as _ Hd. simpl in Hd. subst desc1.
    apply (insert_loop_breaks M fp h tuple offset _ _ _ _ _ _ _ _ j H1);
      simpl; try lia; assumption.
Qed.

Lemma slow_mode_guards_offset_cache_witness :
  exists output' tupleDesc',
    InsertTupleIntoChunk Tupmacs.pg_tupmacs Sample.host Sample.heap3
      Sample.tuple3 0 Sample.chunk3 Sample.desc3 = Ok (output', tupleDesc')
    /\ breaks_offsets Sample.tuple3 (attrs Sample.desc3) 1
    /\ array_get (attrs tupleDesc') 2 = array_get (attrs Sample.desc3) 2
    /\ option_map attcacheoff (nth_error (attrs tupleDesc') 0) = Some 0.
Proof.
  assert (Hb : breaks_offsets Sample.tuple3 (attrs Sample.desc3) 1)
    by (left; split; reflexivity).
  eexists. eexists. split; [vm_compute; reflexivity |].
  split; [exact Hb |]. split; [| reflexivity].
  refine (proj2 (proj2 (slow_mode_guards_offset_cache Tupmacs.pg_tupmacs
                          Sample.tuple3))
            Sample.host Sample.heap3 0 Sample.chunk3 Sample.desc3 _ _ _
            1 _ Hb 2 _).
  - vm_compute. reflexivity.
  - vm_compute. split; [discriminate | reflexivity].
  - lia.
Defined.

(** A request beyond the attributes the tuple has, once those have been
    read: the request is cut down to the tuple's count, the loop does not
    run, no byte of the tuple is read, and the caller gets the datum 0
    with its null flag as it passed it in. *)
Lemma fetch_beyond_tuple : forall M tuple tupleDesc st natts isNull,
  m_nvalid st = HeapTupleHeaderGetNatts (t_data tuple) ->
  m_nvalid st <> 0 ->
  m_nvalid st <= natts ->
  HeapTupleFetchNextDatumValue M tuple tupleDesc st natts isNull
  = Ok (0, isNull, st, tupleDesc).
Proof.
  intros M tuple tupleDesc st natts isNull Hk Hnz Hle.
  unfold HeapTupleFetchNextDatumValue.
  rewrite <- Hk. rewrite Z.min_l by exact Hle.
  apply Z.eqb_neq in Hnz. rewrite Hnz.
  rewrite Z.sub_diag. simpl. rewrite Z.max_id.
  destruct st, tupleDesc. reflexivity.
Qed.

(** C3, on the code.  Five attributes are requested of a tuple that has
    three.  The calls for attributes 3 and 4 return the datum 0 with the
    null flag false, and the chunk receives the integer 0, marked valid,
    in columns 3 and 4: the attributes the tuple lacks are not reported
    as null. *)
Theorem truncated_request_is_not_null :
  HeapTupleFetchNextDatumValue Tupmacs.pg_tupmacs Sample.tuple5 Sample.desc5
    (mkReadState false 3 12) 4 false
  = Ok (0, false, mkReadState false 3 12, Sample.desc5)
  /\ HeapTupleFetchNextDatumValue Tupmacs.pg_tupmacs Sample.tuple5
       Sample.desc5 (mkReadState false 3 12) 5 false
     = Ok (0, false, mkReadState false 3 12, Sample.desc5)
  /\ exists output' tupleDesc',
       InsertTupleIntoChunk Tupmacs.pg_tupmacs Sample.host []
         Sample.tuple5 0 Sample.chunk5 Sample.desc5
       = Ok (output', tupleDesc')
       /\ map vec_data output'
          = [[CellInt32 7]; [CellInt32 8]; [CellInt32 9];
             [CellInt32 0]; [CellInt32 0]]
       /\ map vec_validity output'
          = [[true]; [true]; [true]; [true]; [true]].
Proof.
  split; [| split].
  - apply fetch_beyond_tuple; [reflexivity | discriminate | simpl; lia].
  - apply fetch_beyond_tuple; [reflexivity | discriminate | simpl; lia].
  - eexists. eexists. split; [vm_compute; reflexivity |].
    split; reflexivity.
Qed.

(* ================================================================== *)
(** * Properties: decimal codec *)
(* ================================================================== *)

(** From 16 bits on, a digit group, the base and the powers of ten up to
    the base are representable. *)
Lemma wrap_signed_small16 : forall w z,
  16 <= w -> 0 <= z <= 10000 -> wrap_signed w z = z.
Proof.
  intros w z Hw Hz. apply wrap_signed_small; [lia |].
  unfold in_signed.
  assert (2 ^ 15 <= 2 ^ (w - 1)) by (apply Z.pow_le_mono_r; lia).
  lia.
Qed.

Lemma be_value_app : forall a b,
  be_value (a ++ b)
  = be_value a * NBASE ^ Z.of_nat (length b) + be_value b.
Proof.
  induction a as [| d a IH]; intros b; simpl be_value.
  - lia.
  - rewrite IH, length_app, Nat2Z.inj_add, Z.pow_add_r by lia. ring.
Qed.

Lemma be_value_snoc : forall a d,
  be_value (a ++ [d]) = be_value a * NBASE + d.
Proof.
  intros a d. rewrite be_value_app. simpl. unfold NBASE. lia.
Qed.

(** The digit at a position, as the array read of the code delivers it. *)
Lemma array_get_skipn : forall (A : Type) (l : list A) (i : nat) x t,
  skipn i l = x :: t ->
  array_get l (Z.of_nat i) = Ok x /\ skipn (S i) l = t
  /\ (i < length l)%nat.
Proof.
  intros A l. induction l as [| a l IH]; intros i x t H.
  - rewrite skipn_nil in H. discriminate H.
  - destruct i as [| i].
    + simpl in H. injection H as H1 H2. subst.
      split; [reflexivity | split; [reflexivity | simpl; lia]].
    + simpl skipn in H. destruct (IH i x t H) as [Hg [Hs Hl]].
      split; [| split; [exact Hs | simpl; lia]].
      unfold array_get in *.
      destruct (Z.of_nat i <? 0) eqn:E; [discriminate Hg |].
      assert (E' : (Z.of_nat (S i) <? 0) = false) by (apply Z.ltb_ge; lia).
      rewrite E'. rewrite Nat2Z.id in *. simpl. exact Hg.
Qed.

Lemma firstn_succ_snoc : forall (A : Type) (l : list A) (i : nat) x t,
  skipn i l = x :: t -> firstn (S i) l = firstn i l ++ [x].
Proof.
  intros A l. induction l as [| a l IH]; intros i x t H.
  - rewrite skipn_nil in H. discriminate H.
  - destruct i as [| i].
    + simpl in H. injection H as H1 _. subst. reflexivity.
    + simpl skipn in H. simpl. f_equal. eapply IH. exact H.
Qed.

(** One more position of the prefix: the accumulated value times the
    base, plus the digit there, if any. *)
Lemma prefix_value_step : forall ds (i : nat),
  prefix_value ds (Z.of_nat i + 1)
  = prefix_value ds (Z.of_nat i) * NBASE
    + match nth_error ds i with Some d => d | None => 0 end.
Proof.
  intros ds i. unfold prefix_value.
  replace (Z.to_nat (Z.of_nat i + 1)) with (S i) by lia.
  rewrite Nat2Z.id.
  destruct (nth_error ds i) as [d |] eqn:E.
  - assert (Hlt : (i < length ds)%nat)
      by (apply nth_error_Some; congruence).
    destruct (skipn i ds) as [| x t] eqn:Es.
    { pose proof (length_skipn i ds) as Hl. rewrite Es in Hl.
      simpl in Hl. lia. }
    rewrite (firstn_succ_snoc _ _ _ _ _ Es), be_value_snoc.
    assert (x = d).
    { destruct (array_get_skipn _ _ _ _ _ Es) as [Hg _].
      unfold array_get in Hg.
      destruct (Z.of_nat i <? 0); [discriminate Hg |].
      rewrite Nat2Z.id, E in Hg. injection Hg as Hg. congruence. }
    subst x.
    rewrite !Z.min_l by lia.
    replace (Z.of_nat i + 1 - (Z.of_nat i + 1)) with 0 by lia.
    replace (Z.of_nat i - Z.of_nat i) with 0 by lia.
    rewrite Z.pow_0_r. ring.
  - apply nth_error_None in E.
    rewrite !firstn_all2 by lia.
    rewrite !Z.min_r by lia.
    replace (Z.of_nat i + 1 - Z.of_nat (length ds))
      with (Z.succ (Z.of_nat i - Z.of_nat (length ds))) by lia.
    rewrite Z.pow_succ_r by lia. ring.
Qed.

Lemma bind_Ok_l : forall (A B : Type) (a : A) (k : A -> outcome B),
  bind (Ok a) k = k a.
Proof. reflexivity. Qed.

Lemma bind_ret : forall (A : Type) (r : outcome A), bind r Ok = r.
Proof. intros A r. destruct r; reflexivity. Qed.

Lemma pow10_pos : forall k, 0 <= k -> 0 < 10 ^ k.
Proof. intros k Hk. apply Z.pow_pos_nonneg; lia. Qed.

Lemma NBASE_pow : forall k, 0 <= k -> NBASE ^ k = 10 ^ (4 * k).
Proof.
  intros k Hk. unfold NBASE. change 10000 with (10 ^ 4).
  rewrite <- Z.pow_mul_r by lia. reflexivity.
Qed.

Lemma last_skipn : forall (A : Type) (l : list A) k d,
  (k < length l)%nat -> last (skipn k l) d = last l d.
Proof.
  intros A l. induction l as [| a l IH]; intros k d Hk; simpl in Hk.
  - lia.
  - destruct k as [| k]; [reflexivity |].
    simpl skipn. rewrite IH by lia.
    destruct l as [| b l]; [simpl in Hk; lia | reflexivity].
Qed.

Lemma last_in_range : forall (P : Z -> Prop) l,
  Forall P l -> l <> [] -> P (last l 0).
Proof.
  intros P l H Hne. rewrite Forall_forall in H. apply H.
  destruct l as [| a l]; [contradiction |].
  rewrite (app_removelast_last 0 Hne) at 2.
  apply in_or_app. right. left. reflexivity.
Qed.

Lemma fractional_loop_S :
  forall (T : Type) (A : Arith T) (OP : DecimalConversion T) numeric c m i X,
    fractional_loop A OP numeric c (S m) i X
    = (d <- array_get (digits numeric) i ;;
       fractional_part <-
         (if int32 (i + 1) <? ndigits numeric
          then Ok (t_add A (t_mul A X (of_int A NBASE)) (of_int A d))
          else compensate A OP c X d) ;;
       fractional_loop A OP numeric c m (i + 1) fractional_part).
Proof. reflexivity. Qed.

Section IntegerPolicy.

Variable w : Z.
Variable OP : DecimalConversion Z.
Variable n : NumericVar.

Hypothesis width : 16 <= w.
Hypothesis power_of_ten : forall k,
  0 <= k < 19 -> GetPowerOfTen OP k = Ok (wrap_signed w (10 ^ k)).
Hypothesis count : ndigits n = Z.of_nat (length (digits n)).
Hypothesis count_bound : ndigits n < 2 ^ 15.

Lemma uint64_ndigits : uint64 (ndigits n) = ndigits n.
Proof.
  apply uint64_small. rewrite count in *. lia.
Qed.

(** The integral loop accumulates the prefix of the numeral, modulo
    [2^w]. *)
Lemma integral_loop_prefix : forall cnt (i : nat),
  integral_loop (IntArith w) n cnt (Z.of_nat i)
                (wrap_signed w (prefix_value (digits n) (Z.of_nat i)))
  = Ok (wrap_signed w (prefix_value (digits n) (Z.of_nat i + Z.of_nat cnt))).
Proof.
  induction cnt as [| cnt IH]; intros i.
  - simpl. rewrite Z.add_0_r. reflexivity.
  - cbn [integral_loop]. rewrite uint64_ndigits.
    replace (Z.of_nat i + Z.of_nat (S cnt))
      with (Z.of_nat (S i) + Z.of_nat cnt) by lia.
    rewrite <- IH.
    replace (Z.of_nat i + 1) with (Z.of_nat (S i)) by lia.
    replace (Z.of_nat (S i)) with (Z.of_nat i + 1) at 2 by lia.
    rewrite prefix_value_step.
    cbn [IntArith t_mul t_add of_int].
    assert (Hm : wrap_signed w (wrap_signed w (prefix_value (digits n) (Z.of_nat i))
                       * wrap_signed w NBASE)
                 = wrap_signed w (prefix_value (digits n) (Z.of_nat i) * NBASE))
      by (apply wrap_signed_mul; lia).
    rewrite Hm.
    destruct (Z.of_nat i <? ndigits n) eqn:E.
    + apply Z.ltb_lt in E.
      destruct (nth_error (digits n) i) as [d |] eqn:En.
      * unfold array_get.
        assert (E0 : (Z.of_nat i <? 0) = false) by (apply Z.ltb_ge; lia).
        rewrite E0, Nat2Z.id, En. cbn [bind].
        rewrite wrap_signed_add by lia. reflexivity.
      * apply nth_error_None in En. lia.
    + apply Z.ltb_ge in E. cbn [bind].
      destruct (nth_error (digits n) i) as [d |] eqn:En.
      * assert ((i < length (digits n))%nat)
          by (apply nth_error_Some; congruence). lia.
      * rewrite Z.add_0_r. reflexivity.
Qed.

(** The last fractional group when the stored digits reach [c] places
    past the display scale: base and digit are divided by [10^c]. *)
Lemma compensate_divide : forall c X d,
  0 <= c <= 4 -> 0 <= d < NBASE ->
  compensate (IntArith w) OP c (wrap_signed w X) d
  = Ok (wrap_signed w (X * 10 ^ (4 - c) + d / 10 ^ c)).
Proof.
  intros c X d Hc Hd. unfold compensate.
  assert (Hge : (c >=? 0) = true) by (apply Z.geb_le; lia).
  rewrite Hge, uint64_small by lia.
  rewrite power_of_ten by lia. cbn [bind IntArith t_div t_mul t_add of_int].
  assert (Hp : 1 <= 10 ^ c <= 10000).
  { split.
    - pose proof (pow10_pos c ltac:(lia)). lia.
    - change 10000 with (10 ^ 4). apply Z.pow_le_mono_r; lia. }
  unfold NBASE in *.
  rewrite (wrap_signed_small16 w (10 ^ c)) by lia.
  rewrite (wrap_signed_small16 w 10000) by lia.
  rewrite (wrap_signed_small16 w d) by lia.
  assert (Hz : (10 ^ c =? 0) = false) by (apply Z.eqb_neq; lia).
  rewrite Hz. cbn [bind].
  rewrite !Z.quot_div_nonneg by lia.
  assert (Hb : 10000 / 10 ^ c = 10 ^ (4 - c)).
  { change 10000 with (10 ^ 4).
    replace 4 with ((4 - c) + c) at 1 by lia.
    rewrite Z.pow_add_r by lia. apply Z.div_mul. lia. }
  rewrite Hb.
  rewrite wrap_signed_mul, wrap_signed_add by lia. reflexivity.
Qed.

(** The last fractional group when trailing zero digits were
    suppressed: base and digit are multiplied by the missing power of
    ten. *)
Lemma compensate_multiply : forall c X d,
  -19 < c < 0 ->
  compensate (IntArith w) OP c (wrap_signed w X) d
  = Ok (wrap_signed w (X * (NBASE * 10 ^ (- c)) + d * 10 ^ (- c))).
Proof.
  intros c X d Hc. unfold compensate.
  assert (Hge : (c >=? 0) = false)
    by (rewrite Z.geb_leb; apply Z.leb_gt; lia).
  rewrite Hge.
  assert (Hi : int32 (- c) = - c)
    by (apply wrap_signed_small; [lia | unfold in_signed; lia]).
  rewrite Hi, uint64_small by lia.
  rewrite power_of_ten by lia. cbn [bind IntArith t_div t_mul t_add of_int].
  rewrite (wrap_signed_mul w NBASE) by lia.
  rewrite !wrap_signed_mul, wrap_signed_add by lia. reflexivity.
Qed.

(** The fractional loop accumulates all groups but the last, and hands
    the last one to the compensation step. *)
Lemma fractional_loop_groups : forall c init lastd (i : nat) X,
  skipn i (digits n) = init ++ [lastd] ->
  fractional_loop (IntArith w) OP n c (S (length init)) (Z.of_nat i)
                  (wrap_signed w X)
  = compensate (IntArith w) OP c
      (wrap_signed w (X * NBASE ^ Z.of_nat (length init) + be_value init))
      lastd.
Proof.
  intros c init. induction init as [| a init IH]; intros lastd i X Hs.
  - destruct (array_get_skipn _ _ _ _ _ Hs) as [Hg [_ Hlt]].
    pose proof (length_skipn i (digits n)) as Hl. rewrite Hs in Hl.
    simpl in Hl.
    rewrite fractional_loop_S, Hg. cbn [bind].
    assert (Hi : int32 (Z.of_nat i + 1) = Z.of_nat i + 1)
      by (apply wrap_signed_small; [lia | unfold in_signed; lia]).
    rewrite Hi.
    assert (E : (Z.of_nat i + 1 <? ndigits n) = false)
      by (apply Z.ltb_ge; lia).
    rewrite E. simpl length. simpl be_value.
    rewrite Z.pow_0_r, Z.mul_1_r, Z.add_0_r.
    apply bind_ret.
  - simpl app in Hs.
    destruct (array_get_skipn _ _ _ _ _ Hs) as [Hg [Hs' Hlt]].
    pose proof (length_skipn i (digits n)) as Hl. rewrite Hs in Hl.
    simpl in Hl. rewrite length_app in Hl. simpl in Hl.
    cbn [length]. rewrite fractional_loop_S, Hg. cbn [bind].
    assert (Hi : int32 (Z.of_nat i + 1) = Z.of_nat i + 1)
      by (apply wrap_signed_small; [lia | unfold in_signed; lia]).
    rewrite Hi.
    assert (E : (Z.of_nat i + 1 <? ndigits n) = true)
      by (apply Z.ltb_lt; lia).
    rewrite E. cbn [bind IntArith t_mul t_add of_int].
    rewrite wrap_signed_mul, wrap_signed_add by lia.
    replace (Z.of_nat i + 1) with (Z.of_nat (S i)) by lia.
    rewrite (IH lastd (S i) _ Hs'). f_equal. f_equal.
    simpl be_value.
    replace (Z.of_nat (S (length init)))
      with (Z.succ (Z.of_nat (length init))) by lia.
    rewrite Z.pow_succ_r by lia. ring.
Qed.

Hypothesis finalize : forall m r, Finalize OP m r = Ok r.
Hypothesis digit_range : Forall (fun d => 0 <= d < NBASE) (digits n).
Hypothesis weight_range : - 2 ^ 15 <= weight n < 2 ^ 15.
Hypothesis scale_range : 0 <= dscale n < 19.
Hypothesis nonempty : ndigits n <> 0.

Lemma int32_weight_succ : int32 (weight n + 1) = weight n + 1.
Proof.
  apply wrap_signed_small; [lia | unfold in_signed; lia].
Qed.

Lemma prefix_value_0 : prefix_value (digits n) 0 = 0.
Proof. unfold prefix_value. simpl. reflexivity. Qed.

(** The integral part: the groups before the decimal point, scaled. *)
Lemma integral_part_exact :
  (if weight n >=? 0 then
     d0 <- array_get (digits n) 0 ;;
     integral_part <-
       integral_loop (IntArith w) n (Z.to_nat (weight n)) 1
                     (of_int (IntArith w) d0) ;;
     Ok (t_mul (IntArith w) integral_part
               (wrap_signed w (10 ^ dscale n)))
   else Ok (of_int (IntArith w) 0))
  = Ok (wrap_signed w
          (prefix_value (digits n) (Z.max 0 (weight n + 1))
           * 10 ^ dscale n)).
Proof.
  destruct (weight n >=? 0) eqn:Ew.
  - apply Z.geb_le in Ew.
    pose proof (prefix_value_step (digits n) 0) as Hstep.
    change (Z.of_nat 0 + 1) with 1 in Hstep.
    change (Z.of_nat 0) with 0 in Hstep. rewrite prefix_value_0 in Hstep.
    unfold array_get. cbn [Z.ltb Z.compare Z.to_nat].
    destruct (nth_error (digits n) 0) as [d0 |] eqn:Ed.
    2:{ apply nth_error_None in Ed. lia. }
    simpl in Hstep. cbn [bind IntArith of_int]. rewrite <- Hstep.
    pose proof (integral_loop_prefix (Z.to_nat (weight n)) 1) as Hl.
    change (Z.of_nat 1) with 1 in Hl. rewrite Hl.
    cbn [bind IntArith t_mul]. rewrite wrap_signed_mul by lia.
    rewrite Z.max_r by lia. rewrite Z2Nat.id by lia.
    rewrite (Z.add_comm 1). reflexivity.
  - rewrite Z.geb_leb in Ew. apply Z.leb_gt in Ew.
    rewrite Z.max_l by lia. rewrite prefix_value_0. reflexivity.
Qed.

Hypothesis covered :
  ndigits n > weight n + 1 -> 0 < scale_gap n ->
  scale_gap n <= 4 /\ last (digits n) 0 mod 10 ^ scale_gap n = 0.

(** The fractional part: the groups after the decimal point, scaled. *)
Lemma fractional_part_exact :
  (if ndigits n >? int32 (weight n + 1) then
     if int32 (int32 (int32 (int32 (ndigits n - weight n) - 1)
                      * DEC_DIGITS) - dscale n) <? 20
     then
       fractional_loop (IntArith w) OP n
         (int32 (int32 (int32 (int32 (ndigits n - weight n) - 1)
                        * DEC_DIGITS) - dscale n))
         (Z.to_nat (ndigits n - Z.max 0 (int32 (weight n + 1))))
         (Z.max 0 (int32 (weight n + 1))) (of_int (IntArith w) 0)
     else Err AssertFailure
   else Ok (of_int (IntArith w) 0))
  = Ok (wrap_signed w (fraction_scaled n)).
Proof.
  unfold fraction_scaled. rewrite int32_weight_succ.
  destruct (ndigits n >? weight n + 1) eqn:Ef; [| reflexivity].
  apply Z.gtb_lt in Ef. cbv zeta.
  assert (H1 : int32 (ndigits n - weight n) = ndigits n - weight n)
    by (apply wrap_signed_small; [lia | unfold in_signed; lia]).
  assert (H2 : int32 (ndigits n - weight n - 1) = ndigits n - weight n - 1)
    by (apply wrap_signed_small; [lia | unfold in_signed; lia]).
  assert (H3 : int32 ((ndigits n - weight n - 1) * DEC_DIGITS)
               = (ndigits n - weight n - 1) * DEC_DIGITS)
    by (apply wrap_signed_small;
        [lia | unfold in_signed, DEC_DIGITS; lia]).
  assert (H4 : int32 ((ndigits n - weight n - 1) * DEC_DIGITS - dscale n)
               = scale_gap n)
    by (unfold scale_gap, int32; rewrite wrap_signed_small;
        [lia | lia | unfold in_signed, DEC_DIGITS; lia]).
  rewrite H1, H2, H3, H4.
  set (c := scale_gap n) in *.
  assert (Hlow : -19 < c) by (unfold c, scale_gap, DEC_DIGITS; lia).
  assert (Hhigh : c <= 4).
  { destruct (Z_lt_le_dec 0 c) as [Hpos | Hle]; [| lia].
    apply (covered ltac:(lia) Hpos). }
  assert (E20 : (c <? 20) = true) by (apply Z.ltb_lt; lia).
  rewrite E20.
  set (start := Z.max 0 (weight n + 1)).
  set (R := skipn (Z.to_nat start) (digits n)).
  assert (Hlen : length R = Z.to_nat (ndigits n - start))
    by (unfold R; rewrite length_skipn; lia).
  assert (Hne : R <> []).
  { intros HR. rewrite HR in Hlen. simpl in Hlen. lia. }
  pose proof (app_removelast_last 0 Hne) as Hsplit.
  assert (Hlast : last R 0 = last (digits n) 0)
    by (apply last_skipn; lia).
  rewrite Hlast in Hsplit.
  assert (Hcnt : Z.to_nat (ndigits n - start) = S (length (removelast R))).
  { rewrite <- Hlen. rewrite Hsplit at 1. rewrite length_app. simpl. lia. }
  rewrite Hcnt.
  replace start with (Z.of_nat (Z.to_nat start)) at 1 by lia.
  change (of_int (IntArith w) 0) with (wrap_signed w 0).
  rewrite (fractional_loop_groups c (removelast R) (last (digits n) 0)
             (Z.to_nat start) 0 Hsplit).
  rewrite Z.mul_0_l, Z.add_0_l.
  assert (Hd : 0 <= last (digits n) 0 < NBASE).
  { apply (last_in_range (fun d => 0 <= d < NBASE)); [exact digit_range |].
    intros Hnil. rewrite Hnil in count. simpl in count. lia. }
  destruct (c >=? 0) eqn:Ec.
  - apply Z.geb_le in Ec. apply compensate_divide; [lia | exact Hd].
  - rewrite Z.geb_leb in Ec. apply Z.leb_gt in Ec.
    rewrite compensate_multiply by lia. do 2 f_equal.
    unfold NBASE. change 10000 with (10 ^ 4).
    rewrite <- Z.pow_add_r by lia.
    replace (4 + - c) with (4 - c) by lia. reflexivity.
Qed.

(** Integral and fractional part add up to the scaled magnitude. *)
Lemma scaled_magnitude_split :
  prefix_value (digits n) (Z.max 0 (weight n + 1)) * 10 ^ dscale n
  + fraction_scaled n
  = scaled_magnitude n.
Proof.
  unfold fraction_scaled, scaled_magnitude.
  destruct (ndigits n >? weight n + 1) eqn:Ef.
  - apply Z.gtb_lt in Ef. cbv zeta.
    set (c := scale_gap n) in *.
    set (start := Z.max 0 (weight n + 1)).
    set (R := skipn (Z.to_nat start) (digits n)).
    set (P := firstn (Z.to_nat start) (digits n)).
    assert (Hlen : Z.of_nat (length R) = ndigits n - start)
      by (unfold R; rewrite length_skipn; lia).
    assert (Hne : R <> []).
    { intros HR. rewrite HR in Hlen. simpl in Hlen. lia. }
    pose proof (app_removelast_last 0 Hne) as Hsplit.
    assert (Hlast : last R 0 = last (digits n) 0)
      by (apply last_skipn; lia).
    rewrite Hlast in Hsplit.
    pose proof (be_value_app P R) as Hall.
    assert (Hcat : P ++ R = digits n) by apply firstn_skipn.
    rewrite Hcat in Hall.
    assert (HR : be_value R
                 = be_value (removelast R) * NBASE + last (digits n) 0)
      by (rewrite Hsplit at 1; apply be_value_snoc).
    assert (Hpre : prefix_value (digits n) start = be_value P).
    { unfold prefix_value. fold P. rewrite Z.min_l by lia.
      rewrite Z.sub_diag, Z.pow_0_r. ring. }
    rewrite Hpre, Hall, HR, Hlen.
    set (bp := be_value P). set (bi := be_value (removelast R)).
    set (ld := last (digits n) 0).
    (* the integral groups, if any, sit [dscale + c] decimal places
       above the last stored digit *)
    assert (Hbp : bp * NBASE ^ (ndigits n - start)
                  = bp * 10 ^ (dscale n + c)).
    { destruct (Z_lt_le_dec (weight n) 0) as [Hneg | Hpos].
      - assert (Hs0 : start = 0) by (unfold start; lia).
        unfold bp, P. rewrite Hs0. simpl. reflexivity.
      - rewrite NBASE_pow by lia. do 2 f_equal.
        unfold c, scale_gap, DEC_DIGITS, start. lia. }
    rewrite Hbp.
    assert (Hsc : dscale n + c = 4 * (ndigits n - weight n - 1))
      by (unfold c, scale_gap, DEC_DIGITS; lia).
    destruct (c <=? 0) eqn:Ec0.
    + apply Z.leb_le in Ec0.
      assert (Hs : 10 ^ dscale n = 10 ^ (dscale n + c) * 10 ^ (- c))
        by (rewrite <- Z.pow_add_r by lia; f_equal; lia).
      assert (H4 : 10 ^ (4 - c) = NBASE * 10 ^ (- c)).
      { unfold NBASE. change 10000 with (10 ^ 4).
        rewrite <- Z.pow_add_r by lia. f_equal. }
      rewrite Hs, H4.
      destruct (c >=? 0) eqn:Ec.
      * apply Z.geb_le in Ec. assert (c = 0) by lia.
        replace c with 0 by lia. simpl (- 0). rewrite Z.pow_0_r.
        rewrite Z.div_1_r. ring.
      * ring.
    + apply Z.leb_gt in Ec0.
      destruct (covered ltac:(lia) Ec0) as [Hc4 Hdiv].
      assert (Ec : (c >=? 0) = true) by (apply Z.geb_le; lia).
      rewrite Ec.
      pose proof (pow10_pos c ltac:(lia)) as Hp.
      assert (Hld : ld = ld / 10 ^ c * 10 ^ c).
      { pose proof (Z.div_mod ld (10 ^ c) ltac:(lia)) as Hdm.
        fold ld in Hdiv. rewrite Hdiv in Hdm. lia. }
      assert (Hs : 10 ^ (dscale n + c) = 10 ^ dscale n * 10 ^ c)
        by (apply Z.pow_add_r; lia).
      assert (H4 : NBASE = 10 ^ (4 - c) * 10 ^ c).
      { unfold NBASE. change 10000 with (10 ^ 4).
        rewrite <- Z.pow_add_r by lia. f_equal. lia. }
      rewrite Hs. rewrite H4 at 1. rewrite Hld at 2.
      replace (bp * (10 ^ dscale n * 10 ^ c)
               + (bi * (10 ^ (4 - c) * 10 ^ c) + ld / 10 ^ c * 10 ^ c))
        with ((bp * 10 ^ dscale n + (bi * 10 ^ (4 - c) + ld / 10 ^ c))
              * 10 ^ c) by ring.
      rewrite Z.div_mul by lia. ring.
  - rewrite Z.gtb_ltb in Ef. apply Z.ltb_ge in Ef.
    rewrite Z.add_0_r. rewrite Z.max_r by lia.
    assert (Ec : (scale_gap n <=? 0) = true)
      by (apply Z.leb_le; unfold scale_gap, DEC_DIGITS; lia).
    rewrite Ec. unfold prefix_value.
    rewrite firstn_all2 by lia. rewrite Z.min_r by lia.
    rewrite NBASE_pow by lia.
    rewrite <- Z.mul_assoc, <- Z.pow_add_r by lia.
    do 2 f_equal. unfold scale_gap, DEC_DIGITS. lia.
Qed.

(** The decimal codec under the integer policy delivers the scaled
    magnitude, signed, modulo [2^w]. *)
Lemma ConvertDecimal_exact :
  ConvertDecimal (IntArith w) OP n
  = Ok (wrap_signed w (if NumericIsNegative n
                       then - scaled_magnitude n
                       else scaled_magnitude n)).
Proof.
  unfold ConvertDecimal.
  rewrite uint64_small by lia. rewrite power_of_ten by lia.
  rewrite bind_Ok_l. cbv beta.
  rewrite (proj2 (Z.eqb_neq _ _) nonempty).
  rewrite integral_part_exact. rewrite bind_Ok_l. cbv beta.
  rewrite fractional_part_exact. rewrite bind_Ok_l. cbv beta.
  rewrite finalize. cbn [bind IntArith t_add t_neg].
  rewrite wrap_signed_add by lia. rewrite scaled_magnitude_split.
  destruct (NumericIsNegative n); [| reflexivity].
  rewrite wrap_signed_neg by lia. reflexivity.
Qed.

End IntegerPolicy.

(** ** The scaled value as a rational number *)

Lemma Qround_inject_Z : forall z, Qround (inject_Z z) = z.
Proof.
  intros z. unfold Qround.
  destruct (Qle_bool 0 (inject_Z z)).
  - unfold Qfloor, Qplus, inject_Z. simpl.
    replace (z * 2 + 1) with (1 + z * 2) by lia.
    rewrite Z.div_add by lia. reflexivity.
  - unfold Qceiling, Qfloor, Qminus, Qplus, Qopp, inject_Z. simpl.
    replace (- (z * 2 + -1)) with (1 + (- z) * 2) by lia.
    rewrite Z.div_add by lia. simpl. lia.
Qed.

Lemma Qround_comp : forall p q, (p == q)%Q -> Qround p = Qround q.
Proof.
  intros p q H. unfold Qround.
  assert (Hb : Qle_bool 0 p = Qle_bool 0 q)
    by (apply Qleb_comp; [reflexivity | exact H]).
  assert (Hf : Qfloor (p + (1 # 2)) = Qfloor (q + (1 # 2)))
    by (apply Qfloor_comp; rewrite H; reflexivity).
  assert (Hc : Qceiling (p - (1 # 2)) = Qceiling (q - (1 # 2)))
    by (apply Qceiling_comp; rewrite H; reflexivity).
  rewrite Hb, Hf, Hc. reflexivity.
Qed.

Lemma Q10_nonzero : ~ (inject_Z 10 == 0)%Q.
Proof. intros H. discriminate H. Qed.

Lemma QNBASE_nonzero : ~ (inject_Z NBASE == 0)%Q.
Proof. intros H. discriminate H. Qed.

(** A run of digit groups whose first group has positional weight [wt]
    is the numeral it spells, shifted to where its last group stands. *)
Lemma digits_value_be : forall ds wt,
  (digits_value ds wt
   == inject_Z (be_value ds)
      * Qpower (inject_Z NBASE) (wt - Z.of_nat (length ds) + 1))%Q.
Proof.
  induction ds as [| d ds IH]; intros wt.
  - simpl. ring.
  - cbn [digits_value be_value length].
    rewrite IH. rewrite inject_Z_plus, inject_Z_mult.
    rewrite (Zpower_Qpower NBASE (Z.of_nat (length ds))) by lia.
    replace (wt - 1 - Z.of_nat (length ds) + 1)
      with (wt - Z.of_nat (S (length ds)) + 1) by lia.
    set (e := wt - Z.of_nat (S (length ds)) + 1).
    replace wt with (Z.of_nat (length ds) + e) at 1 by (unfold e; lia).
    rewrite Qpower_plus by exact QNBASE_nonzero. ring.
Qed.

Lemma QNBASE_power : forall e,
  (Qpower (inject_Z NBASE) e == Qpower (inject_Z 10) (4 * e))%Q.
Proof.
  intros e. rewrite Qpower_mult. reflexivity.
Qed.

(** The numeral of a numeric, scaled by [10^dscale]. *)
Lemma digits_value_scaled : forall n,
  ndigits n = Z.of_nat (length (digits n)) ->
  (digits_value (digits n) (weight n) * Qpower (inject_Z 10) (dscale n)
   == inject_Z (be_value (digits n))
      * Qpower (inject_Z 10) (- scale_gap n))%Q.
Proof.
  intros n Hc. rewrite digits_value_be, QNBASE_power.
  rewrite <- Qmult_assoc, <- Qpower_plus by exact Q10_nonzero.
  rewrite <- Hc.
  replace (4 * (weight n - ndigits n + 1) + dscale n)
    with (- scale_gap n) by (unfold scale_gap, DEC_DIGITS; lia).
  reflexivity.
Qed.

(** For a well-formed numeric the scaled value is an integer: the scaled
    magnitude. *)
Lemma scaled_digits_integral : forall n,
  numeric_wf n ->
  (digits_value (digits n) (weight n) * Qpower (inject_Z 10) (dscale n)
   == inject_Z (scaled_magnitude n))%Q.
Proof.
  intros n Hwf. rewrite digits_value_scaled by apply Hwf.
  unfold scaled_magnitude.
  destruct (scale_gap n <=? 0) eqn:Ec.
  - apply Z.leb_le in Ec.
    rewrite inject_Z_mult, Zpower_Qpower by lia. reflexivity.
  - apply Z.leb_gt in Ec.
    assert (Hgt : ndigits n > weight n + 1)
      by (unfold scale_gap, DEC_DIGITS in Ec; pose proof (wf_dscale n Hwf);
          lia).
    destruct (wf_covered n Hwf Hgt Ec) as [Hc4 Hdiv].
    fold (scale_gap n) in Hc4, Hdiv.
    set (c := scale_gap n) in *.
    pose proof (pow10_pos c ltac:(lia)) as Hp.
    assert (Hmod : be_value (digits n) mod 10 ^ c = 0).
    { destruct (list_eq_dec Z.eq_dec (digits n) []) as [Hnil | Hne].
      { rewrite Hnil. simpl. apply Z.mod_0_l. lia. }
      rewrite (app_removelast_last 0 Hne), be_value_snoc.
      assert (H4 : NBASE = 10 ^ (4 - c) * 10 ^ c).
      { unfold NBASE. change 10000 with (10 ^ 4).
        rewrite <- Z.pow_add_r by (unfold DEC_DIGITS in Hc4; lia).
        f_equal. lia. }
      rewrite H4, Z.mul_assoc.
      rewrite Z.add_comm, Z.mod_add by lia. exact Hdiv. }
    assert (Hex : be_value (digits n)
                  = be_value (digits n) / 10 ^ c * 10 ^ c).
    { pose proof (Z.div_mod (be_value (digits n)) (10 ^ c) ltac:(lia)).
      lia. }
    rewrite Hex at 1. rewrite inject_Z_mult.
    rewrite (Zpower_Qpower 10 c) by lia.
    rewrite <- Qmult_assoc, <- Qpower_plus by exact Q10_nonzero.
    replace (c + - c) with 0 by lia. simpl. ring.
Qed.

Lemma scaled_value_wf : forall n,
  numeric_wf n ->
  scaled_value n
  = if NumericIsNegative n then - scaled_magnitude n
    else scaled_magnitude n.
Proof.
  intros n Hwf. unfold scaled_value, numeric_value.
  pose proof (scaled_digits_integral n Hwf) as H.
  destruct (NumericIsNegative n).
  - rewrite <- Qround_inject_Z. apply Qround_comp.
    rewrite <- Qmult_assoc, H, inject_Z_opp.
    change (inject_Z (-1)) with (- inject_Z 1)%Q. ring.
  - rewrite <- Qround_inject_Z. apply Qround_comp.
    rewrite <- Qmult_assoc, H. change (inject_Z 1) with 1%Q. ring.
Qed.

Lemma numeric_wf_with_sign : forall n s,
  numeric_wf n -> numeric_wf (with_sign n s).
Proof.
  intros n s [H1 H2 H3 H4 H5 H6]. constructor; assumption.
Qed.

Lemma scaled_magnitude_with_sign : forall n s,
  scaled_magnitude (with_sign n s) = scaled_magnitude n.
Proof. reflexivity. Qed.

(** The magnitude the integer policy decodes, modulo [2^w], whatever the
    sign field. *)
Lemma ConvertDecimal_magnitude :
  forall (w : Z) (OP : DecimalConversion Z) (n : NumericVar),
    16 <= w ->
    (forall k, 0 <= k < 19 ->
               GetPowerOfTen OP k = Ok (wrap_signed w (10 ^ k))) ->
    (forall m r, Finalize OP m r = Ok r) ->
    numeric_wf n ->
    dscale n < 19 ->
    ConvertDecimal (IntArith w) OP n
    = Ok (wrap_signed w (if NumericIsNegative n
                         then - scaled_magnitude n
                         else scaled_magnitude n)).
Proof.
  intros w OP n Hw Hpow Hfin Hwf Hs.
  destruct (Z.eq_dec (ndigits n) 0) as [Hz | Hnz].
  - unfold ConvertDecimal.
    pose proof (wf_dscale n Hwf) as Hd.
    rewrite uint64_small by lia. rewrite Hpow by lia.
    rewrite bind_Ok_l. cbv beta. rewrite Hz. simpl.
    assert (Hnil : digits n = []).
    { pose proof (wf_ndigits n Hwf) as Hl. rewrite Hz in Hl.
      destruct (digits n); [reflexivity | simpl in Hl; lia]. }
    assert (Hm : scaled_magnitude n = 0).
    { unfold scaled_magnitude. rewrite Hnil. simpl.
      destruct (scale_gap n <=? 0); [reflexivity | apply Zdiv_0_l]. }
    rewrite Hm. destruct (NumericIsNegative n); reflexivity.
  - apply ConvertDecimal_exact; try assumption.
    + apply Hwf.
    + apply Hwf.
    + apply Hwf.
    + apply Hwf.
    + split; [apply Hwf | exact Hs].
    + exact (wf_covered n Hwf).
Qed.


Lemma DecimalConversionInteger_power : forall w k,
  0 <= k < 19 ->
  GetPowerOfTen (DecimalConversionInteger w) k = Ok (wrap_signed w (10 ^ k)).
Proof.
  intros w k Hk. cbn [DecimalConversionInteger GetPowerOfTen].
  assert (E : (k >=? 19) = false)
    by (rewrite Z.geb_leb; apply Z.leb_gt; lia).
  rewrite E. reflexivity.
Qed.



(** Outside the host's invariants the result differs: a decomposition
    that stores digits beyond its display scale (the group 150 at weight
    -1 with display scale 2, which spells 0.0150) has the surplus digit
    cut off, where rounding the scaled value 1.5 gives 2.  The host
    never builds such a decomposition. *)
Remark ConvertDecimal_surplus_digits_cut :
  ConvertDecimal (IntArith 64) (DecimalConversionInteger 64)
    (mkNumericVar 1 (-1) NUMERIC_POS 2 [150]) = Ok 1
  /\ scaled_value (mkNumericVar 1 (-1) NUMERIC_POS 2 [150]) = 2.
Proof. split; vm_compute; reflexivity. Qed.

(* ================================================================== *)
(** * Further properties: type mapping table *)
(* ================================================================== *)

Lemma numeric_typmod_precision_field : forall typmod,
  numeric_typmod_precision typmod = bit_field (typmod - VARHDRSZ) 16 16.
Proof.
  intros typmod. unfold numeric_typmod_precision.
  change 65535 with (Z.ones 16). rewrite Z.land_ones by lia.
  rewrite Z.shiftr_div_pow2 by lia.
  apply (bit_field_int32 (typmod - VARHDRSZ) 16 16); lia.
Qed.

Lemma numeric_typmod_scale_field : forall typmod,
  numeric_typmod_scale typmod
  = sign_extend 11 (bit_field (typmod - VARHDRSZ) 0 11).
Proof.
  intros typmod. unfold numeric_typmod_scale.
  change 2047 with (Z.ones 11). rewrite Z.land_ones by lia.
  replace (int32 (typmod - VARHDRSZ) mod 2 ^ 11)
    with (bit_field (int32 (typmod - VARHDRSZ)) 0 11)
    by (unfold bit_field; rewrite Z.pow_0_r, Z.div_1_r; reflexivity).
  rewrite bit_field_int32 by lia.
  apply xor_sign_extend_11.
  unfold bit_field. apply Z.mod_pos_bound. lia.
Qed.

Lemma typmod_fields_of_packed : forall p s,
  0 <= p < 2 ^ 16 -> - 1024 <= s < 1024 ->
  numeric_typmod_precision (p * 2 ^ 16 + s mod 2 ^ 11 + VARHDRSZ) = p
  /\ numeric_typmod_scale (p * 2 ^ 16 + s mod 2 ^ 11 + VARHDRSZ) = s.
Proof.
  intros p s Hp Hs.
  pose proof (Z.mod_pos_bound s (2 ^ 11) ltac:(lia)) as Hm.
  rewrite numeric_typmod_precision_field, numeric_typmod_scale_field.
  replace (p * 2 ^ 16 + s mod 2 ^ 11 + VARHDRSZ - VARHDRSZ)
    with (s mod 2 ^ 11 + p * 2 ^ 16) by lia.
  unfold bit_field. split.
  - rewrite Z.div_add by lia.
    rewrite Z.div_small by lia. apply Z.mod_small. lia.
  - rewrite Z.pow_0_r, Z.div_1_r.
    replace (p * 2 ^ 16) with (p * 2 ^ 5 * 2 ^ 11)
      by (rewrite <- Z.mul_assoc, <- Z.pow_add_r by lia; reflexivity).
    rewrite Z.mod_add by lia. rewrite Z.mod_mod by lia.
    unfold sign_extend. change (11 - 1) with 10.
    destruct (Z_lt_le_dec s 0) as [Hneg | Hpos].
    + replace (s mod 2 ^ 11) with (s + 2 ^ 11).
      * destruct (s + 2 ^ 11 <? 2 ^ 10) eqn:E; [apply Z.ltb_lt in E |]; lia.
      * symmetry.
        replace s with ((s + 2 ^ 11) + (-1) * 2 ^ 11) at 1 by lia.
        rewrite Z.mod_add by lia. apply Z.mod_small. lia.
    + rewrite Z.mod_small by lia.
      destruct (s <? 2 ^ 10) eqn:E; [reflexivity |].
      apply Z.ltb_ge in E. lia.
Qed.

(** X1.  The two decoders undo the packing of a precision [p] and a scale [s]
    into a type modifier: [p] in the upper 16 bits, [s] as an 11-bit
    two's complement number in the lower bits, plus the header size. *)
Theorem numeric_typmod_unpack : forall p s,
  0 <= p < 2 ^ 16 -> - 1024 <= s < 1024 ->
  numeric_typmod_precision (p * 2 ^ 16 + s mod 2 ^ 11 + VARHDRSZ) = p
  /\ numeric_typmod_scale (p * 2 ^ 16 + s mod 2 ^ 11 + VARHDRSZ) = s.
Proof.
  intros p s Hp Hs. apply typmod_fields_of_packed; assumption.
Qed.

Lemma numeric_typmod_unpack_witness :
  numeric_typmod_precision (10 * 2 ^ 16 + 2 mod 2 ^ 11 + VARHDRSZ) = 10
  /\ numeric_typmod_scale (10 * 2 ^ 16 + (-3) mod 2 ^ 11 + VARHDRSZ) = -3.
Proof.
  split.
  - apply (numeric_typmod_unpack 10 2); lia.
  - apply (numeric_typmod_unpack 10 (-3)); lia.
Defined.

Lemma ConvertPostgresToDuckColumnType_numeric : forall typmod,
  ConvertPostgresToDuckColumnType NUMERICOID typmod
  = if (typmod =? -1) || (numeric_typmod_precision typmod <? 0)
       || (numeric_typmod_scale typmod <? 0)
       || (numeric_typmod_precision typmod >? 38)
    then Ok (mkLogicalType DOUBLE (Some NumericAsDouble))
    else Ok (mkLogicalType DECIMAL
               (Some (DecimalTypeInfo (numeric_typmod_precision typmod)
                                      (numeric_typmod_scale typmod)))).
Proof. reflexivity. Qed.

(** X2.  A numeric column declared with precision [p] of at most 38 and a
    non-negative scale [s] is mapped to DECIMAL([p], [s]), and no datum
    can then be converted into a vector of that type: the row-to-column
    converter raises its DECIMAL error whatever the datum. *)
Theorem numeric_with_typmod_is_decimal : forall p s,
  0 <= p <= 38 -> 0 <= s < 1024 ->
  ConvertPostgresToDuckColumnType NUMERICOID
    (p * 2 ^ 16 + s mod 2 ^ 11 + VARHDRSZ)
  = Ok (mkLogicalType DECIMAL (Some (DecimalTypeInfo p s)))
  /\ forall fp h value vec offset,
       Ok (vec_type vec)
       = ConvertPostgresToDuckColumnType NUMERICOID
           (p * 2 ^ 16 + s mod 2 ^ 11 + VARHDRSZ) ->
       ConvertPostgresToDuckValue fp h value vec offset
       = Err DecimalTypeError.
Proof.
  intros p s Hp Hs.
  destruct (typmod_fields_of_packed p s ltac:(lia) ltac:(lia)) as [Hpr Hsc].
  pose proof (Z.mod_pos_bound s (2 ^ 11) ltac:(lia)) as Hm.
  assert (Hmap : ConvertPostgresToDuckColumnType NUMERICOID
                   (p * 2 ^ 16 + s mod 2 ^ 11 + VARHDRSZ)
                 = Ok (mkLogicalType DECIMAL (Some (DecimalTypeInfo p s)))).
  { rewrite ConvertPostgresToDuckColumnType_numeric, Hpr, Hsc.
    assert (E1 : (p * 2 ^ 16 + s mod 2 ^ 11 + VARHDRSZ =? -1) = false)
      by (apply Z.eqb_neq; unfold VARHDRSZ; lia).
    assert (E2 : (p <? 0) = false) by (apply Z.ltb_ge; lia).
    assert (E3 : (s <? 0) = false) by (apply Z.ltb_ge; lia).
    assert (E4 : (p >? 38) = false)
      by (rewrite Z.gtb_ltb; apply Z.ltb_ge; lia).
    rewrite E1, E2, E3, E4. reflexivity. }
  split; [exact Hmap |].
  intros fp h value vec offset Hv. rewrite Hmap in Hv.
  injection Hv as Hv. apply decimal_to_duck_error. rewrite Hv. reflexivity.
Qed.

Lemma numeric_with_typmod_is_decimal_witness :
  ConvertPostgresToDuckColumnType NUMERICOID
    (10 * 2 ^ 16 + 2 mod 2 ^ 11 + VARHDRSZ)
  = Ok (mkLogicalType DECIMAL (Some (DecimalTypeInfo 10 2))).
Proof.
  apply (numeric_with_typmod_is_decimal 10 2); lia.
Defined.

(** The oids the type mapping table knows. *)
Lemma type_mapping_domain : forall type typmod,
  (In type [BOOLOID; CHAROID; INT2OID; INT4OID; INT8OID; BPCHAROID;
            TEXTOID; VARCHAROID; DATEOID; TIMESTAMPOID; FLOAT8OID;
            NUMERICOID]
   -> exists t, ConvertPostgresToDuckColumnType type typmod = Ok t)
  /\ (~ In type [BOOLOID; CHAROID; INT2OID; INT4OID; INT8OID; BPCHAROID;
                 TEXTOID; VARCHAROID; DATEOID; TIMESTAMPOID; FLOAT8OID;
                 NUMERICOID]
      -> ConvertPostgresToDuckColumnType type typmod
         = Err (UnsupportedPostgresType type)).
Proof.
  intros type typmod. split.
  - intros Hin. simpl in Hin.
    repeat (destruct Hin as [<- | Hin]; [eexists; reflexivity |]).
    destruct Hin as [<- | []].
    rewrite ConvertPostgresToDuckColumnType_numeric.
    match goal with |- exists t, (if ?b then _ else _) = _ =>
      destruct b end; eexists; reflexivity.
  - intros Hn. unfold ConvertPostgresToDuckColumnType.
    repeat match goal with
    | |- context [?a =? ?b] =>
        let E := fresh "E" in
        destruct (Z.eqb_spec a b) as [E | E];
        [exfalso; apply Hn; subst; simpl; tauto |]
    end.
    reflexivity.
Qed.

(* ================================================================== *)
(** * Further properties: scalar value converter *)
(* ================================================================== *)

Lemma to_Datum_signed : forall w z,
  1 <= w <= 64 -> in_signed w z -> wrap_signed w (to_Datum z) = z.
Proof.
  intros w z Hw Hz. unfold to_Datum. rewrite wrap_signed_uint64 by lia.
  apply wrap_signed_small; [lia | exact Hz].
Qed.

Lemma int_width_range : forall oid, 1 <= int_width oid <= 64.
Proof.
  intros oid. unfold int_width.
  destruct (oid =? CHAROID); [lia |].
  destruct (oid =? INT2OID); [lia |].
  destruct (oid =? INT4OID); lia.
Qed.

(** Column to row for the integer types. *)
Lemma ConvertDuckToPostgresValue_int : forall h slot value col att,
  array_get (tts_attrs slot) col = Ok att ->
  In (atttypid att) [CHAROID; INT2OID; INT4OID; INT8OID] ->
  ConvertDuckToPostgresValue h slot value col
  = (z <- GetValue_int (int_width (atttypid att)) value ;;
     s <- store_value slot col (to_Datum z) ;; Ok (h, s)).
Proof.
  intros h slot value col att Hatt Hin. unfold ConvertDuckToPostgresValue.
  rewrite Hatt. cbn [bind]. simpl in Hin.
  destruct Hin as [<- | [<- | [<- | [<- | []]]]]; reflexivity.
Qed.

(** Row to column for the integer types. *)
Lemma ConvertPostgresToDuckValue_int :
  forall fp h value vec offset oid typmod,
    In oid [CHAROID; INT2OID; INT4OID; INT8OID] ->
    Ok (vec_type vec) = ConvertPostgresToDuckColumnType oid typmod ->
    ConvertPostgresToDuckValue fp h value vec offset
    = Append vec (int_cell oid (wrap_signed (int_width oid) value)) offset.
Proof.
  intros fp h value vec offset oid typmod Hin Hv.
  unfold ConvertPostgresToDuckValue. simpl in Hin.
  destruct Hin as [<- | [<- | [<- | [<- | []]]]];
    simpl in Hv; injection Hv as ->; reflexivity.
Qed.

Lemma cell_value_int : forall oid z,
  In oid [CHAROID; INT2OID; INT4OID; INT8OID] ->
  exists v, cell_value (int_cell oid z) = Some v
            /\ In v [VTinyInt z; VSmallInt z; VInteger z; VBigInt z].
Proof.
  intros oid z Hin. simpl in Hin.
  destruct Hin as [<- | [<- | [<- | [<- | []]]]];
    eexists; (split; [reflexivity | simpl; tauto]).
Qed.

Lemma GetValue_int_fits : forall w z v,
  in_signed w z ->
  In v [VTinyInt z; VSmallInt z; VInteger z; VBigInt z] ->
  GetValue_int w v = Ok z.
Proof.
  intros w z v [H1 H2] Hin.
  assert (E : (- 2 ^ (w - 1) <=? z) && (z <? 2 ^ (w - 1)) = true).
  { apply andb_true_iff. split; [apply Z.leb_le | apply Z.ltb_lt]; lia. }
  simpl in Hin.
  destruct Hin as [<- | [<- | [<- | [<- | []]]]]; unfold GetValue_int;
    rewrite E; reflexivity.
Qed.

Lemma cell_at_set : forall vec offset c,
  0 <= offset < Z.of_nat (length (vec_data vec)) ->
  cell_at (mkVector (vec_type vec)
             (list_set (vec_data vec) (Z.to_nat offset) c)
             (vec_validity vec)) offset = Some c.
Proof.
  intros vec offset c H. unfold cell_at. simpl.
  apply nth_error_list_set. lia.
Qed.

Lemma datum_at_set : forall ats vals col x,
  0 <= col < Z.of_nat (length vals) ->
  datum_at (mkSlot ats (list_set vals (Z.to_nat col) x)) col = Some x.
Proof.
  intros ats vals col x H. unfold datum_at. simpl.
  apply nth_error_list_set. lia.
Qed.

(** X3.  Row to column and back for the integer types: the datum of an 8,
    16, 32 or 64-bit integer comes back unchanged, with the vector typed
    by the type mapping table. *)
Theorem integer_round_trip :
  forall fp h vec offset slot col att typmod z,
    In (atttypid att) [CHAROID; INT2OID; INT4OID; INT8OID] ->
    Ok (vec_type vec)
    = ConvertPostgresToDuckColumnType (atttypid att) typmod ->
    0 <= offset < Z.of_nat (length (vec_data vec)) ->
    0 <= col < Z.of_nat (length (tts_values slot)) ->
    array_get (tts_attrs slot) col = Ok att ->
    in_signed (int_width (atttypid att)) z ->
    exists vec' v slot',
      ConvertPostgresToDuckValue fp h (to_Datum z) vec offset = Ok vec'
      /\ cell_at vec' offset = Some (int_cell (atttypid att) z)
      /\ cell_value (int_cell (atttypid att) z) = Some v
      /\ ConvertDuckToPostgresValue h slot v col = Ok (h, slot')
      /\ datum_at slot' col = Some (to_Datum z).
Proof.
  intros fp h vec offset slot col att typmod z Hin Hv Hoff Hcol Hatt Hz.
  destruct (cell_value_int (atttypid att) z Hin) as [v [Hcv Hvin]].
  rewrite (ConvertPostgresToDuckValue_int fp h _ vec offset _ typmod Hin Hv).
  rewrite to_Datum_signed by (apply int_width_range || exact Hz).
  rewrite Append_ok by exact Hoff.
  eexists. exists v. eexists.
  split; [reflexivity |]. split; [apply cell_at_set; exact Hoff |].
  split; [exact Hcv |].
  rewrite (ConvertDuckToPostgresValue_int h slot v col att Hatt Hin).
  rewrite (GetValue_int_fits _ z v Hz Hvin). cbn [bind].
  rewrite store_value_ok by exact Hcol. cbn [bind].
  split; [reflexivity |]. apply datum_at_set. exact Hcol.
Qed.

Lemma integer_round_trip_witness :
  exists vec' v slot',
    ConvertPostgresToDuckValue Sample.host [] (to_Datum (-7))
      (Sample.vector (plain SMALLINT)) 0 = Ok vec'
    /\ cell_at vec' 0 = Some (CellInt16 (-7))
    /\ cell_value (CellInt16 (-7)) = Some v
    /\ ConvertDuckToPostgresValue [] (Sample.slot1 INT2OID 2 true) v 0
       = Ok ([], slot')
    /\ datum_at slot' 0 = Some (to_Datum (-7)).
Proof.
  refine (integer_round_trip Sample.host [] (Sample.vector (plain SMALLINT))
            0 (Sample.slot1 INT2OID 2 true) 0
            (Sample.attribute INT2OID 2 true) 0 (-7) _ _ _ _ _ _).
  - simpl. tauto.
  - reflexivity.
  - simpl. lia.
  - simpl. lia.
  - reflexivity.
  - unfold in_signed. simpl. lia.
Defined.

(** X4.  Row to column and back for a boolean and for a float8: the datum
    comes back unchanged; for a float8 the attribute is moreover left
    typed FLOAT8OID and passed by value. *)
Theorem bool_float8_round_trip :
  forall fp h vec offset slot col att,
    0 <= offset < Z.of_nat (length (vec_data vec)) ->
    0 <= col < Z.of_nat (length (tts_values slot)) ->
    array_get (tts_attrs slot) col = Ok att ->
    (forall d,
        atttypid att = BOOLOID -> type_id (vec_type vec) = BOOLEAN ->
        d = 0 \/ d = 1 ->
        exists vec' b slot',
          ConvertPostgresToDuckValue fp h d vec offset = Ok vec'
          /\ cell_at vec' offset = Some (CellBool b)
          /\ ConvertDuckToPostgresValue h slot (VBoolean b) col
             = Ok (h, slot')
          /\ datum_at slot' col = Some d)
    /\ (forall d,
        atttypid att = FLOAT8OID -> vec_type vec = plain DOUBLE ->
        0 <= d < 2 ^ 64 ->
        exists vec' slot',
          ConvertPostgresToDuckValue fp h d vec offset = Ok vec'
          /\ cell_at vec' offset = Some (CellDouble d)
          /\ ConvertDuckToPostgresValue h slot (VDouble d) col
             = Ok (h, slot')
          /\ datum_at slot' col = Some d
          /\ array_get (tts_attrs slot') col = Ok (set_attr_float8 att)).
Proof.
  intros fp h vec offset slot col att Hoff Hcol Hatt. split.
  - intros d Hoid Hvt Hd.
    unfold ConvertPostgresToDuckValue. rewrite Hvt.
    rewrite Append_ok by exact Hoff.
    eexists. exists (negb (d =? 0)). eexists.
    split; [reflexivity |]. split; [apply cell_at_set; exact Hoff |].
    unfold ConvertDuckToPostgresValue. rewrite Hatt. cbn [bind].
    rewrite Hoid. change (BOOLOID =? BOOLOID) with true. cbv iota.
    cbn [GetValue_bool bind].
    rewrite store_value_ok by exact Hcol. cbn [bind].
    split; [reflexivity |]. rewrite datum_at_set by exact Hcol.
    destruct Hd as [-> | ->]; reflexivity.
  - intros d Hoid Hvt Hd.
    unfold ConvertPostgresToDuckValue. rewrite Hvt. cbn [type_id plain aux_info].
    rewrite Append_ok by exact Hoff.
    eexists. eexists.
    split; [reflexivity |]. split; [apply cell_at_set; exact Hoff |].
    unfold ConvertDuckToPostgresValue. rewrite Hatt. cbn [bind].
    rewrite Hoid.
    change (FLOAT8OID =? BOOLOID) with false.
    change (FLOAT8OID =? CHAROID) with false.
    change (FLOAT8OID =? INT2OID) with false.
    change (FLOAT8OID =? INT4OID) with false.
    change (FLOAT8OID =? INT8OID) with false.
    change ((FLOAT8OID =? BPCHAROID) || (FLOAT8OID =? TEXTOID)
            || (FLOAT8OID =? VARCHAROID)) with false.
    change (FLOAT8OID =? DATEOID) with false.
    change (FLOAT8OID =? TIMESTAMPOID) with false.
    change (FLOAT8OID =? FLOAT8OID) with true. cbv iota.
    cbn [GetValue_double bind].
    assert (Hc : 0 <= col < Z.of_nat (length (tts_attrs slot))).
    { apply array_get_Ok in Hatt. destruct Hatt as [H0 Hn].
      split; [exact H0 |].
      assert ((Z.to_nat col < length (tts_attrs slot))%nat)
        by (apply nth_error_Some; congruence). lia. }
    rewrite array_set_ok by exact Hc. cbn [bind].
    rewrite store_value_ok by (simpl; exact Hcol). cbn [bind tts_values tts_attrs].
    split; [reflexivity |].
    split.
    + rewrite datum_at_set by exact Hcol. f_equal.
      apply uint64_small. exact Hd.
    + unfold array_get. simpl tts_attrs.
      assert (E : (col <? 0) = false) by (apply Z.ltb_ge; lia).
      rewrite E, nth_error_list_set by lia. reflexivity.
Qed.

Lemma bool_float8_round_trip_witness :
  (exists vec' b slot',
      ConvertPostgresToDuckValue Sample.host [] 1
        (Sample.vector (plain BOOLEAN)) 0 = Ok vec'
      /\ cell_at vec' 0 = Some (CellBool b)
      /\ ConvertDuckToPostgresValue [] (Sample.slot1 BOOLOID 1 true)
           (VBoolean b) 0 = Ok ([], slot')
      /\ datum_at slot' 0 = Some 1)
  /\ (exists vec' slot',
      ConvertPostgresToDuckValue Sample.host [] 4611686018427387904
        (Sample.vector (plain DOUBLE)) 0 = Ok vec'
      /\ cell_at vec' 0 = Some (CellDouble 4611686018427387904)
      /\ ConvertDuckToPostgresValue [] (Sample.slot1 FLOAT8OID 8 false)
           (VDouble 4611686018427387904) 0 = Ok ([], slot')
      /\ datum_at slot' 0 = Some 4611686018427387904
      /\ array_get (tts_attrs slot') 0
         = Ok (set_attr_float8 (Sample.attribute FLOAT8OID 8 false))).
Proof.
  split.
  - refine (proj1 (bool_float8_round_trip Sample.host []
                     (Sample.vector (plain BOOLEAN)) 0
                     (Sample.slot1 BOOLOID 1 true) 0
                     (Sample.attribute BOOLOID 1 true) _ _ _) 1 _ _ _);
      try reflexivity; simpl; lia.
  - refine (proj2 (bool_float8_round_trip Sample.host []
                     (Sample.vector (plain DOUBLE)) 0
                     (Sample.slot1 FLOAT8OID 8 false) 0
                     (Sample.attribute FLOAT8OID 8 false) _ _ _)
              4611686018427387904 _ _ _);
      try reflexivity; simpl; lia.
Defined.

(** ** Text *)

Lemma heap_fresh_above : forall h a o,
  heap_find h a = Some o -> a < heap_fresh h.
Proof.
  intros h a o H. unfold heap_fresh.
  assert (Hm : a <= fold_right (fun e m => Z.max (fst e) m) 0 h
               /\ 0 <= fold_right (fun e m => Z.max (fst e) m) 0 h).
  { induction h as [| [b p] h IH]; simpl in *.
    - discriminate H.
    - destruct (b =? a) eqn:E.
      + apply Z.eqb_eq in E. subst.
        assert (0 <= fold_right (fun e m => Z.max (fst e) m) 0 h).
        { clear. induction h as [| e h IH]; simpl; lia. }
        lia.
      + specialize (IH H). lia. }
  lia.
Qed.

Lemma heap_fresh_unused : forall h, heap_find h (heap_fresh h) = None.
Proof.
  intros h. destruct (heap_find h (heap_fresh h)) as [o |] eqn:E;
    [| reflexivity].
  apply heap_fresh_above in E. lia.
Qed.

(** X5.  Row to column and back for text.  The bytes of the source varlena
    are copied into the vector, and column to row copies them again into
    storage allocated for the purpose: the datum written to the slot
    points to a new object with the same bytes, at an address no object
    had before, and every object of the heap is still where it was. *)
Theorem text_round_trip :
  forall fp h vec offset slot col att value s,
    type_id (vec_type vec) = VARCHAR ->
    In (atttypid att) [BPCHAROID; TEXTOID; VARCHAROID] ->
    0 <= offset < Z.of_nat (length (vec_data vec)) ->
    0 <= col < Z.of_nat (length (tts_values slot)) ->
    array_get (tts_attrs slot) col = Ok att ->
    heap_find h value = Some (TextObject s) ->
    exists vec' h' slot',
      ConvertPostgresToDuckValue fp h value vec offset = Ok vec'
      /\ cell_at vec' offset = Some (CellString s)
      /\ ConvertDuckToPostgresValue h slot (VVarchar s) col = Ok (h', slot')
      /\ datum_at slot' col = Some (to_Datum (heap_fresh h))
      /\ heap_find h' (heap_fresh h) = Some (TextObject s)
      /\ heap_find h (heap_fresh h) = None
      /\ heap_fresh h <> value
      /\ (forall a o, heap_find h a = Some o -> heap_find h' a = Some o).
Proof.
  intros fp h vec offset slot col att value s Hvt Hin Hoff Hcol Hatt Hfind.
  unfold ConvertPostgresToDuckValue. rewrite Hvt.
  unfold AppendString. rewrite Hfind. rewrite Append_ok by exact Hoff.
  eexists. exists ((heap_fresh h, TextObject s) :: h). eexists.
  split; [reflexivity |]. split; [apply cell_at_set; exact Hoff |].
  assert (Hconv : ConvertDuckToPostgresValue h slot (VVarchar s) col
                  = (s' <- store_value slot col (to_Datum (heap_fresh h)) ;;
                     Ok ((heap_fresh h, TextObject s) :: h, s'))).
  { unfold ConvertDuckToPostgresValue. rewrite Hatt. cbn [bind].
    simpl in Hin. destruct Hin as [<- | [<- | [<- | []]]]; reflexivity. }
  rewrite Hconv, store_value_ok by exact Hcol. cbn [bind].
  split; [reflexivity |].
  split; [apply datum_at_set; exact Hcol |].
  split; [simpl; rewrite Z.eqb_refl; reflexivity |].
  split; [apply heap_fresh_unused |].
  split.
  - intros Heq. pose proof (heap_fresh_unused h) as Hn.
    rewrite Heq, Hfind in Hn. discriminate Hn.
  - intros a o Ha. simpl.
    destruct (heap_fresh h =? a) eqn:E; [| exact Ha].
    apply Z.eqb_eq in E. apply heap_fresh_above in Ha. lia.
Qed.

Lemma text_round_trip_witness :
  exists vec' h' slot',
    ConvertPostgresToDuckValue Sample.host Sample.heap3 1028
      (Sample.vector (plain VARCHAR)) 0 = Ok vec'
    /\ cell_at vec' 0 = Some (CellString [97; 98])
    /\ ConvertDuckToPostgresValue Sample.heap3
         (Sample.slot1 TEXTOID (-1) false) (VVarchar [97; 98]) 0
       = Ok (h', slot')
    /\ datum_at slot' 0 = Some (to_Datum (heap_fresh Sample.heap3))
    /\ heap_find h' (heap_fresh Sample.heap3) = Some (TextObject [97; 98])
    /\ heap_find Sample.heap3 (heap_fresh Sample.heap3) = None
    /\ heap_fresh Sample.heap3 <> 1028
    /\ (forall a o, heap_find Sample.heap3 a = Some o ->
                    heap_find h' a = Some o).
Proof.
  refine (text_round_trip Sample.host Sample.heap3
            (Sample.vector (plain VARCHAR)) 0
            (Sample.slot1 TEXTOID (-1) false) 0
            (Sample.attribute TEXTOID (-1) false) 1028 [97; 98]
            _ _ _ _ _ _).
  - reflexivity.
  - simpl. tauto.
  - simpl. lia.
  - simpl. lia.
  - reflexivity.
  - reflexivity.
Defined.

(** ** What a conversion leaves alone *)

Lemma length_list_set : forall (A : Type) (l : list A) i x,
  length (list_set l i x) = length l.
Proof.
  intros A l. induction l as [| a l IH]; intros i x; simpl.
  - reflexivity.
  - destruct i; simpl; [reflexivity | rewrite IH; reflexivity].
Qed.

Lemma array_set_Ok : forall (A : Type) (l l' : list A) i x,
  array_set l i x = Ok l' ->
  0 <= i < Z.of_nat (length l) /\ l' = list_set l (Z.to_nat i) x.
Proof.
  intros A l l' i x H. unfold array_set in H.
  destruct ((0 <=? i) && (i <? Z.of_nat (length l))) eqn:E;
    [| discriminate H].
  injection H as H. apply andb_true_iff in E. destruct E as [E1 E2].
  apply Z.leb_le in E1. apply Z.ltb_lt in E2. split; [lia | congruence].
Qed.

Lemma Append_Ok : forall vec c offset vec',
  Append vec c offset = Ok vec' ->
  0 <= offset < Z.of_nat (length (vec_data vec))
  /\ vec' = mkVector (vec_type vec)
              (list_set (vec_data vec) (Z.to_nat offset) c)
              (vec_validity vec).
Proof.
  intros vec c offset vec' H. unfold Append in H.
  apply bind_Ok in H. destruct H as [d [Hd H]].
  apply array_set_Ok in Hd. destruct Hd as [Hr ->].
  injection H as <-. split; [exact Hr | reflexivity].
Qed.

(** Every successful row-to-column conversion is one write into the
    data array. *)
Lemma ConvertPostgresToDuckValue_Ok :
  forall fp h value vec offset vec',
    ConvertPostgresToDuckValue fp h value vec offset = Ok vec' ->
    exists c, Append vec c offset = Ok vec'.
Proof.
  intros fp h value vec offset vec' H.
  unfold ConvertPostgresToDuckValue in H.
  destruct (type_id (vec_type vec)); try discriminate H;
    try (eexists; exact H).
  - unfold AppendString in H.
    destruct (heap_find h value) as [[s | n] |]; try discriminate H.
    eexists; exact H.
  - destruct (aux_info (vec_type vec)) as [[| |] |];
      try (eexists; exact H).
    apply bind_Ok in H. destruct H as [nv [_ H]].
    apply bind_Ok in H. destruct H as [dv [_ H]].
    eexists; exact H.
Qed.

(** X6.  A successful row-to-column conversion writes the cell of its row
    and nothing else: the vector keeps its type, its validity mask and
    its length, and the cells of all other rows. *)
Theorem row_to_column_writes_one_cell :
  forall fp h value vec offset vec',
    ConvertPostgresToDuckValue fp h value vec offset = Ok vec' ->
    vec_type vec' = vec_type vec
    /\ vec_validity vec' = vec_validity vec
    /\ length (vec_data vec') = length (vec_data vec)
    /\ 0 <= offset < Z.of_nat (length (vec_data vec))
    /\ (exists c, cell_at vec' offset = Some c /\ c <> CellEmpty)
    /\ (forall row, row <> Z.to_nat offset ->
                    nth_error (vec_data vec') row
                    = nth_error (vec_data vec) row).
Proof.
  intros fp h value vec offset vec' H.
  assert (Hne : exists c, Append vec c offset = Ok vec' /\ c <> CellEmpty).
  { unfold ConvertPostgresToDuckValue in H.
    destruct (type_id (vec_type vec)); try discriminate H;
      try (eexists; split; [exact H | discriminate]).
    - unfold AppendString in H.
      destruct (heap_find h value) as [[s | n] |]; try discriminate H.
      eexists; split; [exact H | discriminate].
    - destruct (aux_info (vec_type vec)) as [[| |] |];
        try (eexists; split; [exact H | discriminate]).
      apply bind_Ok in H. destruct H as [nv [_ H]].
      apply bind_Ok in H. destruct H as [dv [_ H]].
      eexists; split; [exact H | discriminate]. }
  destruct Hne as [c [Hc Hnon]].
  apply Append_Ok in Hc. destruct Hc as [Hr ->]. simpl.
  split; [reflexivity |]. split; [reflexivity |].
  split; [apply length_list_set |]. split; [exact Hr |].
  split.
  - exists c. split; [| exact Hnon].
    unfold cell_at. simpl. apply nth_error_list_set. lia.
  - intros row Hrow. apply nth_error_list_set_other. congruence.
Qed.

Lemma row_to_column_writes_one_cell_witness :
  exists vec',
    ConvertPostgresToDuckValue Sample.host [] (to_Datum 5)
      (mkVector (plain INTEGER) [CellInt32 1; CellEmpty; CellInt32 3]
                [true; true; true]) 1 = Ok vec'
    /\ vec_data vec' = [CellInt32 1; CellInt32 5; CellInt32 3]
    /\ nth_error (vec_data vec') 2 = Some (CellInt32 3).
Proof.
  eexists. split; [reflexivity |]. split; [reflexivity |].
  refine (eq_trans
            (proj2 (proj2 (proj2 (proj2 (proj2
               (row_to_column_writes_one_cell Sample.host [] (to_Datum 5)
                  (mkVector (plain INTEGER)
                            [CellInt32 1; CellEmpty; CellInt32 3]
                            [true; true; true]) 1 _ eq_refl))))) 2%nat _)
            eq_refl).
  discriminate.
Defined.

Lemma store_value_Ok : forall slot col d s,
  store_value slot col d = Ok s ->
  0 <= col < Z.of_nat (length (tts_values slot))
  /\ s = mkSlot (tts_attrs slot)
           (list_set (tts_values slot) (Z.to_nat col) d).
Proof.
  intros slot col d s H. unfold store_value in H.
  apply bind_Ok in H. destruct H as [vs [Hs H]].
  apply array_set_Ok in Hs. destruct Hs as [Hr ->].
  injection H as <-. split; [exact Hr | reflexivity].
Qed.

Lemma store_value_frame : forall h slot value col d s,
  store_value slot col d = Ok s ->
  column_to_row_frame h slot value col h s.
Proof.
  intros h slot value col d s H.
  apply store_value_Ok in H. destruct H as [Hr ->].
  unfold column_to_row_frame. simpl.
  split; [apply length_list_set |].
  split; [intros c Hc; apply nth_error_list_set_other; congruence |].
  split; left; reflexivity.
Qed.

(** X7.  A successful column-to-row conversion writes the datum of its column
    and leaves every other datum of the slot alone; it changes no
    attribute except, for a float8, the by-value flag of its own; and it
    leaves the heap alone except, for text, for the one object it
    allocates. *)
Theorem column_to_row_writes_one_datum :
  forall h slot value col h' slot',
    ConvertDuckToPostgresValue h slot value col = Ok (h', slot') ->
    column_to_row_frame h slot value col h' slot'.
Proof.
  intros h slot value col h' slot' H.
  unfold ConvertDuckToPostgresValue in H.
  apply bind_Ok in H. destruct H as [att [Hatt H]]. cbv zeta in H.
  repeat match type of H with
  | (if ?b then _ else _) = _ =>
      let E := fresh "E" in destruct b eqn:E
  end;
  try discriminate H;
  try (apply bind_Ok in H; destruct H as [x [_ H]];
       apply bind_Ok in H; destruct H as [s [Hs H]];
       injection H as <- <-;
       eapply store_value_frame; exact Hs).
  - (* text *)
    apply bind_Ok in H. destruct H as [str [Hstr H]].
    unfold palloc in H.
    apply bind_Ok in H. destruct H as [s [Hs H]].
    injection H as <- <-.
    apply store_value_Ok in Hs. destruct Hs as [Hr ->].
    unfold column_to_row_frame. simpl.
    split; [apply length_list_set |].
    split; [intros c Hc; apply nth_error_list_set_other; congruence |].
    split; [left; reflexivity | right].
    exists str. split; [| reflexivity].
    destruct value; try discriminate Hstr.
    injection Hstr as ->. reflexivity.
  - (* float8 *)
    apply bind_Ok in H. destruct H as [bits [_ H]].
    apply bind_Ok in H. destruct H as [ats [Hats H]].
    apply bind_Ok in H. destruct H as [s [Hs H]].
    injection H as <- <-.
    apply array_set_Ok in Hats. destruct Hats as [_ ->].
    apply store_value_Ok in Hs. destruct Hs as [Hr ->].
    unfold column_to_row_frame. simpl in *.
    split; [apply length_list_set |].
    split; [intros c Hc; apply nth_error_list_set_other; congruence |].
    split; [right | left; reflexivity].
    exists att. split; [exact Hatt |].
    split; [apply Z.eqb_eq; assumption | reflexivity].
Qed.

Lemma column_to_row_writes_one_datum_witness :
  column_to_row_frame [] (mkSlot [Sample.attribute INT4OID 4 true;
                                  Sample.attribute INT4OID 4 true] [11; 22])
    (VInteger 5) 1 []
    (mkSlot [Sample.attribute INT4OID 4 true;
             Sample.attribute INT4OID 4 true] [11; to_Datum 5]).
Proof.
  apply column_to_row_writes_one_datum. reflexivity.
Defined.

(** X8.  For every column type the mapping table gives a by-value kind, the
    row-to-column conversion succeeds on every datum, provided the row
    lies in the vector; for the text types it succeeds exactly when the
    datum points to a text object. *)
Theorem mapped_type_converts :
  forall fp h vec offset oid typmod value,
    Ok (vec_type vec) = ConvertPostgresToDuckColumnType oid typmod ->
    0 <= offset < Z.of_nat (length (vec_data vec)) ->
    (In oid [BOOLOID; CHAROID; INT2OID; INT4OID; INT8OID; DATEOID;
             TIMESTAMPOID; FLOAT8OID] ->
     exists vec', ConvertPostgresToDuckValue fp h value vec offset = Ok vec')
    /\ (In oid [BPCHAROID; TEXTOID; VARCHAROID] ->
        ((exists vec',
             ConvertPostgresToDuckValue fp h value vec offset = Ok vec')
         <-> exists s, heap_find h value = Some (TextObject s))).
Proof.
  intros fp h vec offset oid typmod value Hv Hoff. split.
  - intros Hin. simpl in Hin.
    destruct Hin as [<- | [<- | [<- | [<- | [<- | [<- | [<- | [<- | []]]]]]]]];
      simpl in Hv; injection Hv as Hv;
      unfold ConvertPostgresToDuckValue; rewrite Hv; cbn [type_id plain aux_info];
      rewrite Append_ok by exact Hoff; eexists; reflexivity.
  - intros Hin.
    assert (Ht : type_id (vec_type vec) = VARCHAR).
    { simpl in Hin. destruct Hin as [<- | [<- | [<- | []]]];
        simpl in Hv; injection Hv as ->; reflexivity. }
    unfold ConvertPostgresToDuckValue. rewrite Ht. unfold AppendString.
    split.
    + intros [vec' H].
      destruct (heap_find h value) as [[s | n] |]; try discriminate H.
      exists s. reflexivity.
    + intros [s Hs]. rewrite Hs. rewrite Append_ok by exact Hoff.
      eexists. reflexivity.
Qed.

Lemma mapped_type_converts_witness :
  (exists vec',
      ConvertPostgresToDuckValue Sample.host [] 12345
        (Sample.vector (plain TIMESTAMP)) 0 = Ok vec')
  /\ ~ (exists vec',
          ConvertPostgresToDuckValue Sample.host Sample.heap3 7
            (Sample.vector (plain VARCHAR)) 0 = Ok vec').
Proof.
  split.
  - refine (proj1 (mapped_type_converts Sample.host []
                     (Sample.vector (plain TIMESTAMP)) 0 TIMESTAMPOID 0 12345
                     eq_refl _) _); simpl; [lia | tauto].
  - intros H.
    apply (proj2 (mapped_type_converts Sample.host Sample.heap3
                    (Sample.vector (plain VARCHAR)) 0 TEXTOID 0 7
                    eq_refl ltac:(simpl; lia))) in H;
      [| simpl; tauto].
    destruct H as [s Hs]. discriminate Hs.
Defined.

(* ================================================================== *)
(** * Properties: the offset cache *)
(* ================================================================== *)

Lemma uint32_range : forall z, 0 <= uint32 z < 2 ^ 32.
Proof.
  intros z. unfold uint32, wrap_unsigned. apply Z.mod_pos_bound. lia.
Qed.

Lemma uint32_small : forall z, 0 <= z < 2 ^ 32 -> uint32 z = z.
Proof.
  intros z Hz. unfold uint32, wrap_unsigned. apply Z.mod_small. exact Hz.
Qed.

Lemma int32_small : forall z, - 2 ^ 31 <= z < 2 ^ 31 -> int32 z = z.
Proof.
  intros z Hz. unfold int32. apply wrap_signed_small; [lia |].
  unfold in_signed. simpl. lia.
Qed.

(** A non-negative [int] read back from the [uint32] it was cast from is
    that [uint32]. *)
Lemma int32_of_uint32_nonneg : forall z,
  0 <= z < 2 ^ 32 -> 0 <= int32 z -> int32 z = z /\ z < 2 ^ 31.
Proof.
  intros z Hz Hc. unfold int32, wrap_signed in *.
  change (2 ^ (32 - 1)) with 2147483648 in *.
  change (2 ^ 32) with 4294967296 in *.
  change (2 ^ 31) with 2147483648.
  destruct (Z_lt_ge_dec z 2147483648) as [Hl | Hg].
  - rewrite Z.mod_small by lia. lia.
  - replace (z + 2147483648) with (z - 2147483648 + 1 * 4294967296) in Hc
      by lia.
    rewrite Z.mod_add in Hc by lia.
    rewrite Z.mod_small in Hc by lia. lia.
Qed.

Lemma shape_nth_error : forall l1 l2 j,
  map att_shape l1 = map att_shape l2 ->
  option_map att_shape (nth_error l1 j)
  = option_map att_shape (nth_error l2 j).
Proof.
  intros l1 l2 j H. rewrite <- !nth_error_map. rewrite H. reflexivity.
Qed.

Lemma shape_nth_error_Some : forall l1 l2 j a,
  map att_shape l1 = map att_shape l2 ->
  nth_error l1 j = Some a ->
  exists b, nth_error l2 j = Some b
            /\ attlen b = attlen a /\ attalign b = attalign a.
Proof.
  intros l1 l2 j a H Hn.
  pose proof (shape_nth_error l1 l2 j H) as E. rewrite Hn in E.
  destruct (nth_error l2 j) as [b |]; [| discriminate E].
  simpl in E. unfold att_shape in E. injection E as _ E1 _ E2.
  exists b. split; [reflexivity |]. split; congruence.
Qed.

(** The predicted offsets depend on the shape of the descriptor only. *)
Lemma run_off_shape : forall M l1 l2 i,
  map att_shape l1 = map att_shape l2 ->
  run_off M l1 i = run_off M l2 i.
Proof.
  intros M l1 l2 i H. induction i as [| i IH]; [reflexivity |].
  simpl. rewrite IH.
  destruct (run_off M l2 i) as [o |]; [| reflexivity].
  pose proof (shape_nth_error l1 l2 i H) as E.
  destruct (nth_error l1 i) as [a |], (nth_error l2 i) as [b |];
    try discriminate E; [| reflexivity].
  simpl in E. unfold att_shape in E. injection E as _ E1 _ E2.
  unfold att_start. rewrite E1, E2. reflexivity.
Qed.

Lemma run_off_range : forall M l i o,
  run_off M l i = Some o -> 0 <= o < 2 ^ 32.
Proof.
  intros M l i o H. destruct i as [| i]; simpl in H.
  - injection H as H. subst. lia.
  - destruct (run_off M l i); [| discriminate H].
    destruct (nth_error l i) as [a |]; [| discriminate H].
    destruct (attlen a <=? 0); [discriminate H |].
    injection H as H. subst. apply uint32_range.
Qed.

Lemma run_off_next : forall M l i o a,
  run_off M l i = Some o -> nth_error l i = Some a -> 0 < attlen a ->
  run_off M l (S i) = Some (uint32 (att_start M o a + attlen a)).
Proof.
  intros M l i o a Ho Ha Hl. simpl. rewrite Ho, Ha.
  destruct (attlen a <=? 0) eqn:E; [apply Z.leb_le in E; lia | reflexivity].
Qed.

(** Writing the predicted start of an attribute into its cache keeps the
    cache sound. *)
Lemma cache_ok_set : forall M ats i a o,
  cache_ok M ats ->
  nth_error ats i = Some a ->
  run_off M ats i = Some o ->
  (attlen a = -1 -> o = att_align_nominal M o (attalign a)) ->
  cache_ok M (list_set ats i (set_attcacheoff a (int32 (att_start M o a)))).
Proof.
  intros M ats i a o Hok Ha Ho Hv j b Hb Hc.
  assert (Hsh : map att_shape
                  (list_set ats i
                     (set_attcacheoff a (int32 (att_start M o a))))
                = map att_shape ats)
    by (eapply list_set_shape; [exact Ha | reflexivity]).
  rewrite (run_off_shape M _ _ j Hsh).
  destruct (Nat.eq_dec i j) as [<- | Hne].
  - rewrite nth_error_list_set in Hb
      by (apply nth_error_Some; congruence).
    injection Hb as Hb. subst b. simpl in *.
    destruct (int32_of_uint32_nonneg (att_start M o a)
                (uint32_range _) Hc) as [E Hlt].
    split; [rewrite E; exact Hlt |].
    exists o. split; [exact Ho |]. split; [exact E | exact Hv].
  - rewrite nth_error_list_set_other in Hb by exact Hne.
    apply (Hok j b Hb Hc).
Qed.

Lemma array_get_in_range : forall (A : Type) (l : list A) i x,
  array_get l i = Ok x -> 0 <= i < Z.of_nat (length l).
Proof.
  intros A l i x H. apply array_get_Ok in H. destruct H as [Hi Hn].
  assert (Hlt : (Z.to_nat i < length l)%nat)
    by (apply nth_error_Some; congruence).
  lia.
Qed.

Section CacheFacts.

Variable M : TupleMacros.
Variable tuple : HeapTupleData.

(** With a sound cache, the branch of the loop body that places an
    attribute arrives where the placement without a cache arrives, and
    leaves the cache sound. *)
Lemma locate_place : forall attnum s thisatt off slow ats,
  array_get (l_attrs s) attnum = Ok thisatt ->
  cache_ok M (l_attrs s) ->
  (l_slow s = false ->
   run_off M (l_attrs s) (Z.to_nat attnum) = Some (l_off s)) ->
  (if negb (l_slow s) && (attcacheoff thisatt >=? 0) then
     Ok (uint32 (attcacheoff thisatt), l_slow s, l_attrs s)
   else if attlen thisatt =? -1 then
     if negb (l_slow s)
        && (l_off s =? att_align_nominal M (l_off s) (attalign thisatt))
     then
       ats <- array_set (l_attrs s) attnum
                (set_attcacheoff thisatt (int32 (l_off s))) ;;
       Ok (l_off s, l_slow s, ats)
     else
       o <- att_align_pointer M (l_off s) (attalign thisatt) (-1)
              (tp_at tuple (l_off s)) ;;
       Ok (uint32 o, true, l_attrs s)
   else
     let off := uint32 (att_align_nominal M (l_off s) (attalign thisatt)) in
     if negb (l_slow s) then
       ats <- array_set (l_attrs s) attnum
                (set_attcacheoff thisatt (int32 off)) ;;
       Ok (off, l_slow s, ats)
     else Ok (off, l_slow s, l_attrs s)) = Ok (off, slow, ats) ->
  place M tuple thisatt (l_off s) (l_slow s) = Ok (off, slow)
  /\ map att_shape ats = map att_shape (l_attrs s)
  /\ cache_ok M ats
  /\ (slow = false -> l_slow s = false /\ off = att_start M (l_off s) thisatt).
Proof.
  intros attnum s thisatt off slow ats Ha Hok Hinv H.
  pose proof (array_get_Ok _ _ _ _ Ha) as [Hi Hn].
  unfold place.
  destruct (l_slow s) eqn:Es; simpl in H |- *.
  - (* slow mode *)
    destruct (attlen thisatt =? -1).
    + apply bind_Ok in H. destruct H as [o [Ho H]].
      injection H as H1 H2 H3. subst. rewrite Ho. simpl.
      split; [reflexivity |]. split; [reflexivity |].
      split; [exact Hok | intros Hc; discriminate Hc].
    + injection H as H1 H2 H3. subst.
      split; [reflexivity |]. split; [reflexivity |].
      split; [exact Hok | intros Hc; discriminate Hc].
  - specialize (Hinv eq_refl).
    pose proof (run_off_range _ _ _ _ Hinv) as Hr.
    destruct (attcacheoff thisatt >=? 0) eqn:Ec.
    + (* the cached offset is used *)
      injection H as H1 H2 H3. subst.
      assert (Hc : 0 <= attcacheoff thisatt)
        by (apply Z.geb_le in Ec; lia).
      destruct (Hok _ _ Hn Hc) as [Hlt [o [Ho [Hs Hv]]]].
      rewrite Hinv in Ho. injection Ho as Ho. subst o.
      rewrite uint32_small by (change (2 ^ 32) with 4294967296;
                               change (2 ^ 31) with 2147483648 in Hlt; lia).
      split; [| split; [reflexivity | split; [exact Hok |]]].
      * destruct (attlen thisatt =? -1) eqn:El.
        -- apply Z.eqb_eq in El. specialize (Hv El).
           rewrite <- Hv. rewrite Z.eqb_refl.
           rewrite Hs. unfold att_start. rewrite <- Hv.
           rewrite uint32_small by exact Hr. reflexivity.
        -- rewrite Hs. reflexivity.
      * intros _. split; [reflexivity | exact Hs].
    + destruct (attlen thisatt =? -1) eqn:El.
      * destruct (l_off s =? att_align_nominal M (l_off s)
                               (attalign thisatt)) eqn:Eal.
        -- apply bind_Ok in H. destruct H as [ats' [Hset H]].
           injection H as H1 H2 H3. subst.
           apply Z.eqb_eq in Eal.
           assert (Est : att_start M (l_off s) thisatt = l_off s).
           { unfold att_start. rewrite <- Eal.
             apply uint32_small. exact Hr. }
           apply array_set_Ok in Hset. destruct Hset as [_ Hset]. subst ats.
           split; [reflexivity |]. split.
           ++ eapply list_set_shape; [exact Hn | reflexivity].
           ++ split.
              ** replace (int32 (l_off s))
                   with (int32 (att_start M (l_off s) thisatt))
                   by (rewrite Est; reflexivity).
                 apply cache_ok_set; [exact Hok | exact Hn | exact Hinv |].
                 intros _. exact Eal.
              ** intros _. split; [reflexivity | symmetry; exact Est].
        -- apply bind_Ok in H. destruct H as [o [Ho H]].
           injection H as H1 H2 H3. subst. rewrite Ho. simpl.
           split; [reflexivity |]. split; [reflexivity |].
           split; [exact Hok | intros Hc; discriminate Hc].
      * apply bind_Ok in H. destruct H as [ats' [Hset H]].
        injection H as H1 H2 H3. subst.
        apply array_set_Ok in Hset. destruct Hset as [_ Hset]. subst ats.
        split; [reflexivity |]. split.
        -- eapply list_set_shape; [exact Hn | reflexivity].
        -- split.
           ++ apply cache_ok_set; [exact Hok | exact Hn | exact Hinv |].
              intros Hl. apply Z.eqb_neq in El. contradiction.
           ++ intros _. split; reflexivity.
Qed.

(** Conversely, where the placement without a cache arrives, the loop
    body arrives with a sound cache. *)
Lemma place_locate : forall attnum s thisatt off slow,
  array_get (l_attrs s) attnum = Ok thisatt ->
  cache_ok M (l_attrs s) ->
  (l_slow s = false ->
   run_off M (l_attrs s) (Z.to_nat attnum) = Some (l_off s)) ->
  place M tuple thisatt (l_off s) (l_slow s) = Ok (off, slow) ->
  exists ats,
  (if negb (l_slow s) && (attcacheoff thisatt >=? 0) then
     Ok (uint32 (attcacheoff thisatt), l_slow s, l_attrs s)
   else if attlen thisatt =? -1 then
     if negb (l_slow s)
        && (l_off s =? att_align_nominal M (l_off s) (attalign thisatt))
     then
       ats <- array_set (l_attrs s) attnum
                (set_attcacheoff thisatt (int32 (l_off s))) ;;
       Ok (l_off s, l_slow s, ats)
     else
       o <- att_align_pointer M (l_off s) (attalign thisatt) (-1)
              (tp_at tuple (l_off s)) ;;
       Ok (uint32 o, true, l_attrs s)
   else
     let off := uint32 (att_align_nominal M (l_off s) (attalign thisatt)) in
     if negb (l_slow s) then
       ats <- array_set (l_attrs s) attnum
                (set_attcacheoff thisatt (int32 off)) ;;
       Ok (off, l_slow s, ats)
     else Ok (off, l_slow s, l_attrs s)) = Ok (off, slow, ats).
Proof.
  intros attnum s thisatt off slow Ha Hok Hinv H.
  pose proof (array_get_Ok _ _ _ _ Ha) as [Hi Hn].
  pose proof (array_get_in_range _ _ _ _ Ha) as Hrange.
  unfold place in H.
  destruct (l_slow s) eqn:Es; simpl in H |- *.
  - destruct (attlen thisatt =? -1).
    + apply bind_Ok in H. destruct H as [o [Ho H]].
      injection H as H1 H2. subst. rewrite Ho. simpl.
      eexists. reflexivity.
    + injection H as H1 H2. subst. eexists. reflexivity.
  - specialize (Hinv eq_refl).
    pose proof (run_off_range _ _ _ _ Hinv) as Hr.
    destruct (attcacheoff thisatt >=? 0) eqn:Ec.
    + assert (Hc : 0 <= attcacheoff thisatt)
        by (apply Z.geb_le in Ec; lia).
      destruct (Hok _ _ Hn Hc) as [Hlt [o [Ho [Hs Hv]]]].
      rewrite Hinv in Ho. injection Ho as Ho. subst o.
      rewrite uint32_small by (change (2 ^ 32) with 4294967296;
                               change (2 ^ 31) with 2147483648 in Hlt; lia).
      exists (l_attrs s).
      destruct (attlen thisatt =? -1) eqn:El.
      * apply Z.eqb_eq in El. specialize (Hv El).
        rewrite <- Hv in H. rewrite Z.eqb_refl in H.
        injection H as H1 H2. subst.
        rewrite Hs. unfold att_start. rewrite <- Hv.
        rewrite uint32_small by exact Hr. reflexivity.
      * injection H as H1 H2. subst. rewrite Hs. reflexivity.
    + destruct (attlen thisatt =? -1) eqn:El.
      * destruct (l_off s =? att_align_nominal M (l_off s)
                               (attalign thisatt)) eqn:Eal.
        -- injection H as H1 H2. subst.
           rewrite array_set_ok by exact Hrange. simpl.
           eexists. reflexivity.
        -- apply bind_Ok in H. destruct H as [o [Ho H]].
           injection H as H1 H2. subst. rewrite Ho. simpl.
           eexists. reflexivity.
      * injection H as H1 H2. subst.
        rewrite array_set_ok by exact Hrange. simpl.
        eexists. reflexivity.
Qed.

End CacheFacts.

Lemma bind_Ok_intro :
  forall (A B : Type) (r : outcome A) (k : A -> outcome B) a b,
    r = Ok a -> k a = Ok b -> bind r k = Ok b.
Proof.
  intros A B r k a b Hr Hk. rewrite Hr. exact Hk.
Qed.

Lemma shape_array_get : forall l1 l2 i a,
  map att_shape l1 = map att_shape l2 ->
  array_get l1 i = Ok a ->
  exists b, array_get l2 i = Ok b /\ att_shape b = att_shape a.
Proof.
  intros l1 l2 i a H Ha. unfold array_get in *.
  destruct (i <? 0); [discriminate Ha |].
  pose proof (shape_nth_error l1 l2 (Z.to_nat i) H) as E.
  destruct (nth_error l1 (Z.to_nat i)) as [a' |]; [| discriminate Ha].
  injection Ha as Ha. subst a'.
  destruct (nth_error l2 (Z.to_nat i)) as [b |]; [| discriminate E].
  cbn [option_map] in E. exists b. split; [reflexivity | congruence].
Qed.

Lemma place_shape : forall M tuple a b off slow,
  att_shape a = att_shape b ->
  place M tuple a off slow = place M tuple b off slow.
Proof.
  intros M tuple a b off slow H. unfold att_shape in H.
  injection H as _ H1 _ H2.
  unfold place, att_start. rewrite H1, H2. reflexivity.
Qed.

Section CacheRuns.

Variable M : TupleMacros.
Variable tuple : HeapTupleData.

(** One iteration of the attribute loop keeps the cache sound and, out
    of slow mode, leaves the offset where the shape of the descriptor
    predicts it. *)
Lemma fetch_attribute_inv : forall attnum s s',
  fixed_lengths_add M ->
  reader_inv M attnum s ->
  fetch_attribute M tuple attnum s = Ok s' ->
  reader_inv M (attnum + 1) s'.
Proof.
  intros attnum s s' Hadd [Hok Hinv] H. unfold fetch_attribute in H.
  apply bind_Ok in H. destruct H as [thisatt [Ha H]].
  apply bind_Ok in H. destruct H as [null [_ H]].
  destruct null.
  - injection H as H. subst s'. split; simpl.
    + exact Hok.
    + intros Hc. discriminate Hc.
  - apply bind_Ok in H. destruct H as [[[off slow] ats] [Hl H]].
    apply bind_Ok in H. destruct H as [value [_ H]].
    apply bind_Ok in H. destruct H as [o [Ho H]].
    injection H as H. subst s'.
    destruct (locate_place M tuple _ _ _ _ _ _ Ha Hok Hinv Hl)
      as [_ [Hsh [Hok' Hs]]].
    split; simpl; [exact Hok' |].
    destruct (attlen thisatt <=? 0) eqn:El; [intros Hc; discriminate Hc |].
    intros Hslow. destruct (Hs Hslow) as [Hs1 Hoff].
    apply Z.leb_gt in El.
    rewrite (Hadd _ _ _ El) in Ho. injection Ho as Ho. subst o.
    pose proof (array_get_Ok _ _ _ _ Ha) as [Hi Hn].
    rewrite (run_off_shape M _ _ _ Hsh).
    rewrite Z2Nat.inj_add by lia. change (Z.to_nat 1) with 1%nat.
    rewrite Nat.add_1_r.
    rewrite (run_off_next M _ _ _ _ (Hinv Hs1) Hn El).
    rewrite Hoff. reflexivity.
Qed.

(** Two runs of one iteration that differ in the descriptor's cache
    read the same. *)
Lemma fetch_attribute_sim : forall attnum s1 s2 s1',
  fetchatt_reads_shape M ->
  same_reading s1 s2 ->
  reader_inv M attnum s1 ->
  reader_inv M attnum s2 ->
  fetch_attribute M tuple attnum s1 = Ok s1' ->
  exists s2',
    fetch_attribute M tuple attnum s2 = Ok s2' /\ same_reading s1' s2'.
Proof.
  intros attnum s1 s2 s1' Hfetch [Eo [Es [_ [_ Esh]]]]
         [Hok1 Hinv1] [Hok2 Hinv2] H.
  unfold fetch_attribute in H.
  apply bind_Ok in H. destruct H as [a1 [Ha1 H]].
  apply bind_Ok in H. destruct H as [null [Hnull H]].
  destruct (shape_array_get _ _ _ _ Esh Ha1) as [a2 [Ha2 Ea]].
  destruct null.
  - injection H as H. subst s1'.
    exists (mkLoop (l_off s2) true 0 true (l_attrs s2)). split.
    + unfold fetch_attribute.
      eapply bind_Ok_intro; [exact Ha2 |]. cbv beta.
      eapply bind_Ok_intro; [exact Hnull |]. reflexivity.
    + unfold same_reading. simpl. repeat split; assumption.
  - apply bind_Ok in H. destruct H as [[[off slow] ats1] [Hl H]].
    apply bind_Ok in H. destruct H as [value [Hv H]].
    apply bind_Ok in H. destruct H as [o [Ho H]].
    injection H as H. subst s1'.
    destruct (locate_place M tuple _ _ _ _ _ _ Ha1 Hok1 Hinv1 Hl)
      as [Hp [Hsh1 _]].
    rewrite (place_shape M tuple a1 a2) in Hp by (symmetry; exact Ea).
    rewrite Eo, Es in Hp.
    destruct (place_locate M tuple _ _ _ _ _ Ha2 Hok2 Hinv2 Hp)
      as [ats2 Hl2].
    assert (Hsh2 : map att_shape ats2 = map att_shape (l_attrs s2)).
    { destruct (locate_place M tuple _ _ _ _ _ _ Ha2 Hok2 Hinv2 Hl2)
        as [_ [Hsh2 _]]. exact Hsh2. }
    assert (El : attlen a2 = attlen a1)
      by (unfold att_shape in Ea; congruence).
    exists (mkLoop (uint32 o)
                   (if attlen a2 <=? 0 then true else slow) value false ats2).
    split.
    + unfold fetch_attribute.
      eapply bind_Ok_intro; [exact Ha2 |]. cbv beta.
      eapply bind_Ok_intro; [exact Hnull |]. cbv beta iota zeta.
      eapply bind_Ok_intro; [exact Hl2 |]. cbv beta iota.
      eapply bind_Ok_intro;
        [rewrite (Hfetch a2 a1 _ Ea); exact Hv |]. cbv beta.
      eapply bind_Ok_intro; [rewrite El; exact Ho |]. reflexivity.
    + unfold same_reading. simpl. rewrite El.
      repeat split; try reflexivity. congruence.
Qed.

End CacheRuns.

Section CacheLoops.

Variable M : TupleMacros.
Variable tuple : HeapTupleData.

Lemma fetch_loop_inv : forall n attnum s s',
  fixed_lengths_add M ->
  reader_inv M attnum s ->
  fetch_loop M tuple n attnum s = Ok s' ->
  reader_inv M (attnum + Z.of_nat n) s'.
Proof.
  induction n as [| n IH]; intros attnum s s' Hadd Hinv H; simpl in H.
  - injection H as H. subst s'. rewrite Z.add_0_r. exact Hinv.
  - apply bind_Ok in H. destruct H as [s1 [H1 H]].
    pose proof (fetch_attribute_inv M tuple _ _ _ Hadd Hinv H1) as Hinv1.
    replace (attnum + Z.of_nat (S n)) with (attnum + 1 + Z.of_nat n) by lia.
    apply (IH _ _ _ Hadd Hinv1 H).
Qed.

Lemma fetch_loop_sim : forall n attnum s1 s2 s1',
  fixed_lengths_add M ->
  fetchatt_reads_shape M ->
  same_reading s1 s2 ->
  reader_inv M attnum s1 ->
  reader_inv M attnum s2 ->
  fetch_loop M tuple n attnum s1 = Ok s1' ->
  exists s2',
    fetch_loop M tuple n attnum s2 = Ok s2' /\ same_reading s1' s2'.
Proof.
  induction n as [| n IH];
    intros attnum s1 s2 s1' Hadd Hfetch Hsame Hinv1 Hinv2 H; simpl in H.
  - injection H as H. subst s1'. exists s2. split; [reflexivity | exact Hsame].
  - apply bind_Ok in H. destruct H as [t1 [H1 H]].
    destruct (fetch_attribute_sim M tuple _ _ _ _ Hfetch Hsame Hinv1 Hinv2 H1)
      as [t2 [H2 Hsame']].
    pose proof (fetch_attribute_inv M tuple _ _ _ Hadd Hinv1 H1) as Hinv1'.
    pose proof (fetch_attribute_inv M tuple _ _ _ Hadd Hinv2 H2) as Hinv2'.
    destruct (IH _ _ _ _ Hadd Hfetch Hsame' Hinv1' Hinv2' H)
      as [s2' [Hl2 Hs2]].
    exists s2'. split; [| exact Hs2].
    simpl. eapply bind_Ok_intro; [exact H2 | exact Hl2].
Qed.

(** The state a call of the reader starts its loop in satisfies the
    loop's invariant. *)
Lemma read_state_start : forall tupleDesc st isNull,
  read_state_inv M tupleDesc st ->
  reader_inv M (m_nvalid st)
    (mkLoop (fst (if m_nvalid st =? 0 then (0, false)
                  else (m_offset st, m_slow st)))
            (snd (if m_nvalid st =? 0 then (0, false)
                  else (m_offset st, m_slow st)))
            0 isNull (attrs tupleDesc)).
Proof.
  intros tupleDesc st isNull [Hnn [Hok Hinv]].
  split; simpl; [exact Hok |].
  destruct (m_nvalid st =? 0) eqn:E0; simpl.
  - intros _. apply Z.eqb_eq in E0. rewrite E0. reflexivity.
  - intros Hs. apply Z.eqb_neq in E0. apply Hinv; assumption.
Qed.

Lemma fetch_call_unfold : forall tupleDesc st natts isNull,
  HeapTupleFetchNextDatumValue M tuple tupleDesc st natts isNull
  = (s <- fetch_loop M tuple
            (Z.to_nat (Z.min (HeapTupleHeaderGetNatts (t_data tuple)) natts
                       - m_nvalid st))
            (m_nvalid st)
            (mkLoop (fst (if m_nvalid st =? 0 then (0, false)
                          else (m_offset st, m_slow st)))
                    (snd (if m_nvalid st =? 0 then (0, false)
                          else (m_offset st, m_slow st)))
                    0 isNull (attrs tupleDesc)) ;;
     Ok (l_value s, l_isNull s,
         mkReadState (l_slow s)
           (Z.max (m_nvalid st)
              (Z.min (HeapTupleHeaderGetNatts (t_data tuple)) natts))
           (l_off s),
         with_attrs tupleDesc (l_attrs s))).
Proof.
  intros tupleDesc st natts isNull. unfold HeapTupleFetchNextDatumValue.
  destruct (m_nvalid st =? 0); reflexivity.
Qed.

(** A call of the reader keeps the invariant between calls. *)
Lemma fetch_call_inv :
  forall tupleDesc st natts isNull value isNull' st' tupleDesc',
    fixed_lengths_add M ->
    read_state_inv M tupleDesc st ->
    HeapTupleFetchNextDatumValue M tuple tupleDesc st natts isNull
    = Ok (value, isNull', st', tupleDesc') ->
    read_state_inv M tupleDesc' st'.
Proof.
  intros tupleDesc st natts isNull value isNull' st' tupleDesc'
         Hadd Hinv H.
  pose proof (read_state_start tupleDesc st isNull Hinv) as Hstart.
  destruct Hinv as [Hnn _].
  rewrite fetch_call_unfold in H.
  apply bind_Ok in H. destruct H as [s [Hl H]].
  injection H as _ _ Hst Hd. subst st' tupleDesc'.
  apply (fetch_loop_inv _ _ _ _ Hadd Hstart) in Hl.
  destruct Hl as [Hok Hoff].
  set (k := Z.min (HeapTupleHeaderGetNatts (t_data tuple)) natts) in *.
  assert (E : m_nvalid st + Z.of_nat (Z.to_nat (k - m_nvalid st))
              = Z.max (m_nvalid st) k) by lia.
  rewrite E in Hoff.
  split; simpl; [lia |]. split; [exact Hok |].
  intros _ Hs. apply Hoff. exact Hs.
Qed.

(** Two calls of the reader that differ in the descriptor's cache
    return the same datum, null flag and read state. *)
Lemma fetch_call_sim :
  forall d1 d2 st count isNull value isNull' st' d1',
    fixed_lengths_add M ->
    fetchatt_reads_shape M ->
    map att_shape (attrs d1) = map att_shape (attrs d2) ->
    read_state_inv M d1 st ->
    read_state_inv M d2 st ->
    HeapTupleFetchNextDatumValue M tuple d1 st count isNull
    = Ok (value, isNull', st', d1') ->
    exists d2',
      HeapTupleFetchNextDatumValue M tuple d2 st count isNull
      = Ok (value, isNull', st', d2')
      /\ map att_shape (attrs d1') = map att_shape (attrs d2')
      /\ natts d2' = natts d2.
Proof.
  intros d1 d2 st count isNull value isNull' st' d1'
         Hadd Hfetch Hsh Hinv1 Hinv2 H.
  pose proof (read_state_start d1 st isNull Hinv1) as Hs1.
  pose proof (read_state_start d2 st isNull Hinv2) as Hs2.
  rewrite fetch_call_unfold in H.
  apply bind_Ok in H. destruct H as [s1 [Hl H]].
  injection H as Hv Hn Hst Hd. subst value isNull' st' d1'.
  assert (Hsame : same_reading
            (mkLoop (fst (if m_nvalid st =? 0 then (0, false)
                          else (m_offset st, m_slow st)))
                    (snd (if m_nvalid st =? 0 then (0, false)
                          else (m_offset st, m_slow st)))
                    0 isNull (attrs d1))
            (mkLoop (fst (if m_nvalid st =? 0 then (0, false)
                          else (m_offset st, m_slow st)))
                    (snd (if m_nvalid st =? 0 then (0, false)
                          else (m_offset st, m_slow st)))
                    0 isNull (attrs d2)))
    by (unfold same_reading; simpl; repeat split; try reflexivity;
        exact Hsh).
  destruct (fetch_loop_sim _ _ _ _ _ Hadd Hfetch Hsame Hs1 Hs2 Hl)
    as [s2 [Hl2 [Eo [Es [Ev [En Esh]]]]]].
  exists (with_attrs d2 (l_attrs s2)).
  split; [| split; [exact Esh | reflexivity]].
  rewrite fetch_call_unfold.
  eapply bind_Ok_intro; [exact Hl2 |].
  rewrite Eo, Es, Ev, En. reflexivity.
Qed.

End CacheLoops.

Lemma fetch_call_natts :
  forall M tuple tupleDesc st count isNull value isNull' st' tupleDesc',
    HeapTupleFetchNextDatumValue M tuple tupleDesc st count isNull
    = Ok (value, isNull', st', tupleDesc') ->
    natts tupleDesc' = natts tupleDesc.
Proof.
  intros M tuple tupleDesc st count isNull value isNull' st' tupleDesc' H.
  rewrite fetch_call_unfold in H.
  apply bind_Ok in H. destruct H as [s [_ H]].
  injection H as _ _ _ Hd. subst tupleDesc'. reflexivity.
Qed.

Section CacheRows.

Variable M : TupleMacros.
Variable fp : DoubleHost.
Variable h : Heap.
Variable slot : HeapTupleData.
Variable offset : Z.

Lemma insert_column_inv : forall i output tupleDesc st output' tupleDesc' st',
  fixed_lengths_add M ->
  read_state_inv M tupleDesc st ->
  insert_column M fp h slot offset i (output, tupleDesc, st)
  = Ok (output', tupleDesc', st') ->
  read_state_inv M tupleDesc' st'
  /\ map att_shape (attrs tupleDesc') = map att_shape (attrs tupleDesc)
  /\ natts tupleDesc' = natts tupleDesc.
Proof.
  intros i output tupleDesc st output' tupleDesc' st' Hadd Hinv H.
  apply insert_column_fetch in H. destruct H as [value [isNull H]].
  split; [| split].
  - eapply fetch_call_inv; eassumption.
  - destruct (fetch_call_facts _ _ _ _ _ _ _ _ _ _ H) as [_ [Hsh _]].
    exact Hsh.
  - eapply fetch_call_natts. exact H.
Qed.

Lemma insert_column_sim : forall i output d1 d2 st output' d1' st',
  fixed_lengths_add M ->
  fetchatt_reads_shape M ->
  map att_shape (attrs d1) = map att_shape (attrs d2) ->
  read_state_inv M d1 st ->
  read_state_inv M d2 st ->
  insert_column M fp h slot offset i (output, d1, st)
  = Ok (output', d1', st') ->
  exists d2',
    insert_column M fp h slot offset i (output, d2, st)
    = Ok (output', d2', st')
    /\ map att_shape (attrs d1') = map att_shape (attrs d2').
Proof.
  intros i output d1 d2 st output' d1' st' Hadd Hfetch Hsh Hinv1 Hinv2 H.
  unfold insert_column in H.
  apply bind_Ok in H. destruct H as [result [Hr H]].
  apply bind_Ok in H. destruct H as [[[[value isNull] st1] desc1] [Hf H]].
  apply bind_Ok in H. destruct H as [result' [Hc H]].
  apply bind_Ok in H. destruct H as [output1 [Hs H]].
  injection H as Ho Hd Hst. subst output1 desc1 st1.
  destruct (fetch_call_sim M slot _ _ _ _ _ _ _ _ _
              Hadd Hfetch Hsh Hinv1 Hinv2 Hf) as [d2' [Hf2 [Hsh' _]]].
  exists d2'. split; [| exact Hsh'].
  unfold insert_column.
  eapply bind_Ok_intro; [exact Hr |]. cbv beta zeta.
  eapply bind_Ok_intro; [exact Hf2 |]. cbv beta iota.
  eapply bind_Ok_intro; [exact Hc |]. cbv beta.
  eapply bind_Ok_intro; [exact Hs |]. reflexivity.
Qed.

Lemma insert_loop_inv :
  forall n i output tupleDesc st output' tupleDesc' st',
    fixed_lengths_add M ->
    read_state_inv M tupleDesc st ->
    insert_loop M fp h slot offset n i (output, tupleDesc, st)
    = Ok (output', tupleDesc', st') ->
    read_state_inv M tupleDesc' st'
    /\ map att_shape (attrs tupleDesc') = map att_shape (attrs tupleDesc)
    /\ natts tupleDesc' = natts tupleDesc.
Proof.
  induction n as [| n IH];
    intros i output tupleDesc st output' tupleDesc' st' Hadd Hinv H;
    simpl in H.
  - injection H as _ Hd Hs. subst.
    split; [exact Hinv | split; reflexivity].
  - apply bind_Ok in H. destruct H as [[[output1 desc1] st1] [H1 H]].
    destruct (insert_column_inv _ _ _ _ _ _ _ Hadd Hinv H1)
      as [Hinv1 [Hsh1 Hn1]].
    destruct (IH _ _ _ _ _ _ _ Hadd Hinv1 H) as [Hinv' [Hsh' Hn']].
    split; [exact Hinv' | split; congruence].
Qed.

Lemma insert_loop_sim : forall n i output d1 d2 st output' d1' st',
  fixed_lengths_add M ->
  fetchatt_reads_shape M ->
  map att_shape (attrs d1) = map att_shape (attrs d2) ->
  read_state_inv M d1 st ->
  read_state_inv M d2 st ->
  insert_loop M fp h slot offset n i (output, d1, st)
  = Ok (output', d1', st') ->
  exists d2',
    insert_loop M fp h slot offset n i (output, d2, st)
    = Ok (output', d2', st').
Proof.
  induction n as [| n IH];
    intros i output d1 d2 st output' d1' st' Hadd Hfetch Hsh Hinv1 Hinv2 H;
    simpl in H.
  - injection H as Ho Hd Hs. subst. exists d2. reflexivity.
  - apply bind_Ok in H. destruct H as [[[output1 e1] st1] [H1 H]].
    destruct (insert_column_sim _ _ _ _ _ _ _ _ Hadd Hfetch Hsh Hinv1 Hinv2 H1)
      as [e2 [H2 Hsh1]].
    destruct (insert_column_inv _ _ _ _ _ _ _ Hadd Hinv1 H1) as [Hi1 _].
    destruct (insert_column_inv _ _ _ _ _ _ _ Hadd Hinv2 H2) as [Hi2 _].
    destruct (IH _ _ _ _ _ _ _ _ Hadd Hfetch Hsh1 Hi1 Hi2 H) as [d2' Hl2].
    exists d2'. simpl. eapply bind_Ok_intro; [exact H2 | exact Hl2].
Qed.

End CacheRows.

Lemma read_state_inv_start : forall M tupleDesc,
  cache_ok M (attrs tupleDesc) ->
  read_state_inv M tupleDesc (mkReadState false 0 0).
Proof.
  intros M tupleDesc Hok. split; simpl; [lia |]. split; [exact Hok |].
  intros Hc. contradiction.
Qed.

Lemma pg_tupmacs_fixed_lengths_add : fixed_lengths_add Tupmacs.pg_tupmacs.
Proof.
  intros off len p Hl. simpl. unfold Tupmacs.att_addlength_pointer.
  destruct (len >? 0) eqn:E; [reflexivity |].
  rewrite Z.gtb_ltb in E. apply Z.ltb_ge in E. lia.
Qed.

Lemma pg_tupmacs_fetchatt_reads_shape :
  fetchatt_reads_shape Tupmacs.pg_tupmacs.
Proof.
  intros a b p H. unfold att_shape in H. injection H as _ H1 H2 _.
  simpl. unfold Tupmacs.fetchatt. rewrite H1, H2. reflexivity.
Qed.

(** A descriptor whose cache is empty has a sound cache. *)
Lemma cache_ok_clear : forall M ats, cache_ok M (clear_cache ats).
Proof.
  intros M ats i a Hn Hc. unfold clear_cache in Hn.
  rewrite nth_error_map in Hn.
  destruct (nth_error ats i); [| discriminate Hn].
  injection Hn as Hn. subst a. simpl in Hc. lia.
Qed.

Lemma clear_cache_shape : forall ats,
  map att_shape (clear_cache ats) = map att_shape ats.
Proof.
  intros ats. unfold clear_cache. rewrite map_map. reflexivity.
Qed.

(** X9.  Decoding a row does not depend on what the offset cache of the
    descriptor holds, as long as the cache is sound: with two
    descriptors of the same shape, both with a sound cache (an empty
    cache is one), [InsertTupleIntoChunk] fills the chunk with the same
    cells, and fails with one when it fails with the other.  The host's
    macros are assumed to add the length of a fixed-length attribute and
    to fetch by the attribute's shape. *)
Theorem offset_cache_is_transparent :
  forall M fp h tuple offset output d1 d2 output' d1',
    fixed_lengths_add M ->
    fetchatt_reads_shape M ->
    natts d1 = natts d2 ->
    map att_shape (attrs d1) = map att_shape (attrs d2) ->
    cache_ok M (attrs d1) ->
    cache_ok M (attrs d2) ->
    InsertTupleIntoChunk M fp h tuple offset output d1 = Ok (output', d1') ->
    exists d2',
      InsertTupleIntoChunk M fp h tuple offset output d2 = Ok (output', d2').
Proof.
  intros M fp h tuple offset output d1 d2 output' d1'
         Hadd Hfetch Hn Hsh Hok1 Hok2 H.
  unfold InsertTupleIntoChunk in H.
  apply bind_Ok in H. destruct H as [[[output1 e1] st1] [Hl H]].
  injection H as Ho Hd. simpl in Ho, Hd. subst output1 e1.
  destruct (insert_loop_sim M fp h tuple offset _ _ _ _ _ _ _ _ _
              Hadd Hfetch Hsh
              (read_state_inv_start M d1 Hok1)
              (read_state_inv_start M d2 Hok2) Hl) as [d2' Hl2].
  exists d2'. unfold InsertTupleIntoChunk. rewrite <- Hn.
  eapply bind_Ok_intro; [exact Hl2 | reflexivity].
Qed.

Lemma cached5_cache_ok :
  cache_ok Tupmacs.pg_tupmacs (attrs Sample.cached5).
Proof.
  intros i a Hn Hc.
  destruct i as [| [| [| [| [| i]]]]]; simpl in Hn;
    try (injection Hn as Hn; subst a; simpl in Hc |- *);
    try lia.
  - split; [reflexivity |]. exists 0. split; [reflexivity |].
    split; [reflexivity | intros Hl; discriminate Hl].
  - split; [reflexivity |]. exists 4. split; [reflexivity |].
    split; [reflexivity | intros Hl; discriminate Hl].
  - split; [reflexivity |]. exists 8. split; [reflexivity |].
    split; [reflexivity | intros Hl; discriminate Hl].
  - destruct i; discriminate Hn.
Defined.

Lemma offset_cache_is_transparent_witness :
  exists output' d1' d2',
    InsertTupleIntoChunk Tupmacs.pg_tupmacs Sample.host []
      Sample.tuple5 0 Sample.chunk5 Sample.cached5 = Ok (output', d1')
    /\ InsertTupleIntoChunk Tupmacs.pg_tupmacs Sample.host []
         Sample.tuple5 0 Sample.chunk5 Sample.desc5 = Ok (output', d2').
Proof.
  assert (H1 : exists o d,
             InsertTupleIntoChunk Tupmacs.pg_tupmacs Sample.host []
               Sample.tuple5 0 Sample.chunk5 Sample.cached5 = Ok (o, d))
    by (eexists; eexists; vm_compute; reflexivity).
  destruct H1 as [o [d H1]].
  destruct (offset_cache_is_transparent Tupmacs.pg_tupmacs Sample.host []
              Sample.tuple5 0 Sample.chunk5 Sample.cached5 Sample.desc5 o d
              pg_tupmacs_fixed_lengths_add pg_tupmacs_fetchatt_reads_shape
              eq_refl eq_refl cached5_cache_ok
              (cache_ok_clear _ (attrs Sample.desc5)) H1) as [d2' H2].
  exists o, d, d2'. split; [exact H1 | exact H2].
Defined.

(** X10.  Decoding a row keeps the offset cache sound.  If every cached
    offset of the descriptor is the one its shape predicts, the same is
    true of the descriptor [InsertTupleIntoChunk] leaves behind, whatever
    the row holds (nulls and variable-length attributes included); the
    number of attributes and the shape of the descriptor are unchanged.
    So a cache filled by one row is right for every later row. *)
Theorem offset_cache_stays_sound :
  forall M fp h tuple offset output tupleDesc output' tupleDesc',
    fixed_lengths_add M ->
    cache_ok M (attrs tupleDesc) ->
    InsertTupleIntoChunk M fp h tuple offset output tupleDesc
    = Ok (output', tupleDesc') ->
    cache_ok M (attrs tupleDesc')
    /\ map att_shape (attrs tupleDesc') = map att_shape (attrs tupleDesc)
    /\ natts tupleDesc' = natts tupleDesc.
Proof.
  intros M fp h tuple offset output tupleDesc output' tupleDesc'
         Hadd Hok H.
  unfold InsertTupleIntoChunk in H.
  apply bind_Ok in H. destruct H as [[[output1 e1] st1] [Hl H]].
  injection H as Ho Hd. simpl in Ho, Hd. subst output1 e1.
  destruct (insert_loop_inv M fp h tuple offset _ _ _ _ _ _ _ _
              Hadd (read_state_inv_start M tupleDesc Hok) Hl)
    as [[_ [Hok' _]] [Hsh Hn]].
  split; [exact Hok' | split; assumption].
Qed.

Lemma offset_cache_stays_sound_witness :
  exists output' tupleDesc',
    InsertTupleIntoChunk Tupmacs.pg_tupmacs Sample.host Sample.heap3
      Sample.tuple3 0 Sample.chunk3 Sample.desc3 = Ok (output', tupleDesc')
    /\ cache_ok Tupmacs.pg_tupmacs (attrs tupleDesc')
    /\ option_map attcacheoff (nth_error (attrs tupleDesc') 0) = Some 0.
Proof.
  assert (H1 : exists o d,
             InsertTupleIntoChunk Tupmacs.pg_tupmacs Sample.host Sample.heap3
               Sample.tuple3 0 Sample.chunk3 Sample.desc3 = Ok (o, d)
             /\ option_map attcacheoff (nth_error (attrs d) 0) = Some 0)
    by (eexists; eexists; split; vm_compute; reflexivity).
  destruct H1 as [o [d [H1 H2]]].
  exists o, d. split; [exact H1 |]. split; [| exact H2].
  apply (offset_cache_stays_sound Tupmacs.pg_tupmacs Sample.host Sample.heap3
           Sample.tuple3 0 Sample.chunk3 Sample.desc3 o d
           pg_tupmacs_fixed_lengths_add
           (cache_ok_clear _ (attrs Sample.desc3)) H1).
Defined.

(* ================================================================== *)
(** * Properties: what a decoded row changes in the chunk *)
(* ================================================================== *)

Lemma SetInvalid_Ok : forall vec offset vec',
  SetInvalid vec offset = Ok vec' ->
  0 <= offset < Z.of_nat (length (vec_validity vec))
  /\ vec' = mkVector (vec_type vec) (vec_data vec)
              (list_set (vec_validity vec) (Z.to_nat offset) false).
Proof.
  intros vec offset vec' H. unfold SetInvalid in H.
  apply bind_Ok in H. destruct H as [m [Hm H]].
  apply array_set_Ok in Hm. destruct Hm as [Hr ->].
  injection H as H. subst vec'. split; [exact Hr | reflexivity].
Qed.

Lemma same_but_row_refl : forall offset v, same_but_row offset v v.
Proof.
  intros offset v. unfold same_but_row.
  repeat split; reflexivity.
Qed.

Lemma same_but_row_trans : forall offset v1 v2 v3,
  same_but_row offset v1 v2 -> same_but_row offset v2 v3 ->
  same_but_row offset v1 v3.
Proof.
  intros offset v1 v2 v3 [Ht1 [Hd1 [Hv1 Hr1]]] [Ht2 [Hd2 [Hv2 Hr2]]].
  unfold same_but_row.
  split; [congruence |]. split; [congruence |]. split; [congruence |].
  intros row Hrow. destruct (Hr1 row Hrow) as [A1 B1].
  destruct (Hr2 row Hrow) as [A2 B2]. split; congruence.
Qed.

Lemma SetInvalid_same_but_row : forall vec offset vec',
  SetInvalid vec offset = Ok vec' -> same_but_row offset vec vec'.
Proof.
  intros vec offset vec' H. apply SetInvalid_Ok in H.
  destruct H as [_ ->]. unfold same_but_row. simpl.
  split; [reflexivity |]. split; [reflexivity |].
  split; [apply length_list_set |].
  intros row Hrow. split; [reflexivity |].
  apply nth_error_list_set_other. congruence.
Qed.

Lemma Convert_same_but_row : forall fp h value vec offset vec',
  ConvertPostgresToDuckValue fp h value vec offset = Ok vec' ->
  same_but_row offset vec vec'.
Proof.
  intros fp h value vec offset vec' H.
  apply ConvertPostgresToDuckValue_Ok in H.
  destruct H as [c Hc].
  apply Append_Ok in Hc. destruct Hc as [_ ->].
  unfold same_but_row. simpl.
  split; [reflexivity |]. split; [apply length_list_set |].
  split; [reflexivity |].
  intros row Hrow. split; [| reflexivity].
  apply nth_error_list_set_other. congruence.
Qed.

Lemma Forall2_refl_on : forall (A : Type) (R : A -> A -> Prop) (l : list A),
  (forall x, R x x) -> Forall2 R l l.
Proof.
  intros A R l HR. induction l; constructor; auto.
Qed.

Lemma Forall2_trans_on :
  forall (A : Type) (R : A -> A -> Prop) (l1 l2 l3 : list A),
    (forall x y z, R x y -> R y z -> R x z) ->
    Forall2 R l1 l2 -> Forall2 R l2 l3 -> Forall2 R l1 l3.
Proof.
  intros A R l1 l2 l3 HR H12. revert l3.
  induction H12 as [| x y l1 l2 Hxy H12 IH]; intros l3 H23.
  - inversion H23. constructor.
  - inversion H23; subst.
    constructor; [eapply HR; eassumption | apply IH; assumption].
Qed.

Lemma Forall2_list_set :
  forall (A : Type) (R : A -> A -> Prop) (l : list A) i x y,
    (forall z, R z z) ->
    nth_error l i = Some x -> R x y -> Forall2 R l (list_set l i y).
Proof.
  intros A R l i x y HR. revert i.
  induction l as [| a l IH]; intros i Hn Hxy.
  - destruct i; discriminate Hn.
  - destruct i as [| i]; simpl in *.
    + injection Hn as Hn. subst a. constructor; [exact Hxy |].
      apply Forall2_refl_on. exact HR.
    + constructor; [apply HR | apply IH; assumption].
Qed.

Section RowFrame.

Variable M : TupleMacros.
Variable fp : DoubleHost.
Variable h : Heap.
Variable slot : HeapTupleData.
Variable offset : Z.

Lemma insert_column_frame : forall i output tupleDesc st output' tupleDesc' st',
  insert_column M fp h slot offset i (output, tupleDesc, st)
  = Ok (output', tupleDesc', st') ->
  Forall2 (same_but_row offset) output output'
  /\ 0 <= i < Z.of_nat (length output)
  /\ (forall c, c <> i -> array_get output' c = array_get output c).
Proof.
  intros i output tupleDesc st output' tupleDesc' st' H.
  unfold insert_column in H.
  apply bind_Ok in H. destruct H as [result [Hr H]].
  apply bind_Ok in H. destruct H as [[[[value isNull] st1] desc1] [_ H]].
  apply bind_Ok in H. destruct H as [result' [Hc H]].
  apply bind_Ok in H. destruct H as [output1 [Hs H]].
  injection H as Ho _ _. subst output1.
  assert (Hrow : same_but_row offset result result').
  { destruct isNull.
    - apply SetInvalid_same_but_row. exact Hc.
    - eapply Convert_same_but_row. exact Hc. }
  pose proof (array_get_Ok _ _ _ _ Hr) as [_ Hn].
  pose proof (array_get_in_range _ _ _ _ Hr) as Hrange.
  split; [| split; [exact Hrange |]].
  - apply array_set_Ok in Hs. destruct Hs as [_ ->].
    eapply Forall2_list_set;
      [apply same_but_row_refl | exact Hn | exact Hrow].
  - intros c Hne. eapply array_set_get_other; [exact Hs | congruence].
Qed.

Lemma insert_loop_frame :
  forall n i output tupleDesc st output' tupleDesc' st',
    insert_loop M fp h slot offset n i (output, tupleDesc, st)
    = Ok (output', tupleDesc', st') ->
    0 <= i ->
    Forall2 (same_but_row offset) output output'
    /\ (n <> O -> i + Z.of_nat n <= Z.of_nat (length output))
    /\ (forall c, c < i \/ i + Z.of_nat n <= c ->
                  array_get output' c = array_get output c).
Proof.
  induction n as [| n IH];
    intros i output tupleDesc st output' tupleDesc' st' H Hi; simpl in H.
  - injection H as Ho _ _. subst output'.
    split; [apply Forall2_refl_on; apply same_but_row_refl |].
    split; [intros Hc; contradiction | intros; reflexivity].
  - apply bind_Ok in H. destruct H as [[[output1 desc1] st1] [H1 H]].
    destruct (insert_column_frame _ _ _ _ _ _ _ H1) as [Hf1 [Hr1 Ho1]].
    destruct (IH _ _ _ _ _ _ _ H ltac:(lia)) as [Hf [Hr Ho]].
    split; [| split].
    + eapply Forall2_trans_on;
        [apply same_but_row_trans | exact Hf1 | exact Hf].
    + intros _. destruct n as [| n]; [lia |].
      specialize (Hr ltac:(discriminate)).
      rewrite <- (Forall2_length Hf1) in Hr. lia.
    + intros c Hc. rewrite Ho by lia. apply Ho1. lia.
Qed.

End RowFrame.

(** X11.  What a decoded row changes in the chunk.  When
    [InsertTupleIntoChunk] returns, the chunk has the same number of
    vectors, each of the type and size it had, and no row but [offset]
    of any vector has changed, in data or validity; the vectors past the
    descriptor's attribute count are untouched; and the chunk has a
    vector for every attribute of the descriptor. *)
Theorem row_changes_one_row_of_the_chunk :
  forall M fp h slot offset output tupleDesc output' tupleDesc',
    InsertTupleIntoChunk M fp h slot offset output tupleDesc
    = Ok (output', tupleDesc') ->
    Forall2 (same_but_row offset) output output'
    /\ natts tupleDesc <= Z.of_nat (length output)
    /\ (forall c, natts tupleDesc <= c ->
                  array_get output' c = array_get output c).
Proof.
  intros M fp h slot offset output tupleDesc output' tupleDesc' H.
  unfold InsertTupleIntoChunk in H.
  apply bind_Ok in H. destruct H as [[[output1 e1] st1] [Hl H]].
  injection H as Ho Hd. simpl in Ho, Hd. subst output1 e1.
  destruct (insert_loop_frame M fp h slot offset _ _ _ _ _ _ _ _ Hl
              ltac:(lia)) as [Hf [Hr Hc]].
  split; [exact Hf |]. split.
  - destruct (Z.to_nat (natts tupleDesc)) eqn:E; [lia |].
    specialize (Hr ltac:(discriminate)). lia.
  - intros c Hn. apply Hc. lia.
Qed.

Lemma row_changes_one_row_of_the_chunk_witness :
  exists output' tupleDesc',
    InsertTupleIntoChunk Tupmacs.pg_tupmacs Sample.host Sample.heap3
      Sample.tuple3 0 Sample.chunk3 Sample.desc3 = Ok (output', tupleDesc')
    /\ Forall2 (same_but_row 0) Sample.chunk3 output'
    /\ option_map vec_validity (nth_error output' 1) = Some [false].
Proof.
  assert (H1 : exists o d,
             InsertTupleIntoChunk Tupmacs.pg_tupmacs Sample.host Sample.heap3
               Sample.tuple3 0 Sample.chunk3 Sample.desc3 = Ok (o, d)
             /\ option_map vec_validity (nth_error o 1) = Some [false])
    by (eexists; eexists; split; vm_compute; reflexivity).
  destruct H1 as [o [d [H1 H2]]].
  exists o, d. split; [exact H1 |]. split; [| exact H2].
  apply (row_changes_one_row_of_the_chunk Tupmacs.pg_tupmacs Sample.host
           Sample.heap3 Sample.tuple3 0 Sample.chunk3 Sample.desc3 o d H1).
Defined.

(* ================================================================== *)
(** * Properties: edge cases of the tuple reader *)
(* ================================================================== *)

Lemma fetch_nothing_new :
  forall M tuple tupleDesc st count isNull,
    Z.min (HeapTupleHeaderGetNatts (t_data tuple)) count <= m_nvalid st ->
    HeapTupleFetchNextDatumValue M tuple tupleDesc st count isNull
    = Ok (0, isNull,
          (if m_nvalid st =? 0 then mkReadState false 0 0 else st),
          tupleDesc).
Proof.
  intros M tuple tupleDesc st count isNull Hle.
  rewrite fetch_call_unfold.
  replace (Z.to_nat (Z.min (HeapTupleHeaderGetNatts (t_data tuple)) count
                     - m_nvalid st)) with O by lia.
  rewrite Z.max_l by exact Hle.
  simpl. destruct tupleDesc as [n ats]. unfold with_attrs. simpl.
  destruct (m_nvalid st =? 0) eqn:E0; simpl.
  - apply Z.eqb_eq in E0. rewrite E0. reflexivity.
  - destruct st. reflexivity.
Qed.

(** X12.  A call that asks for no attribute beyond those already read
    (the request, cut down to the tuple's attribute count, is not above
    [m_nvalid]) reads nothing: whatever the macros and the bytes of the
    tuple, it returns the datum 0, not the datum of the attribute asked
    for, with the caller's null flag as passed in, and leaves the
    descriptor alone; the read state is unchanged, or reset when nothing
    had been read. *)
Theorem request_without_new_attribute :
  forall M tuple tupleDesc st count isNull,
    Z.min (HeapTupleHeaderGetNatts (t_data tuple)) count <= m_nvalid st ->
    HeapTupleFetchNextDatumValue M tuple tupleDesc st count isNull
    = Ok (0, isNull,
          (if m_nvalid st =? 0 then mkReadState false 0 0 else st),
          tupleDesc).
Proof.
  intros M tuple tupleDesc st count isNull Hle.
  apply fetch_nothing_new. exact Hle.
Qed.

Lemma request_without_new_attribute_witness :
  HeapTupleFetchNextDatumValue Tupmacs.pg_tupmacs Sample.tuple5 Sample.desc5
    (mkReadState false 3 12) 2 true
  = Ok (0, true, mkReadState false 3 12, Sample.desc5).
Proof.
  apply (request_without_new_attribute Tupmacs.pg_tupmacs Sample.tuple5
           Sample.desc5 (mkReadState false 3 12) 2 true).
  vm_compute. discriminate.
Defined.

Lemma fetch_null :
  forall M tuple tupleDesc st isNull thisatt,
    array_get (attrs tupleDesc) (m_nvalid st) = Ok thisatt ->
    tuple_att_null tuple (m_nvalid st) ->
    m_nvalid st < HeapTupleHeaderGetNatts (t_data tuple) ->
    HeapTupleFetchNextDatumValue M tuple tupleDesc st (m_nvalid st + 1)
      isNull
    = Ok (0, true,
          mkReadState true (m_nvalid st + 1)
            (if m_nvalid st =? 0 then 0 else m_offset st),
          tupleDesc).
Proof.
  intros M tuple tupleDesc st isNull thisatt Ha [Hhas Hnull] Hlt.
  rewrite fetch_call_unfold.
  rewrite Z.min_r by lia.
  replace (Z.to_nat (m_nvalid st + 1 - m_nvalid st)) with 1%nat by lia.
  rewrite Z.max_r by lia.
  cbn [fetch_loop]. unfold fetch_attribute. cbn [l_attrs].
  rewrite Ha. rewrite bind_Ok_l. cbv beta.
  rewrite Hhas, Hnull. rewrite bind_Ok_l. cbv beta iota.
  rewrite bind_Ok_l. cbn [l_value l_isNull l_slow l_off l_attrs].
  destruct tupleDesc as [n ats]. unfold with_attrs. simpl.
  destruct (m_nvalid st =? 0); reflexivity.
Qed.

(** X13.  Reading a null attribute.  When the next attribute of the tuple
    is null, the call for it returns the datum 0 with the null flag set,
    whatever flag the caller passed in; it calls none of the layout
    macros, does not advance the offset, writes no cached offset, and
    leaves the read state in slow mode. *)
Theorem null_attribute_read :
  forall M tuple tupleDesc st isNull thisatt,
    array_get (attrs tupleDesc) (m_nvalid st) = Ok thisatt ->
    tuple_att_null tuple (m_nvalid st) ->
    m_nvalid st < HeapTupleHeaderGetNatts (t_data tuple) ->
    HeapTupleFetchNextDatumValue M tuple tupleDesc st (m_nvalid st + 1)
      isNull
    = Ok (0, true,
          mkReadState true (m_nvalid st + 1)
            (if m_nvalid st =? 0 then 0 else m_offset st),
          tupleDesc).
Proof.
  intros M tuple tupleDesc st isNull thisatt Ha Hnull Hlt.
  apply (fetch_null M tuple tupleDesc st isNull thisatt); assumption.
Qed.

Lemma null_attribute_read_witness :
  HeapTupleFetchNextDatumValue Tupmacs.pg_tupmacs Sample.tuple3 Sample.desc3
    (mkReadState false 1 4) 2 false
  = Ok (0, true, mkReadState true 2 4, Sample.desc3).
Proof.
  apply (null_attribute_read Tupmacs.pg_tupmacs Sample.tuple3 Sample.desc3
           (mkReadState false 1 4) false
           (Sample.attribute INT4OID 4 true)).
  - reflexivity.
  - split; reflexivity.
  - vm_compute. reflexivity.
Defined.

(** X14.  Reading a fixed-length attribute out of slow mode.  With a sound
    cache, when the attributes before the next one were all non-null and
    of fixed length, a non-null attribute of fixed length is fetched at
    the start its descriptor predicts, whether or not that start is
    cached; the call leaves slow mode off, moves the offset past the
    attribute and keeps the cache sound. *)
Theorem fixed_attribute_read :
  forall M tuple tupleDesc st isNull thisatt o value,
    fixed_lengths_add M ->
    read_state_inv M tupleDesc st ->
    (m_nvalid st <> 0 -> m_slow st = false) ->
    run_off M (attrs tupleDesc) (Z.to_nat (m_nvalid st)) = Some o ->
    array_get (attrs tupleDesc) (m_nvalid st) = Ok thisatt ->
    0 < attlen thisatt ->
    (if HeapTupleHasNulls tuple
     then att_isnull (m_nvalid st) (t_bits (t_data tuple))
     else Ok false) = Ok false ->
    m_nvalid st < HeapTupleHeaderGetNatts (t_data tuple) ->
    fetchatt M thisatt (tp_at tuple (att_start M o thisatt)) = Ok value ->
    exists tupleDesc',
      HeapTupleFetchNextDatumValue M tuple tupleDesc st (m_nvalid st + 1)
        isNull
      = Ok (value, false,
            mkReadState false (m_nvalid st + 1)
              (uint32 (att_start M o thisatt + attlen thisatt)),
            tupleDesc')
      /\ cache_ok M (attrs tupleDesc').
Proof.
  intros M tuple tupleDesc st isNull thisatt o value
         Hadd Hinv Hfast Ho Ha Hlen Hnull Hlt Hv.
  pose proof (read_state_start M tupleDesc st isNull Hinv) as Hstart.
  set (s0 := mkLoop (fst (if m_nvalid st =? 0 then (0, false)
                          else (m_offset st, m_slow st)))
                    (snd (if m_nvalid st =? 0 then (0, false)
                          else (m_offset st, m_slow st)))
                    0 isNull (attrs tupleDesc)) in *.
  assert (Hs0 : l_slow s0 = false).
  { unfold s0. simpl. destruct (m_nvalid st =? 0) eqn:E0; [reflexivity |].
    simpl. apply Hfast. apply Z.eqb_neq. exact E0. }
  destruct Hstart as [Hok Hoff].
  assert (Eo : l_off s0 = o).
  { specialize (Hoff Hs0). change (l_attrs s0) with (attrs tupleDesc) in Hoff.
    congruence. }
  assert (Hp : place M tuple thisatt (l_off s0) (l_slow s0)
               = Ok (att_start M o thisatt, false)).
  { unfold place. rewrite Hs0, Eo.
    destruct (attlen thisatt =? -1) eqn:El;
      [apply Z.eqb_eq in El; lia | reflexivity]. }
  destruct (place_locate M tuple (m_nvalid st) s0 thisatt _ _ Ha Hok Hoff Hp)
    as [ats Hl].
  destruct (locate_place M tuple (m_nvalid st) s0 thisatt _ _ _ Ha Hok Hoff Hl)
    as [_ [_ [Hok' _]]].
  exists (with_attrs tupleDesc ats). split; [| exact Hok'].
  rewrite fetch_call_unfold. fold s0.
  rewrite Z.min_r by lia.
  replace (Z.to_nat (m_nvalid st + 1 - m_nvalid st)) with 1%nat by lia.
  rewrite Z.max_r by lia.
  cbn [fetch_loop].
  assert (Hstep : fetch_attribute M tuple (m_nvalid st) s0
                  = Ok (mkLoop (uint32 (att_start M o thisatt + attlen thisatt))
                               false value false ats)).
  { unfold fetch_attribute.
    eapply bind_Ok_intro; [exact Ha |]. cbv beta.
    eapply bind_Ok_intro; [exact Hnull |]. cbv beta iota zeta.
    eapply bind_Ok_intro; [exact Hl |]. cbv beta iota.
    eapply bind_Ok_intro; [exact Hv |]. cbv beta.
    eapply bind_Ok_intro; [apply Hadd; exact Hlen |].
    destruct (attlen thisatt <=? 0) eqn:El;
      [apply Z.leb_le in El; lia | reflexivity]. }
  rewrite Hstep. reflexivity.
Qed.

Lemma fixed_attribute_read_witness :
  exists tupleDesc',
    HeapTupleFetchNextDatumValue Tupmacs.pg_tupmacs Sample.tuple5
      Sample.cached5 (mkReadState false 1 4) 2 true
    = Ok (8, false, mkReadState false 2 8, tupleDesc')
    /\ cache_ok Tupmacs.pg_tupmacs (attrs tupleDesc').
Proof.
  refine (fixed_attribute_read Tupmacs.pg_tupmacs Sample.tuple5
            Sample.cached5 (mkReadState false 1 4) true
            (set_attcacheoff (Sample.attribute INT4OID 4 true) 4) 4 8
            pg_tupmacs_fixed_lengths_add _ _ _ _ _ _ _ _).
  - split; [simpl; lia |]. split; [exact cached5_cache_ok |].
    intros _ _. reflexivity.
  - intros _. reflexivity.
  - reflexivity.
  - reflexivity.
  - simpl. lia.
  - reflexivity.
  - vm_compute. reflexivity.
  - vm_compute. reflexivity.
Defined.

(* ================================================================== *)
(** * Properties: the filter evaluator against the converter *)
(* ================================================================== *)

Lemma wrap_signed_in_signed : forall w z,
  1 <= w -> in_signed w (wrap_signed w z).
Proof.
  intros w z Hw. unfold in_signed, wrap_signed.
  assert (Hp : 2 ^ w = 2 * 2 ^ (w - 1)).
  { replace w with (1 + (w - 1)) at 1 by lia.
    rewrite Z.pow_add_r by lia. reflexivity. }
  assert (Hpos : 0 < 2 ^ (w - 1)) by (apply Z.pow_pos_nonneg; lia).
  pose proof (Z.mod_pos_bound (z + 2 ^ (w - 1)) (2 ^ w) ltac:(lia)).
  lia.
Qed.

Lemma GetValueUnsafe_signed : forall w k,
  1 <= w -> in_signed w k ->
  wrap_signed w (wrap_unsigned w k) = k.
Proof.
  intros w k Hw Hk. rewrite wrap_signed_unsigned by exact Hw.
  apply wrap_signed_small; assumption.
Qed.

Lemma Convert_cell : forall vec c offset vec',
  Append vec c offset = Ok vec' -> cell_at vec' offset = Some c.
Proof.
  intros vec c offset vec' H. apply Append_Ok in H.
  destruct H as [Hr ->]. apply cell_at_set. exact Hr.
Qed.

(** X15.  A filter pushed down to the raw datum decides as the comparison
    of the converted value would.  For a boolean, smallint, integer,
    bigint, date or timestamp column, and a constant of the column's
    type, [FilterOperationSwitch] on the datum returns what the
    comparison returns on the value that [ConvertPostgresToDuckValue]
    writes into the column's vector for the same datum, and that value
    is within the range of the column's type. *)
Theorem filter_agrees_with_conversion :
  forall F fp h OP value vec offset vec' oid typmod constant,
    In oid [BOOLOID; INT2OID; INT4OID; INT8OID; DATEOID; TIMESTAMPOID] ->
    Ok (vec_type vec) = ConvertPostgresToDuckColumnType oid typmod ->
    ConvertPostgresToDuckValue fp h value vec offset = Ok vec' ->
    value_fits (type_id (vec_type vec)) constant ->
    exists c v x y,
      cell_at vec' offset = Some c
      /\ cell_value c = Some v
      /\ value_fits (type_id (vec_type vec)) v
      /\ value_integer v = Some x
      /\ value_integer constant = Some y
      /\ FilterOperationSwitch F OP value constant oid
         = Ok (int_operation OP x y).
Proof.
  intros F fp h OP value vec offset vec' oid typmod constant
         Hin Hty Hconv Hfit.
  unfold ConvertPostgresToDuckValue in Hconv.
  simpl in Hin.
  destruct Hin as [<- | [<- | [<- | [<- | [<- | [<- | []]]]]]];
    cbn in Hty; injection Hty as Hty; rewrite Hty in Hconv, Hfit |- *;
    cbn [type_id plain] in Hconv, Hfit |- *;
    apply Convert_cell in Hconv;
    destruct constant as [b | k | k | k | k | s | k | k | k];
    cbn [value_fits] in Hfit; try contradiction.
  - (* BOOLOID *)
    exists (CellBool (negb (value =? 0))), (VBoolean (negb (value =? 0))),
           (if negb (value =? 0) then 1 else 0), (if b then 1 else 0).
    split; [exact Hconv |]. split; [reflexivity |].
    split; [exact I |]. split; [reflexivity |]. split; [reflexivity |].
    unfold FilterOperationSwitch. cbn [Z.eqb BOOLOID Pos.eqb].
    unfold TemplatedFilterOperation, operation, cast_datum, GetValueUnsafe,
      value_union.
    destruct (value =? 0), b; reflexivity.
  - (* INT2OID *)
    exists (CellInt16 (int16 value)), (VSmallInt (int16 value)),
           (int16 value), k.
    split; [exact Hconv |]. split; [reflexivity |].
    split; [apply wrap_signed_in_signed; lia |].
    split; [reflexivity |]. split; [reflexivity |].
    unfold FilterOperationSwitch.
    change (INT2OID =? BOOLOID) with false.
    change (INT2OID =? CHAROID) with false.
    change (INT2OID =? INT2OID) with true. cbv iota.
    unfold TemplatedFilterOperation, operation, cast_datum, GetValueUnsafe,
      value_union.
    rewrite GetValueUnsafe_signed by (try lia; exact Hfit). reflexivity.
  - (* INT4OID *)
    exists (CellInt32 (int32 value)), (VInteger (int32 value)),
           (int32 value), k.
    split; [exact Hconv |]. split; [reflexivity |].
    split; [apply wrap_signed_in_signed; lia |].
    split; [reflexivity |]. split; [reflexivity |].
    unfold FilterOperationSwitch.
    change (INT4OID =? BOOLOID) with false.
    change (INT4OID =? CHAROID) with false.
    change (INT4OID =? INT2OID) with false.
    change (INT4OID =? INT4OID) with true. cbv iota.
    unfold TemplatedFilterOperation, operation, cast_datum, GetValueUnsafe,
      value_union.
    rewrite GetValueUnsafe_signed by (try lia; exact Hfit). reflexivity.
  - (* INT8OID *)
    exists (CellInt64 (int64 value)), (VBigInt (int64 value)),
           (int64 value), k.
    split; [exact Hconv |]. split; [reflexivity |].
    split; [apply wrap_signed_in_signed; lia |].
    split; [reflexivity |]. split; [reflexivity |].
    unfold FilterOperationSwitch.
    change (INT8OID =? BOOLOID) with false.
    change (INT8OID =? CHAROID) with false.
    change (INT8OID =? INT2OID) with false.
    change (INT8OID =? INT4OID) with false.
    change (INT8OID =? INT8OID) with true. cbv iota.
    unfold TemplatedFilterOperation, operation, cast_datum, GetValueUnsafe,
      value_union.
    rewrite GetValueUnsafe_signed by (try lia; exact Hfit). reflexivity.
  - (* DATEOID *)
    exists (CellDate (int32 (uint64 (value + QUACK_DUCK_DATE_OFFSET)))),
           (VDate (int32 (uint64 (value + QUACK_DUCK_DATE_OFFSET)))),
           (int32 (uint64 (value + QUACK_DUCK_DATE_OFFSET))), k.
    split; [exact Hconv |]. split; [reflexivity |].
    split; [apply wrap_signed_in_signed; lia |].
    split; [reflexivity |]. split; [reflexivity |].
    unfold FilterOperationSwitch.
    change (DATEOID =? BOOLOID) with false.
    change (DATEOID =? CHAROID) with false.
    change (DATEOID =? INT2OID) with false.
    change (DATEOID =? INT4OID) with false.
    change (DATEOID =? INT8OID) with false.
    change (DATEOID =? FLOAT4OID) with false.
    change (DATEOID =? FLOAT8OID) with false.
    change (DATEOID =? DATEOID) with true. cbv iota zeta.
    unfold TemplatedFilterOperation, operation, cast_datum, GetValueUnsafe,
      value_union, to_Datum.
    rewrite GetValueUnsafe_signed by (try lia; exact Hfit).
    rewrite wrap_signed_uint64 by lia.
    unfold int32. rewrite wrap_signed_idem by lia. reflexivity.
  - (* TIMESTAMPOID *)
    exists (CellTime (int64 (uint64 (value + QUACK_DUCK_TIMESTAMP_OFFSET)))),
           (VTimestamp
              (int64 (uint64 (value + QUACK_DUCK_TIMESTAMP_OFFSET)))),
           (int64 (uint64 (value + QUACK_DUCK_TIMESTAMP_OFFSET))), k.
    split; [exact Hconv |]. split; [reflexivity |].
    split; [apply wrap_signed_in_signed; lia |].
    split; [reflexivity |]. split; [reflexivity |].
    unfold FilterOperationSwitch.
    change (TIMESTAMPOID =? BOOLOID) with false.
    change (TIMESTAMPOID =? CHAROID) with false.
    change (TIMESTAMPOID =? INT2OID) with false.
    change (TIMESTAMPOID =? INT4OID) with false.
    change (TIMESTAMPOID =? INT8OID) with false.
    change (TIMESTAMPOID =? FLOAT4OID) with false.
    change (TIMESTAMPOID =? FLOAT8OID) with false.
    change (TIMESTAMPOID =? DATEOID) with false.
    change (TIMESTAMPOID =? TIMESTAMPOID) with true. cbv iota zeta.
    unfold TemplatedFilterOperation, operation, cast_datum, GetValueUnsafe,
      value_union, to_Datum.
    rewrite (GetValueUnsafe_signed 64 k) by (try lia; exact Hfit).
    rewrite wrap_signed_uint64 by lia.
    unfold int64. rewrite wrap_signed_idem by lia. reflexivity.
Qed.

Lemma filter_agrees_with_conversion_witness :
  exists c v x y,
    cell_at (mkVector (plain DATE) [CellDate 10950] [true]) 0 = Some c
    /\ cell_value c = Some v
    /\ value_fits DATE v
    /\ value_integer v = Some x
    /\ value_integer (VDate 10957) = Some y
    /\ FilterOperationSwitch Sample.compare LessThan (to_Datum (-7))
         (VDate 10957) DATEOID
       = Ok (int_operation LessThan x y).
Proof.
  apply (filter_agrees_with_conversion Sample.compare Sample.host []
           LessThan (to_Datum (-7)) (Sample.vector (plain DATE)) 0
           (mkVector (plain DATE) [CellDate 10950] [true]) DATEOID (-1)
           (VDate 10957)).
  - simpl. tauto.
  - reflexivity.
  - vm_compute. reflexivity.
  - vm_compute. split; [discriminate | reflexivity].
Defined.

Lemma FilterOperationSwitch_unsupported : forall F OP value constant oid,
  ~ In oid [BOOLOID; CHAROID; INT2OID; INT4OID; INT8OID; FLOAT4OID;
            FLOAT8OID; DATEOID; TIMESTAMPOID] ->
  FilterOperationSwitch F OP value constant oid
  = Err (UnsupportedFilterType oid).
Proof.
  intros F OP value constant oid Hn. simpl in Hn.
  unfold FilterOperationSwitch.
  repeat match goal with
         | |- context [oid =? ?k] =>
             destruct (Z.eqb_spec oid k) as [E | _];
             [exfalso; apply Hn; rewrite E; tauto |]
         end.
  reflexivity.
Qed.

Lemma FilterOperationSwitch_supported : forall F OP value constant oid,
  In oid [BOOLOID; CHAROID; INT2OID; INT4OID; INT8OID; FLOAT4OID;
          FLOAT8OID; DATEOID; TIMESTAMPOID] ->
  exists b, FilterOperationSwitch F OP value constant oid = Ok b.
Proof.
  intros F OP value constant oid Hin. simpl in Hin.
  repeat (destruct Hin as [<- | Hin]; [eexists; reflexivity |]).
  contradiction.
Qed.

(** X16.  The types a filter can be evaluated on.  [FilterOperationSwitch]
    returns a verdict exactly for nine type oids and raises its
    unsupported-type error for every other one.  The nine are not the
    types of the type mapping table: a text, varchar, bpchar or numeric
    column is mapped to a column type, yet a comparison filter on it
    raises the error; float4 has a filter case, yet the mapping table
    refuses it.  The two null tests give their verdict for every
    type. *)
Theorem filter_type_coverage :
  forall F OP value constant oid typmod,
    ((exists b, FilterOperationSwitch F OP value constant oid = Ok b)
     <-> In oid [BOOLOID; CHAROID; INT2OID; INT4OID; INT8OID; FLOAT4OID;
                 FLOAT8OID; DATEOID; TIMESTAMPOID])
    /\ (~ In oid [BOOLOID; CHAROID; INT2OID; INT4OID; INT8OID; FLOAT4OID;
                  FLOAT8OID; DATEOID; TIMESTAMPOID] ->
        FilterOperationSwitch F OP value constant oid
        = Err (UnsupportedFilterType oid))
    /\ (In oid [BPCHAROID; TEXTOID; VARCHAROID; NUMERICOID] ->
        (exists t, ConvertPostgresToDuckColumnType oid typmod = Ok t)
        /\ FilterOperationSwitch F OP value constant oid
           = Err (UnsupportedFilterType oid))
    /\ (oid = FLOAT4OID ->
        ConvertPostgresToDuckColumnType oid typmod
        = Err (UnsupportedPostgresType oid)
        /\ exists b, FilterOperationSwitch F OP value constant oid = Ok b)
    /\ (forall is_null,
        ApplyValueFilter F IsNullFilter value is_null oid = Ok is_null
        /\ ApplyValueFilter F IsNotNullFilter value is_null oid
           = Ok (negb is_null)).
Proof.
  intros F OP value constant oid typmod.
  split; [| split; [| split; [| split]]].
  - split.
    + intros [b Hb].
      destruct (in_dec Z.eq_dec oid
                  [BOOLOID; CHAROID; INT2OID; INT4OID; INT8OID; FLOAT4OID;
                   FLOAT8OID; DATEOID; TIMESTAMPOID]) as [Hin | Hn];
        [exact Hin |].
      rewrite (FilterOperationSwitch_unsupported F OP value constant oid Hn)
        in Hb.
      discriminate Hb.
    + apply FilterOperationSwitch_supported.
  - apply FilterOperationSwitch_unsupported.
  - intros Hin. split.
    + apply (proj1 (type_mapping_domain oid typmod)).
      simpl in Hin |- *. tauto.
    + apply FilterOperationSwitch_unsupported.
      simpl in Hin |- *.
      destruct Hin as [<- | [<- | [<- | [<- | []]]]];
        intros H; repeat (destruct H as [H | H]; [discriminate H |]);
        exact H.
  - intros ->. split.
    + apply (proj2 (type_mapping_domain FLOAT4OID typmod)).
      simpl. intros H.
      repeat (destruct H as [H | H]; [discriminate H |]). exact H.
    + apply FilterOperationSwitch_supported. simpl. tauto.
  - intros is_null. simpl. destruct is_null; split; reflexivity.
Qed.

Lemma filter_type_coverage_witness :
  (exists t, ConvertPostgresToDuckColumnType TEXTOID (-1) = Ok t)
  /\ FilterOperationSwitch Sample.compare Equals 0 (VVarchar []) TEXTOID
     = Err (UnsupportedFilterType TEXTOID).
Proof.
  apply (proj1 (proj2 (proj2 (filter_type_coverage Sample.compare Equals 0
                                (VVarchar []) TEXTOID (-1))))).
  simpl. tauto.
Defined.

(* ================================================================== *)
(** * Properties: a row of fixed-length attributes *)
(* ================================================================== *)

Section FixedRows.

Variable M : TupleMacros.
Variable fp : DoubleHost.
Variable h : Heap.
Variable slot : HeapTupleData.
Variable offset : Z.

(** What a call for the next attribute returned, when that attribute is
    of fixed length, the tuple has no nulls and the loop is out of slow
    mode. *)
Lemma fixed_attribute_fetched :
  forall tupleDesc st isNull thisatt o value isNull' st' tupleDesc',
    fixed_lengths_add M ->
    read_state_inv M tupleDesc st ->
    (m_nvalid st <> 0 -> m_slow st = false) ->
    run_off M (attrs tupleDesc) (Z.to_nat (m_nvalid st)) = Some o ->
    array_get (attrs tupleDesc) (m_nvalid st) = Ok thisatt ->
    0 < attlen thisatt ->
    HeapTupleHasNulls slot = false ->
    m_nvalid st < HeapTupleHeaderGetNatts (t_data slot) ->
    HeapTupleFetchNextDatumValue M slot tupleDesc st (m_nvalid st + 1)
      isNull
    = Ok (value, isNull', st', tupleDesc') ->
    fetchatt M thisatt (tp_at slot (att_start M o thisatt)) = Ok value
    /\ isNull' = false
    /\ st' = mkReadState false (m_nvalid st + 1)
               (uint32 (att_start M o thisatt + attlen thisatt)).
Proof.
  intros tupleDesc st isNull thisatt o value isNull' st' tupleDesc'
         Hadd Hinv Hfast Ho Ha Hlen Hhas Hlt H.
  pose proof (read_state_start M tupleDesc st isNull Hinv) as Hstart.
  rewrite fetch_call_unfold in H.
  set (s0 := mkLoop (fst (if m_nvalid st =? 0 then (0, false)
                          else (m_offset st, m_slow st)))
                    (snd (if m_nvalid st =? 0 then (0, false)
                          else (m_offset st, m_slow st)))
                    0 isNull (attrs tupleDesc)) in *.
  assert (Hs0 : l_slow s0 = false).
  { unfold s0. simpl. destruct (m_nvalid st =? 0) eqn:E0; [reflexivity |].
    simpl. apply Hfast. apply Z.eqb_neq. exact E0. }
  destruct Hstart as [Hok Hoff].
  assert (Eo : l_off s0 = o).
  { specialize (Hoff Hs0). change (l_attrs s0) with (attrs tupleDesc) in Hoff.
    congruence. }
  rewrite Z.min_r in H by lia.
  replace (Z.to_nat (m_nvalid st + 1 - m_nvalid st)) with 1%nat in H by lia.
  rewrite Z.max_r in H by lia.
  cbn [fetch_loop] in H.
  apply bind_Ok in H. destruct H as [s [H1 H]].
  apply bind_Ok in H1. destruct H1 as [s1 [H1 E1]].
  injection E1 as E1. subst s1.
  injection H as Hv Hn Hst _.
  unfold fetch_attribute in H1.
  apply bind_Ok in H1. destruct H1 as [a' [Ha' H1]].
  change (l_attrs s0) with (attrs tupleDesc) in Ha'.
  rewrite Ha in Ha'. injection Ha' as Ha'. subst a'.
  rewrite Hhas in H1. rewrite bind_Ok_l in H1. cbv beta iota zeta in H1.
  apply bind_Ok in H1. destruct H1 as [[[off slow] ats] [Hl H1]].
  apply bind_Ok in H1. destruct H1 as [v [Hfv H1]].
  apply bind_Ok in H1. destruct H1 as [o' [Ho' H1]].
  injection H1 as H1. subst s.
  cbn [l_value l_isNull l_slow l_off] in Hv, Hn, Hst.
  destruct (locate_place M slot (m_nvalid st) s0 thisatt _ _ _ Ha Hok Hoff Hl)
    as [Hp _].
  unfold place in Hp. rewrite Hs0, Eo in Hp.
  destruct (attlen thisatt =? -1) eqn:El; [apply Z.eqb_eq in El; lia |].
  injection Hp as Hp1 Hp2. subst off slow.
  rewrite (Hadd _ _ _ Hlen) in Ho'. injection Ho' as Ho'. subst o'.
  destruct (attlen thisatt <=? 0) eqn:El0; [apply Z.leb_le in El0; lia |].
  subst value isNull' st'.
  split; [exact Hfv |]. split; reflexivity.
Qed.

Lemma insert_loop_fixed :
  forall n i output tupleDesc st output' tupleDesc' st',
    fixed_lengths_add M ->
    read_state_inv M tupleDesc st ->
    m_nvalid st = i ->
    (i <> 0 -> m_slow st = false) ->
    HeapTupleHasNulls slot = false ->
    (forall j a, nth_error (attrs tupleDesc) j = Some a -> 0 < attlen a) ->
    0 <= i ->
    i + Z.of_nat n <= HeapTupleHeaderGetNatts (t_data slot) ->
    insert_loop M fp h slot offset n i (output, tupleDesc, st)
    = Ok (output', tupleDesc', st') ->
    forall c thisatt o value vec,
      i <= c < i + Z.of_nat n ->
      array_get (attrs tupleDesc) c = Ok thisatt ->
      run_off M (attrs tupleDesc) (Z.to_nat c) = Some o ->
      fetchatt M thisatt (tp_at slot (att_start M o thisatt)) = Ok value ->
      array_get output c = Ok vec ->
      exists vec',
        ConvertPostgresToDuckValue fp h value vec offset = Ok vec'
        /\ array_get output' c = Ok vec'.
Proof.
  induction n as [| n IH];
    intros i output tupleDesc st output' tupleDesc' st'
           Hadd Hinv Hi Hfast Hhas Hfix Hi0 Hk H
           c thisatt o value vec Hc Ha Ho Hv Hvec;
    [lia |].
  simpl in H.
  apply bind_Ok in H. destruct H as [[[output1 desc1] st1] [H1 H]].
  pose proof (insert_column_inv M fp h slot offset _ _ _ _ _ _ _
                Hadd Hinv H1) as [Hinv1 [Hsh1 _]].
  pose proof (insert_column_frame M fp h slot offset _ _ _ _ _ _ _ H1)
    as [_ [_ Hother]].
  pose proof H1 as Hcol.
  unfold insert_column in Hcol.
  apply bind_Ok in Hcol. destruct Hcol as [result [Hr Hcol]].
  apply bind_Ok in Hcol.
  destruct Hcol as [[[[value1 isNull1] st1'] desc1'] [Hf Hcol]].
  apply bind_Ok in Hcol. destruct Hcol as [result' [Hconv Hcol]].
  apply bind_Ok in Hcol. destruct Hcol as [output1' [Hset Hcol]].
  injection Hcol as E1 E2 E3. subst output1' desc1' st1'.
  (* the attribute of this round *)
  assert (Hai : exists a_i, array_get (attrs tupleDesc) i = Ok a_i).
  { rewrite fetch_call_unfold in Hf.
    rewrite Hi in Hf. rewrite Z.min_r in Hf by lia.
    replace (Z.to_nat (i + 1 - i)) with 1%nat in Hf by lia.
    cbn [fetch_loop] in Hf.
    apply bind_Ok in Hf. destruct Hf as [s [Hf _]].
    apply bind_Ok in Hf. destruct Hf as [s1 [Hf _]].
    unfold fetch_attribute in Hf.
    apply bind_Ok in Hf. destruct Hf as [a_i [Hai _]].
    exists a_i. exact Hai. }
  destruct Hai as [a_i Hai].
  assert (Hoi : exists o_i, run_off M (attrs tupleDesc) (Z.to_nat i)
                            = Some o_i).
  { destruct Hinv as [_ [_ Hoff]].
    destruct (Z.eq_dec i 0) as [-> | Hnz].
    - exists 0. reflexivity.
    - exists (m_offset st). rewrite <- Hi. apply Hoff.
      + rewrite Hi. exact Hnz.
      + apply Hfast. exact Hnz. }
  destruct Hoi as [o_i Hoi].
  assert (Hleni : 0 < attlen a_i).
  { apply array_get_Ok in Hai. destruct Hai as [_ Hai].
    apply (Hfix _ _ Hai). }
  rewrite <- Hi in Hf, Hai, Hoi.
  destruct (fixed_attribute_fetched _ _ _ _ _ _ _ _ _ Hadd Hinv
              ltac:(rewrite Hi; exact Hfast) Hoi Hai Hleni Hhas
              ltac:(lia) Hf) as [Hfv [Hnull Hst]].
  rewrite Hi in Hf, Hai, Hoi. subst isNull1.
  destruct (fetch_call_facts _ _ _ _ _ _ _ _ _ _ Hf)
    as [_ [_ [Hattrs _]]].
  destruct (Z.eq_dec c i) as [-> | Hne].
  - (* the column of this round *)
    rewrite Hai in Ha. injection Ha as Ha. subst a_i.
    rewrite Hoi in Ho. injection Ho as Ho. subst o_i.
    rewrite Hfv in Hv. injection Hv as Hv. subst value1.
    rewrite Hr in Hvec. injection Hvec as Hvec. subst result.
    exists result'. split; [exact Hconv |].
    destruct (insert_loop_frame M fp h slot offset _ _ _ _ _ _ _ _ H
                ltac:(lia)) as [_ [_ Hlater]].
    rewrite Hlater by lia.
    apply array_set_Ok in Hset. destruct Hset as [Hrange ->].
    unfold array_get.
    destruct (i <? 0) eqn:E; [apply Z.ltb_lt in E; lia |].
    rewrite nth_error_list_set by lia. reflexivity.
  - (* a later column *)
    apply (IH (i + 1) output1 desc1 st1 output' tupleDesc' st' Hadd Hinv1)
      with (thisatt := thisatt) (o := o).
    + rewrite Hst. simpl. lia.
    + intros _. rewrite Hst. reflexivity.
    + exact Hhas.
    + intros j a Hj.
      destruct (shape_nth_error_Some _ _ j a Hsh1 Hj) as [b [Hb [Hlb _]]].
      rewrite <- Hlb. apply (Hfix _ _ Hb).
    + lia.
    + lia.
    + exact H.
    + lia.
    + rewrite Hattrs; [exact Ha |].
      right. lia.
    + rewrite (run_off_shape M _ _ _ Hsh1). exact Ho.
    + exact Hv.
    + rewrite Hother by exact Hne. exact Hvec.
Qed.

End FixedRows.

(** X17.  A row of fixed-length attributes without nulls is decoded column
    by column at the offsets the descriptor predicts.  When
    [InsertTupleIntoChunk] returns for such a row, with a sound cache to
    start from, the vector of every column is the one
    [ConvertPostgresToDuckValue] makes of the column's old vector and the
    datum that the host's [fetchatt] reads at the predicted start of the
    attribute, whatever part of the descriptor's cache was filled. *)
Theorem fixed_row_is_decoded_by_offsets :
  forall M fp h slot offset output tupleDesc output' tupleDesc',
    fixed_lengths_add M ->
    cache_ok M (attrs tupleDesc) ->
    HeapTupleHasNulls slot = false ->
    (forall j a, nth_error (attrs tupleDesc) j = Some a -> 0 < attlen a) ->
    natts tupleDesc <= HeapTupleHeaderGetNatts (t_data slot) ->
    InsertTupleIntoChunk M fp h slot offset output tupleDesc
    = Ok (output', tupleDesc') ->
    forall c thisatt o value vec,
      0 <= c < natts tupleDesc ->
      array_get (attrs tupleDesc) c = Ok thisatt ->
      run_off M (attrs tupleDesc) (Z.to_nat c) = Some o ->
      fetchatt M thisatt (tp_at slot (att_start M o thisatt)) = Ok value ->
      array_get output c = Ok vec ->
      exists vec',
        ConvertPostgresToDuckValue fp h value vec offset = Ok vec'
        /\ array_get output' c = Ok vec'.
Proof.
  intros M fp h slot offset output tupleDesc output' tupleDesc'
         Hadd Hok Hhas Hfix Hk H c thisatt o value vec Hc Ha Ho Hv Hvec.
  unfold InsertTupleIntoChunk in H.
  apply bind_Ok in H. destruct H as [[[output1 e1] st1] [Hl H]].
  injection H as E1 E2. simpl in E1, E2. subst output1 e1.
  apply (insert_loop_fixed M fp h slot offset
           (Z.to_nat (natts tupleDesc)) 0 output tupleDesc
           (mkReadState false 0 0) output' tupleDesc' st1
           Hadd (read_state_inv_start M tupleDesc Hok) eq_refl)
    with (thisatt := thisatt) (o := o);
    try assumption; try lia.
Qed.

Lemma fixed_row_is_decoded_by_offsets_witness :
  exists output' tupleDesc' vec',
    InsertTupleIntoChunk Tupmacs.pg_tupmacs Sample.host [] Sample.tuple5 0
      (firstn 3 Sample.chunk5)
      (mkTupleDesc 3 (firstn 3 (attrs Sample.cached5)))
    = Ok (output', tupleDesc')
    /\ ConvertPostgresToDuckValue Sample.host [] 9
         (Sample.vector (plain INTEGER)) 0 = Ok vec'
    /\ array_get output' 2 = Ok vec'.
Proof.
  assert (H1 : exists o d,
             InsertTupleIntoChunk Tupmacs.pg_tupmacs Sample.host []
               Sample.tuple5 0 (firstn 3 Sample.chunk5)
               (mkTupleDesc 3 (firstn 3 (attrs Sample.cached5)))
             = Ok (o, d))
    by (eexists; eexists; vm_compute; reflexivity).
  destruct H1 as [o [d H1]].
  assert (Hok : cache_ok Tupmacs.pg_tupmacs
                  (firstn 3 (attrs Sample.cached5))).
  { intros i a Hn Hc.
    destruct i as [| [| [| i]]]; simpl in Hn;
      try (injection Hn as Hn; subst a; simpl in Hc |- *).
    - split; [reflexivity |]. exists 0. split; [reflexivity |].
      split; [reflexivity | intros Hl; discriminate Hl].
    - split; [reflexivity |]. exists 4. split; [reflexivity |].
      split; [reflexivity | intros Hl; discriminate Hl].
    - split; [reflexivity |]. exists 8. split; [reflexivity |].
      split; [reflexivity | intros Hl; discriminate Hl].
    - destruct i; discriminate Hn. }
  assert (Hfix : forall j a,
             nth_error (firstn 3 (attrs Sample.cached5)) j = Some a ->
             0 < attlen a).
  { intros j a Hn.
    destruct j as [| [| [| j]]]; simpl in Hn;
      try (injection Hn as Hn; subst a; simpl; lia).
    destruct j; discriminate Hn. }
  destruct (fixed_row_is_decoded_by_offsets Tupmacs.pg_tupmacs Sample.host []
              Sample.tuple5 0 (firstn 3 Sample.chunk5)
              (mkTupleDesc 3 (firstn 3 (attrs Sample.cached5))) o d
              pg_tupmacs_fixed_lengths_add Hok eq_refl Hfix
              ltac:(vm_compute; discriminate) H1
              2 (set_attcacheoff (Sample.attribute INT4OID 4 true) 8) 8 9
              (Sample.vector (plain INTEGER))
              ltac:(simpl; lia) eq_refl eq_refl eq_refl eq_refl)
    as [vec' [Hc Hg]].
  exists o, d, vec'. split; [exact H1 |]. split; assumption.
Defined.

Lemma and_fold_ext :
  forall (eval1 eval2 : TableFilter -> outcome bool) cs acc,
    Forall (fun c => eval1 c = eval2 c) cs ->
    fold_left (and_step eval1) cs acc = fold_left (and_step eval2) cs acc.
Proof.
  intros eval1 eval2 cs. induction cs as [| c cs IH]; intros acc H.
  - reflexivity.
  - inversion H as [| ? ? Hc Hcs]; subst. simpl.
    unfold and_step at 2 4. rewrite Hc. apply IH. exact Hcs.
Qed.

(** X18.  A comparison never consults the null flag.  On a filter tree
    built of conjunctions and comparisons only, [ApplyValueFilter]
    returns the same verdict, or fails alike, whether the attribute is
    flagged null or not: the datum alone is compared, so a null
    attribute is judged by whatever datum comes with it. *)
Theorem comparison_ignores_null_flag :
  forall F filter value type_oid,
    has_null_test filter = false ->
    forall n1 n2,
      ApplyValueFilter F filter value n1 type_oid
      = ApplyValueFilter F filter value n2 type_oid.
Proof.
  intros F filter value type_oid.
  induction filter as [cs IH | ct k | | | tag] using TableFilter_nested_ind;
    intros Hno n1 n2; try reflexivity; try discriminate Hno.
  rewrite !ApplyValueFilter_and. apply and_fold_ext.
  simpl in Hno.
  induction IH as [| c cs Hc _ IHcs]; [constructor |].
  simpl in Hno. apply orb_false_iff in Hno. destruct Hno as [H1 H2].
  constructor; [apply Hc; exact H1 | apply IHcs; exact H2].
Qed.

Lemma comparison_ignores_null_flag_witness :
  ApplyValueFilter Sample.compare
    (ConjunctionAndFilter [ConstantFilter COMPARE_EQUAL (VInteger 0)])
    0 true INT4OID
  = Ok true.
Proof.
  rewrite (comparison_ignores_null_flag Sample.compare
             (ConjunctionAndFilter [ConstantFilter COMPARE_EQUAL (VInteger 0)])
             0 INT4OID eq_refl true false).
  reflexivity.
Defined.

(* ================================================================== *)
(** * Properties: what each column of a decoded row receives *)
(* ================================================================== *)

Lemma fetch_next_attribute_exists :
  forall M tuple tupleDesc st isNull r,
    m_nvalid st < HeapTupleHeaderGetNatts (t_data tuple) ->
    HeapTupleFetchNextDatumValue M tuple tupleDesc st (m_nvalid st + 1)
      isNull = Ok r ->
    exists thisatt, array_get (attrs tupleDesc) (m_nvalid st) = Ok thisatt.
Proof.
  intros M tuple tupleDesc st isNull r Hlt H.
  rewrite fetch_call_unfold in H.
  rewrite Z.min_r in H by lia.
  replace (Z.to_nat (m_nvalid st + 1 - m_nvalid st)) with 1%nat in H by lia.
  cbn [fetch_loop] in H.
  apply bind_Ok in H. destruct H as [s [H _]].
  apply bind_Ok in H. destruct H as [s1 [H _]].
  unfold fetch_attribute in H.
  apply bind_Ok in H. destruct H as [thisatt [Ha _]].
  exists thisatt. exact Ha.
Qed.

Lemma HeapTupleHeaderGetNatts_nonneg : forall tup,
  0 <= HeapTupleHeaderGetNatts tup.
Proof.
  intros tup. unfold HeapTupleHeaderGetNatts, HEAP_NATTS_MASK.
  apply Z.land_nonneg. right. lia.
Qed.

Section RowColumns.

Variable M : TupleMacros.
Variable fp : DoubleHost.
Variable h : Heap.
Variable slot : HeapTupleData.
Variable offset : Z.

(** The round of the column loop that fills column [c]: the call of the
    reader it makes, and the vector it leaves in the chunk. *)
Lemma insert_loop_column :
  forall n i output tupleDesc st output' tupleDesc' st',
    insert_loop M fp h slot offset n i (output, tupleDesc, st)
    = Ok (output', tupleDesc', st') ->
    0 <= i ->
    m_nvalid st = Z.min i (HeapTupleHeaderGetNatts (t_data slot)) ->
    forall c vec,
      i <= c < i + Z.of_nat n ->
      array_get output c = Ok vec ->
      exists desc_c st_c value isNull st_c' desc_c' vec',
        m_nvalid st_c = Z.min c (HeapTupleHeaderGetNatts (t_data slot))
        /\ (forall j, c <= j ->
              array_get (attrs desc_c) j = array_get (attrs tupleDesc) j)
        /\ HeapTupleFetchNextDatumValue M slot desc_c st_c (c + 1) false
           = Ok (value, isNull, st_c', desc_c')
        /\ (if isNull then SetInvalid vec offset
            else ConvertPostgresToDuckValue fp h value vec offset) = Ok vec'
        /\ array_get output' c = Ok vec'.
Proof.
  induction n as [| n IH];
    intros i output tupleDesc st output' tupleDesc' st' H Hi Hv c vec Hc Hvec;
    [lia |].
  simpl in H.
  apply bind_Ok in H. destruct H as [[[output1 desc1] st1] [H1 H]].
  pose proof (insert_column_frame M fp h slot offset _ _ _ _ _ _ _ H1)
    as [_ [_ Hother]].
  pose proof H1 as Hcol.
  unfold insert_column in Hcol.
  apply bind_Ok in Hcol. destruct Hcol as [result [Hr Hcol]].
  apply bind_Ok in Hcol.
  destruct Hcol as [[[[value1 isNull1] st1'] desc1'] [Hf Hcol]].
  apply bind_Ok in Hcol. destruct Hcol as [result' [Hconv Hcol]].
  apply bind_Ok in Hcol. destruct Hcol as [output1' [Hset Hcol]].
  injection Hcol as E1 E2 E3. subst output1' desc1' st1'.
  destruct (fetch_call_facts _ _ _ _ _ _ _ _ _ _ Hf)
    as [Hnv [_ [Hattrs _]]].
  destruct (Z.eq_dec c i) as [-> | Hne].
  - exists tupleDesc, st, value1, isNull1, st1, desc1, result'.
    rewrite Hr in Hvec. injection Hvec as Hvec. subst result.
    split; [exact Hv |]. split; [intros; reflexivity |].
    split; [exact Hf |]. split; [exact Hconv |].
    destruct (insert_loop_frame M fp h slot offset _ _ _ _ _ _ _ _ H
                ltac:(lia)) as [_ [_ Hlater]].
    rewrite Hlater by lia.
    apply array_set_Ok in Hset. destruct Hset as [Hrange ->].
    unfold array_get.
    destruct (i <? 0) eqn:E; [apply Z.ltb_lt in E; lia |].
    rewrite nth_error_list_set by lia. reflexivity.
  - assert (Hvec1 : array_get output1 c = Ok vec)
      by (rewrite Hother by exact Hne; exact Hvec).
    destruct (IH (i + 1) output1 desc1 st1 output' tupleDesc' st' H
                ltac:(lia) ltac:(lia) c vec ltac:(lia) Hvec1)
      as [desc_c [st_c [value [isNull [st_c' [desc_c' [vec'
            [Hm [Hsame [Hfc [Hcv Hout]]]]]]]]]]].
    exists desc_c, st_c, value, isNull, st_c', desc_c', vec'.
    split; [exact Hm |]. split; [| split; [exact Hfc | split; assumption]].
    intros j Hj. rewrite Hsame by exact Hj. apply Hattrs. right. lia.
Qed.

End RowColumns.

(** X19.  A null attribute marks its row invalid and writes no value.  When
    [InsertTupleIntoChunk] returns, the vector of a column whose
    attribute is null in the tuple is the old vector with the validity
    of row [offset] cleared: its data array is as it was. *)
Theorem null_column_is_marked_invalid :
  forall M fp h slot offset output tupleDesc output' tupleDesc' c vec,
    InsertTupleIntoChunk M fp h slot offset output tupleDesc
    = Ok (output', tupleDesc') ->
    0 <= c < natts tupleDesc ->
    c < HeapTupleHeaderGetNatts (t_data slot) ->
    tuple_att_null slot c ->
    array_get output c = Ok vec ->
    array_get output' c
    = Ok (mkVector (vec_type vec) (vec_data vec)
            (list_set (vec_validity vec) (Z.to_nat offset) false))
    /\ 0 <= offset < Z.of_nat (length (vec_validity vec)).
Proof.
  intros M fp h slot offset output tupleDesc output' tupleDesc' c vec
         H Hc Hk Hnull Hvec.
  unfold InsertTupleIntoChunk in H.
  apply bind_Ok in H. destruct H as [[[output1 e1] st1] [Hl H]].
  injection H as E1 E2. simpl in E1, E2. subst output1 e1.
  destruct (insert_loop_column M fp h slot offset _ _ _ _ _ _ _ _ Hl
              ltac:(lia) ltac:(simpl; lia) c vec ltac:(lia) Hvec)
    as [desc_c [st_c [value [isNull [st_c' [desc_c' [vec'
          [Hm [_ [Hf [Hcv Hout]]]]]]]]]]].
  rewrite Z.min_l in Hm by lia. rewrite <- Hm in Hf, Hnull, Hk.
  destruct (fetch_next_attribute_exists _ _ _ _ _ _ Hk Hf) as [a Ha].
  rewrite (fetch_null M slot desc_c st_c false a Ha Hnull Hk) in Hf.
  injection Hf as _ Hn _ _. subst isNull.
  apply SetInvalid_Ok in Hcv. destruct Hcv as [Hr ->].
  split; [exact Hout | exact Hr].
Qed.

Lemma null_column_is_marked_invalid_witness :
  exists output' tupleDesc',
    InsertTupleIntoChunk Tupmacs.pg_tupmacs Sample.host Sample.heap3
      Sample.tuple3 0 Sample.chunk3 Sample.desc3 = Ok (output', tupleDesc')
    /\ array_get output' 1 = Ok (mkVector (plain INTEGER) [CellEmpty] [false]).
Proof.
  assert (H1 : exists o d,
             InsertTupleIntoChunk Tupmacs.pg_tupmacs Sample.host Sample.heap3
               Sample.tuple3 0 Sample.chunk3 Sample.desc3 = Ok (o, d))
    by (eexists; eexists; vm_compute; reflexivity).
  destruct H1 as [o [d H1]].
  exists o, d. split; [exact H1 |].
  apply (null_column_is_marked_invalid Tupmacs.pg_tupmacs Sample.host
           Sample.heap3 Sample.tuple3 0 Sample.chunk3 Sample.desc3 o d
           1 (Sample.vector (plain INTEGER)) H1).
  - simpl. lia.
  - vm_compute. reflexivity.
  - split; reflexivity.
  - reflexivity.
Defined.

(** X20.  An attribute the tuple does not have is written as the datum 0.
    When the descriptor has more attributes than the tuple stores,
    [InsertTupleIntoChunk] fills every column past the tuple's count
    with the conversion of the datum 0, and does not mark it invalid. *)
Theorem missing_attribute_is_zero :
  forall M fp h slot offset output tupleDesc output' tupleDesc' c vec,
    InsertTupleIntoChunk M fp h slot offset output tupleDesc
    = Ok (output', tupleDesc') ->
    0 <= c < natts tupleDesc ->
    HeapTupleHeaderGetNatts (t_data slot) <= c ->
    array_get output c = Ok vec ->
    exists vec',
      ConvertPostgresToDuckValue fp h 0 vec offset = Ok vec'
      /\ array_get output' c = Ok vec'
      /\ vec_validity vec' = vec_validity vec.
Proof.
  intros M fp h slot offset output tupleDesc output' tupleDesc' c vec
         H Hc Hk Hvec.
  unfold InsertTupleIntoChunk in H.
  apply bind_Ok in H. destruct H as [[[output1 e1] st1] [Hl H]].
  injection H as E1 E2. simpl in E1, E2. subst output1 e1.
  pose proof (HeapTupleHeaderGetNatts_nonneg (t_data slot)) as Hnn.
  destruct (insert_loop_column M fp h slot offset _ _ _ _ _ _ _ _ Hl
              ltac:(lia) ltac:(simpl; lia) c vec ltac:(lia) Hvec)
    as [desc_c [st_c [value [isNull [st_c' [desc_c' [vec'
          [Hm [_ [Hf [Hcv Hout]]]]]]]]]]].
  rewrite Z.min_r in Hm by lia.
  rewrite (fetch_nothing_new M slot desc_c st_c (c + 1) false) in Hf
    by lia.
  injection Hf as Hv Hn _ _. subst value isNull.
  exists vec'. split; [exact Hcv |]. split; [exact Hout |].
  apply ConvertPostgresToDuckValue_Ok in Hcv. destruct Hcv as [cell Hcell].
  apply Append_Ok in Hcell. destruct Hcell as [_ ->]. reflexivity.
Qed.

Lemma missing_attribute_is_zero_witness :
  exists output' tupleDesc' vec',
    InsertTupleIntoChunk Tupmacs.pg_tupmacs Sample.host [] Sample.tuple5 0
      Sample.chunk5 Sample.desc5 = Ok (output', tupleDesc')
    /\ ConvertPostgresToDuckValue Sample.host [] 0
         (Sample.vector (plain INTEGER)) 0 = Ok vec'
    /\ array_get output' 4 = Ok vec'
    /\ vec_validity vec' = [true].
Proof.
  assert (H1 : exists o d,
             InsertTupleIntoChunk Tupmacs.pg_tupmacs Sample.host []
               Sample.tuple5 0 Sample.chunk5 Sample.desc5 = Ok (o, d))
    by (eexists; eexists; vm_compute; reflexivity).
  destruct H1 as [o [d H1]].
  destruct (missing_attribute_is_zero Tupmacs.pg_tupmacs Sample.host []
              Sample.tuple5 0 Sample.chunk5 Sample.desc5 o d 4
              (Sample.vector (plain INTEGER)) H1
              ltac:(simpl; lia) ltac:(vm_compute; discriminate) eq_refl)
    as [vec' [Hc [Hg Hval]]].
  exists o, d, vec'.
  split; [exact H1 |]. split; [exact Hc |]. split; [exact Hg | exact Hval].
Defined.
